(** * alvie-pico: VFS multiplexer and block-device layer

    A shallow embedding of [pico_vfs/vfs.c], [pico_blockdev/blockdev.c],
    [pico_blockdev/partition.c] and [pico_object/include/pico/object.h],
    with the properties of the specification stated over it.

    Conventions of the embedding:
    - C integers are [Z]; the conversions the source performs ([ssize_t]
      casts, [uint8_t] counters, [uint32_t] assembling) are written out.
      The target is the RP2040, so [size_t] is 32 bits wide.
    - C strings are [list ascii] (the bytes before the terminating NUL).
      The prefix a registry entry keeps in its array [path_prefix] is the
      characters in the array; where they fill the array there is no
      terminator in it, and a read of the prefix as a string is a [Fault].
    - The global arrays [s_fd_table] and [s_vfs] are lists read with
      stdpp's [!!] and written with [<[ i := x ]>]; an access the source
      performs outside the array is reported as a [Fault].
    - Function pointers of a backend are oracles: functions from the
      arguments of the call to its result. Every call through a vtable
      and every notification hook is appended to an event log.
    - [malloc] is an oracle too: its outcome is an input of the model. *)

From Stdlib Require Import ZArith Lia Ascii String Bool.
From Stdlib.Strings Require Import Byte.
From stdpp Require Import base tactics option list strings.

#[local] Open Scope Z_scope.

(** ** Results of code that can leave defined behaviour *)

Inductive fault : Type :=
| OutOfBounds (i : Z)      (* array indexed outside its bounds *)
| NullDeref                (* write or read through a NULL pointer *)
| AssertFail               (* an [assert] of the source does not hold *)
| BadPointer               (* pointer to no object of the model *)
| OutOfFuel.               (* recursion budget of the model exhausted *)

Inductive result (A : Type) : Type :=
| Ok (a : A)
| Fault (f : fault).
Arguments Ok {A} a.
Arguments Fault {A} f.

#[global] Instance result_ret : MRet result := fun A a => Ok a.
#[global] Instance result_bind : MBind result := fun A B k r =>
  match r with
  | Ok a => k a
  | Fault f => Fault f
  end.

(** ** errno values (newlib's [sys/errno.h]; ISO C makes them positive) *)

Module Errno.
Definition ENOENT : Z := 2.
Definition EBADF : Z := 9.
Definition ENOMEM : Z := 12.
Definition EBUSY : Z := 16.
Definition EINVAL : Z := 22.
Definition ENFILE : Z := 23.
Definition ENOSYS : Z := 88.
Definition EALREADY : Z := 120.
End Errno.

(** * The VFS multiplexer, [pico_vfs/vfs.c] *)

Module Vfs.
Import Errno.

Definition MAX_FDS : Z := 16.
Definition VFS_MAX_COUNT : Z := 4.
Definition SIZE_MAX : Z := 2 ^ 32 - 1.
Definition LEN_PATH_PREFIX_IGNORED : Z := SIZE_MAX.

(** [(ssize_t) n] for a [size_t] value [n]. *)
Definition to_ssize_t (n : Z) : Z := if n <? 2 ^ 31 then n else n - 2 ^ 32.

Abbreviation cstring := (list ascii) (only parsing).
Definition cstr (s : string) : cstring := list_ascii_of_string s.
Definition strlen (s : cstring) : Z := Z.of_nat (length s).

(** [s[i]]; reading the terminating NUL (or beyond) yields NUL. *)
Definition char_at (s : cstring) (i : Z) : ascii :=
  if i <? 0 then zero else nth (Z.to_nat i) s zero.

(** [memcmp(a, b, n) == 0]. *)
Definition memcmp_eq (a b : cstring) (n : Z) : bool :=
  bool_decide (take (Z.to_nat n) a = take (Z.to_nat n) b).

(** The part of [pico_vfs_ops_t] the table code itself looks at. A backend
    [open] writes the local descriptor through its out-pointer and returns
    a status; both are the oracle's result. *)
Record pico_vfs_ops_t : Type := {
  op_open : option (Z -> cstring -> Z -> Z -> Z * Z);
  op_close : option (Z -> Z -> Z)
}.

(** [path_prefix] is the characters held by the array
    [char path_prefix[PICO_VFS_BASE_PATH_MAX]], up to the first NUL or the
    end of the array. With fewer characters than the array has bytes, a
    NUL follows them inside the array; with as many, the array holds no
    terminator. *)
Record pico_vfs_entry_t : Type := {
  ops : pico_vfs_ops_t;
  path_prefix : cstring;
  path_prefix_len : Z;        (* size_t *)
  index : nat;                (* uint8_t *)
  drvctx : Z
}.

(** [vfs->path_prefix] read as a string, the way [strcpy(dst,
    vfs->path_prefix)] reads it. Where the array holds no terminator the
    read leaves the array: what lies behind it (padding, then
    [path_prefix_len]) is not a matter of the source, and a copy of
    [max_len] characters and a terminator does not fit a destination of
    [max_len] bytes either. [max_len] is [PICO_VFS_BASE_PATH_MAX], the bound
    of the array, which as an array bound is positive: [path_prefix[0]] is
    always inside the array. *)
Definition stored_prefix_string (max_len : Z) (vfs : pico_vfs_entry_t)
    : result cstring :=
  if strlen (path_prefix vfs) <? max_len then Ok (path_prefix vfs)
  else Fault (OutOfBounds max_len).

Record pico_vfs_fd_table_t : Type := {
  vfs_index : Z;              (* int8_t, -1 when the row is free *)
  local_fd : Z;
  permanent : bool
}.

Definition FD_TABLE_ENTRY_UNUSED : pico_vfs_fd_table_t :=
  {| vfs_index := -1; local_fd := -1; permanent := false |}.

Inductive vfs_event : Type :=
| EvRegister (base_path : cstring)         (* pico_vfs_register_event *)
| EvDeregister (base_path : cstring)       (* pico_vfs_deregister_event *)
| EvOpen (ix : nat) (path : cstring) (flags mode : Z)
| EvClose (ix : nat) (fd : Z).

Record vfs_state : Type := {
  s_fd_table : list pico_vfs_fd_table_t;
  s_vfs : list (option pico_vfs_entry_t);
  s_vfs_count : nat;
  errno : Z;
  events : list vfs_event
}.

Definition set_fd_table (t : list pico_vfs_fd_table_t) (st : vfs_state) :=
  {| s_fd_table := t; s_vfs := s_vfs st; s_vfs_count := s_vfs_count st;
     errno := errno st; events := events st |}.
Definition set_errno (e : Z) (st : vfs_state) :=
  {| s_fd_table := s_fd_table st; s_vfs := s_vfs st;
     s_vfs_count := s_vfs_count st; errno := e; events := events st |}.
Definition emit (ev : vfs_event) (st : vfs_state) :=
  {| s_fd_table := s_fd_table st; s_vfs := s_vfs st;
     s_vfs_count := s_vfs_count st; errno := errno st;
     events := events st ++ [ev] |}.

(** [a[i]] for a C [int] index. *)
Definition zlookup {A} (l : list A) (i : Z) : option A :=
  if i <? 0 then None else l !! Z.to_nat i.

(** ** Path resolution *)

Record match_acc : Type := {
  best_match : option pico_vfs_entry_t;
  best_match_prefix_len : Z   (* ssize_t *)
}.

(** One iteration of the [for] loop of [pico_vfs_get_vfs_entry_for_path]
    on slot [s_vfs[i]]. *)
Definition path_scan_step (path : cstring) (acc : match_acc)
    (slot : option pico_vfs_entry_t) : match_acc :=
  let len := strlen path in
  match slot with
  | None => acc
  | Some vfs =>
    if path_prefix_len vfs =? LEN_PATH_PREFIX_IGNORED then acc
    else if (len <? path_prefix_len vfs)
            || negb (memcmp_eq path (path_prefix vfs) (path_prefix_len vfs))
    then acc
    else if (path_prefix_len vfs =? 0)
            && negb (bool_decide (is_Some (best_match acc)))
    then {| best_match := Some vfs;
            best_match_prefix_len := best_match_prefix_len acc |}
    else if (len >? path_prefix_len vfs)
            && negb (Ascii.eqb (char_at path (path_prefix_len vfs)) "/")
    then acc
    else if best_match_prefix_len acc <? to_ssize_t (path_prefix_len vfs)
    then {| best_match := Some vfs;
            best_match_prefix_len := to_ssize_t (path_prefix_len vfs) |}
    else acc
  end.

Definition pico_vfs_get_vfs_entry_for_path (st : vfs_state) (path : cstring)
    : option pico_vfs_entry_t :=
  best_match
    (fold_left (path_scan_step path) (take (s_vfs_count st) (s_vfs st))
       {| best_match := None; best_match_prefix_len := -1 |}).

(** The [assert] at the head of [translate_path] compares the first
    [path_prefix_len] characters of the two strings; it holds at both call
    sites (lemma [translate_path_assertion]) and is left out here. *)
Definition translate_path (vfs : pico_vfs_entry_t) (src_path : cstring)
    : cstring :=
  if strlen src_path =? path_prefix_len vfs then cstr "/"
  else drop (Z.to_nat (path_prefix_len vfs)) src_path.

Definition pico_vfs_get_vfs_entry_for_index (st : vfs_state) (ix : Z)
    : option pico_vfs_entry_t :=
  if (ix <? 0) || (ix >=? Z.of_nat (s_vfs_count st)) then None
  else mjoin (s_vfs st !! Z.to_nat ix).

Definition pico_vfs_valid_fd (fd : Z) : bool := (fd <? MAX_FDS) && (fd >=? 0).

Definition pico_vfs_get_vfs_for_fd (st : vfs_state) (fd : Z)
    : option pico_vfs_entry_t :=
  if pico_vfs_valid_fd fd then
    match zlookup (s_fd_table st) fd with
    | Some row => pico_vfs_get_vfs_entry_for_index st (vfs_index row)
    | None => None
    end
  else None.

Definition pico_vfs_local_fd (st : vfs_state) (vfs : option pico_vfs_entry_t)
    (global_fd : Z) : Z :=
  match vfs with
  | Some _ =>
    if pico_vfs_valid_fd global_fd then
      match zlookup (s_fd_table st) global_fd with
      | Some row => local_fd row
      | None => -1
      end
    else -1
  | None => -1
  end.

(** ** Registration *)

(** [(int8_t) n]: the conversion done when a backend index is stored in a
    descriptor row. *)
Definition to_int8 (n : Z) : Z := (n + 128) mod 256 - 128.

(** [(unsigned short) n]. *)
Definition to_ushort (n : Z) : Z := n mod 65536.

Definition set_registry (slots : list (option pico_vfs_entry_t)) (count : nat)
    (st : vfs_state) : vfs_state :=
  {| s_fd_table := s_fd_table st; s_vfs := slots; s_vfs_count := count;
     errno := errno st; events := events st |}.

(** [for (index = 0; index < s_vfs_count; ++index) if (!s_vfs[index]) break;]
    run over the first [s_vfs_count] slots. *)
Fixpoint find_null_slot (slots : list (option pico_vfs_entry_t)) (index : nat)
    : nat :=
  match slots with
  | [] => index
  | None :: _ => index
  | Some _ :: rest => find_null_slot rest (S index)
  end.

Section Registration.
(** [PICO_VFS_BASE_PATH_MAX] is declared in [pico/vfs.h], which is not
    part of the sources at hand; it is a parameter here. *)
Variable PICO_VFS_BASE_PATH_MAX : Z.

(** The result is the new state, the returned code and the value left in
    [*vfs_index]. [malloc_ok] is the outcome of the [malloc] call. The
    [strcpy] copies all of [base_path]. The length test lets a prefix of
    exactly [PICO_VFS_BASE_PATH_MAX] characters through; the [strcpy] then
    fills the array with the characters and puts its terminator into the
    byte behind the array, which lies in the same [malloc]ed entry (padding,
    or the first byte of [path_prefix_len], assigned next). The call
    returns as for a shorter prefix, with the slot taken and the characters
    stored, and the entry is left without a terminator inside
    [path_prefix]: [stored_prefix_string] is how the later reads of the
    prefix as a string see it. *)
Definition pico_vfs_register_common (st : vfs_state) (base_path : cstring)
    (len : Z) (vops : pico_vfs_ops_t) (ctx : Z) (malloc_ok : bool)
    (vfs_index0 : Z) : vfs_state * Z * Z :=
  if (if negb (len =? LEN_PATH_PREFIX_IGNORED) then
        if (negb (len =? 0) && (len <? 2)) || (len >? PICO_VFS_BASE_PATH_MAX)
        then true
        else ((len >? 0) && negb (Ascii.eqb (char_at base_path 0) "/"))
             || ((len >? 0) && Ascii.eqb (char_at base_path (len - 1)) "/")
      else false)
  then (st, EINVAL, vfs_index0)
  else if negb malloc_ok then (st, ENOMEM, vfs_index0)
  else
    let ix := find_null_slot (take (s_vfs_count st) (s_vfs st)) 0 in
    if (ix =? s_vfs_count st)%nat
       && (Z.of_nat (s_vfs_count st) >=? VFS_MAX_COUNT)
    then (st, ENOMEM, vfs_index0)
    else
      let count' :=
        if (ix =? s_vfs_count st)%nat then S (s_vfs_count st)
        else s_vfs_count st in
      let entry :=
        {| ops := vops;
           path_prefix :=
             if negb (len =? LEN_PATH_PREFIX_IGNORED) then base_path else [];
           path_prefix_len := len;
           index := ix;
           drvctx := ctx |} in
      (set_registry (<[ix := Some entry]> (s_vfs st)) count' st,
       0, Z.of_nat ix).

Definition pico_vfs_register (st : vfs_state) (base_path : cstring)
    (vops : pico_vfs_ops_t) (ctx : Z) (malloc_ok : bool) : vfs_state * Z :=
  let '(st1, r, ix) :=
    pico_vfs_register_common st base_path (strlen base_path) vops ctx
      malloc_ok (-1) in
  if r <? 0 then (st1, r)
  else (emit (EvRegister base_path) st1, ix).

(** Rollback loop: [for (j = min_fd; j < i; ++j)]. *)
Fixpoint fd_range_rollback (n : nat) (ix j : Z)
    (tbl : list pico_vfs_fd_table_t) : result (list pico_vfs_fd_table_t) :=
  match n with
  | O => Ok tbl
  | S n' =>
    match zlookup tbl j with
    | None => Fault (OutOfBounds j)
    | Some row =>
      fd_range_rollback n' ix (j + 1)
        (if vfs_index row =? ix
         then <[Z.to_nat j := FD_TABLE_ENTRY_UNUSED]> tbl else tbl)
    end
  end.

(** Reservation loop: [for (i = min_fd; i <= max_fd; ++i)], [n] iterations
    left. *)
Fixpoint fd_range_loop (n : nat) (ix min_fd i : Z)
    (tbl : list pico_vfs_fd_table_t)
    : result (list pico_vfs_fd_table_t * Z) :=
  match n with
  | O => Ok (tbl, 0)
  | S n' =>
    match zlookup tbl i with
    | None => Fault (OutOfBounds i)
    | Some row =>
      if negb (vfs_index row =? -1) then
        tbl' ← fd_range_rollback (Z.to_nat (i - min_fd)) ix min_fd tbl;
        Ok (tbl', EINVAL)
      else
        fd_range_loop n' ix min_fd (i + 1)
          (<[Z.to_nat i := {| vfs_index := to_int8 ix; local_fd := i;
                              permanent := true |}]> tbl)
    end
  end.

Definition pico_vfs_register_fd_range_for_vfs_index (st : vfs_state)
    (ix min_fd max_fd : Z) : result (vfs_state * Z) :=
  '(tbl, r) ← fd_range_loop (Z.to_nat (max_fd - min_fd + 1)) ix min_fd
                 min_fd (s_fd_table st);
  Ok (set_fd_table tbl st, r).

(** The argument check at the head of [pico_vfs_register_fd_range]:
    [true] when the call is rejected with [EINVAL]. *)
Definition fd_range_rejected (min_fd max_fd : Z) : bool :=
  (min_fd <? 0) || (max_fd <? 0) || (min_fd >? MAX_FDS)
  || (max_fd >? MAX_FDS) || (min_fd >? max_fd).

Definition pico_vfs_register_fd_range (st : vfs_state)
    (vops : pico_vfs_ops_t) (ctx : Z) (min_fd max_fd : Z)
    (malloc_ok : bool) : result (vfs_state * Z) :=
  if fd_range_rejected min_fd max_fd then Ok (st, EINVAL)
  else
    let '(st1, ret, ix) :=
      pico_vfs_register_common st [] LEN_PATH_PREFIX_IGNORED vops ctx
        malloc_ok (-1) in
    if ret =? 0 then
      '(st2, ret2) ← pico_vfs_register_fd_range_for_vfs_index st1 ix
                       min_fd max_fd;
      Ok (st2, if negb (ret2 =? 0) then -1 else ix)
    else Ok (st1, -1).

(** [strcpy(path, vfs->path_prefix)] fills the local buffer
    [char path[PICO_VFS_BASE_PATH_MAX]], whose contents go to the
    deregistration hook. An index outside [s_vfs] is not checked by the
    source. *)
Definition pico_vfs_unregister (st : vfs_state) (ix : Z)
    : result (vfs_state * Z) :=
  match zlookup (s_vfs st) ix with
  | None => Fault (OutOfBounds ix)
  | Some None => Ok (st, -1)
  | Some (Some vfs) =>
    path ← stored_prefix_string PICO_VFS_BASE_PATH_MAX vfs;
    Ok (emit (EvDeregister path)
          (set_registry (<[Z.to_nat ix := None]> (s_vfs st))
             (s_vfs_count st) st),
        0)
  end.
End Registration.

(** ** Descriptor-addressed and path-addressed calls *)

(** [VFSCALL_R(int, r, close, fd)]: the state after the call and [ret]. *)
Definition vfscall_close (st : vfs_state) (vfs : pico_vfs_entry_t) (fd : Z)
    : vfs_state * Z :=
  match op_close (ops vfs) with
  | None => (set_errno ENOSYS st, -1)
  | Some close =>
    let ret := close (drvctx vfs) fd in
    let st1 := emit (EvClose (index vfs) fd) st in
    (if ret <? 0 then set_errno (- ret) st1 else st1, ret)
  end.

Definition pico_vfs_close (st : vfs_state) (fd : Z) : vfs_state * Z :=
  let vfs := pico_vfs_get_vfs_for_fd st fd in
  let lfd := pico_vfs_local_fd st vfs fd in
  match vfs with
  | None => (set_errno EBADF st, -1)
  | Some v =>
    if lfd =? -1 then (set_errno EBADF st, -1)
    else
      let '(st1, ret) := vfscall_close st v lfd in
      if ret =? 0 then
        match zlookup (s_fd_table st1) fd with
        | Some row =>
          if negb (permanent row)
          then (set_fd_table
                  (<[Z.to_nat fd := FD_TABLE_ENTRY_UNUSED]> (s_fd_table st1))
                  st1, ret)
          else (st1, ret)
        | None => (st1, ret)
        end
      else (st1, ret)
  end.

(** [for (int i = 0; i < MAX_FDS; ++i) if (s_fd_table[i].vfs_index == -1)]
    over the [MAX_FDS] rows of the table, from row [i]. *)
Fixpoint first_unused_row (rows : list pico_vfs_fd_table_t) (i : Z)
    : option Z :=
  match rows with
  | [] => None
  | row :: rest =>
    if vfs_index row =? -1 then Some i else first_unused_row rest (i + 1)
  end.

Definition pico_vfs_open (st : vfs_state) (path : cstring) (flags mode : Z)
    : vfs_state * Z :=
  match pico_vfs_get_vfs_entry_for_path st path with
  | None => (set_errno ENOENT st, -1)
  | Some vfs =>
    let path_within_vfs := translate_path vfs path in
    (* [fd_within_vfs] stays uninitialised when there is no [open]; it is
       not read then, since [ret] is -1. *)
    let '(st1, ret, fd_within_vfs) :=
      match op_open (ops vfs) with
      | None => (set_errno ENOSYS st, -1, 0)
      | Some open =>
        let '(ret, lfd) := open (drvctx vfs) path_within_vfs flags mode in
        let st1 := emit (EvOpen (index vfs) path_within_vfs flags mode) st in
        (if ret <? 0 then set_errno (- ret) st1 else st1, ret, lfd)
      end in
    if ret =? 0 then
      match first_unused_row (take (Z.to_nat MAX_FDS) (s_fd_table st1)) 0 with
      | Some i =>
        (set_fd_table
           (<[Z.to_nat i := {| vfs_index := to_int8 (Z.of_nat (index vfs));
                               local_fd := fd_within_vfs;
                               permanent := false |}]> (s_fd_table st1))
           st1, i)
      | None =>
        let '(st2, _) := vfscall_close st1 vfs fd_within_vfs in
        (set_errno ENFILE st2, -1)
      end
    else (st1, ret)
  end.

(** ** The root directory backend *)

Record pico_vfs_internal_dir_t : Type := {
  d_vfs_index : Z;
  d_off : Z                   (* unsigned short *)
}.

Definition DT_DIR : Z := 4.

Record dirent : Type := {
  d_type : Z;
  d_name : cstring
}.

(** [name = None] is the NULL pointer. A failed [malloc] is not checked by
    the source before the handle is written. *)
Definition pico_vfs_root_opendir (st : vfs_state) (name : option cstring)
    (malloc_ok : bool) : result (vfs_state * option pico_vfs_internal_dir_t) :=
  match name with
  | None => Ok (set_errno ENOENT st, None)
  | Some [] => Ok (set_errno ENOENT st, None)
  | Some (c0 :: rest) =>
    if Ascii.eqb c0 "/" && bool_decide (rest = []) then
      if malloc_ok then Ok (st, Some {| d_vfs_index := 0; d_off := 0 |})
      else Fault NullDeref
    else Ok (set_errno ENOENT st, None)
  end.

Definition pico_vfs_root_seekdir (dir : pico_vfs_internal_dir_t) (loc : Z)
    : pico_vfs_internal_dir_t :=
  if (loc >=? 0) && (loc <? VFS_MAX_COUNT)
  then {| d_vfs_index := d_vfs_index dir; d_off := to_ushort loc |}
  else dir.

Definition pico_vfs_root_telldir (dir : pico_vfs_internal_dir_t) : Z :=
  d_off dir.

(** The [do ... while (!vfs && cindex < VFS_MAX_COUNT)] loop of
    [pico_vfs_root_readdir]; [fuel] bounds the iterations. *)
Fixpoint root_readdir_scan (fuel : nat)
    (slots : list (option pico_vfs_entry_t)) (cindex : Z)
    : result (option pico_vfs_entry_t * Z) :=
  match fuel with
  | O => Fault OutOfFuel
  | S fuel' =>
    match zlookup slots cindex with
    | None => Fault (OutOfBounds cindex)
    | Some slot =>
      let skip :=
        match slot with
        | None => true
        | Some vfs => Ascii.eqb (char_at (path_prefix vfs) 0) zero
        end in
      if skip then
        if cindex + 1 <? VFS_MAX_COUNT
        then root_readdir_scan fuel' slots (cindex + 1)
        else Ok (None, cindex + 1)
      else Ok (slot, cindex)
    end
  end.

Section RootReaddir.
Variable PICO_VFS_BASE_PATH_MAX : Z.

(** [strcpy(d->dir_iter.d_name, path)] reads the stored prefix as a string,
    from its first or, behind a leading slash, its second character. The
    size of [d_name] belongs to the C library's [struct dirent], not to the
    sources at hand; the name is taken to fit it. *)
Definition pico_vfs_root_readdir (st : vfs_state)
    (dir : pico_vfs_internal_dir_t)
    : result (pico_vfs_internal_dir_t * option dirent) :=
  let cindex := d_off dir in
  if cindex >=? VFS_MAX_COUNT then Ok (dir, None)
  else
    '(vfs, cindex) ← root_readdir_scan (Z.to_nat VFS_MAX_COUNT) (s_vfs st)
                       cindex;
    match vfs with
    | None => Ok (dir, None)
    | Some v =>
      path ← stored_prefix_string PICO_VFS_BASE_PATH_MAX v;
      let path := if Ascii.eqb (char_at path 0) "/" then drop 1 path
                  else path in
      Ok ({| d_vfs_index := d_vfs_index dir; d_off := to_ushort (cindex + 1) |},
          Some {| d_type := DT_DIR; d_name := path |})
    end.
End RootReaddir.

(** The statically initialised globals after the table loop of
    [pico_vfs_init]: every row has [vfs_index = -1], the other fields are
    still zero. *)
Definition boot_state : vfs_state :=
  {| s_fd_table :=
       replicate (Z.to_nat MAX_FDS)
         {| vfs_index := -1; local_fd := 0; permanent := false |};
     s_vfs := replicate (Z.to_nat VFS_MAX_COUNT) None;
     s_vfs_count := 0;
     errno := 0;
     events := [] |}.

(** [rootops] of [pico_vfs_init]: only the directory operations are set. *)
Definition rootops : pico_vfs_ops_t := {| op_open := None; op_close := None |}.

(** [pico_vfs_init] on a system that is not yet initialised. *)
Definition pico_vfs_init (PICO_VFS_BASE_PATH_MAX : Z) (malloc_ok : bool)
    : vfs_state * Z :=
  let '(st, ret, ix) :=
    pico_vfs_register_common PICO_VFS_BASE_PATH_MAX boot_state [] 0 rootops 0
      malloc_ok (-1) in
  if ret <? 0 then (st, ret) else (st, ix).

(** ** Predicates the properties are stated with *)

(** [e] sits in one of the slots the lookups scan. *)
Definition occupied (st : vfs_state) (e : pico_vfs_entry_t) : Prop :=
  ∃ i : nat, (i < s_vfs_count st)%nat ∧ s_vfs st !! i = Some (Some e).

(** The prefix of [e] is a prefix of [p] and, when it is non-empty and
    strictly shorter than [p], the next character of [p] is a slash. An
    entry with the ignored sentinel matches nothing. *)
Definition path_matches (p : cstring) (e : pico_vfs_entry_t) : Prop :=
  path_prefix_len e ≠ LEN_PATH_PREFIX_IGNORED
  ∧ path_prefix e `prefix_of` p
  ∧ (path_prefix e ≠ [] →
     (length (path_prefix e) < length p)%nat →
     p !! length (path_prefix e) = Some "/"%char).

(** What [pico_vfs_register_common] stores: the sentinel, or the length of
    the stored prefix (which fits [ssize_t]). *)
Definition entry_wf (e : pico_vfs_entry_t) : Prop :=
  path_prefix_len e = LEN_PATH_PREFIX_IGNORED
  ∨ (path_prefix_len e = strlen (path_prefix e) ∧ path_prefix_len e < 2 ^ 31).

Definition registry_wf (st : vfs_state) : Prop :=
  ∀ e, occupied st e → entry_wf e.

(** The loop invariant of [pico_vfs_get_vfs_entry_for_path] after the slots
    [seen] have been visited. *)
Definition scan_inv (p : cstring) (seen : list (option pico_vfs_entry_t))
    (acc : match_acc) : Prop :=
  match best_match acc with
  | None =>
    best_match_prefix_len acc = -1
    ∧ ∀ e, Some e ∈ seen → ¬ path_matches p e
  | Some b =>
    Some b ∈ seen ∧ path_matches p b
    ∧ path_prefix_len b = strlen (path_prefix b)
    ∧ (best_match_prefix_len acc = path_prefix_len b
       ∨ (best_match_prefix_len acc = -1 ∧ path_prefix_len b = 0))
    ∧ ∀ e, Some e ∈ seen → path_matches p e →
           (length (path_prefix e) ≤ length (path_prefix b))%nat
  end.

(** The shape of the two global arrays: [VFS_MAX_COUNT] slots of which the
    first [s_vfs_count] are in use, every entry knowing its own slot, and
    [MAX_FDS] descriptor rows. *)
Definition registry_ok (st : vfs_state) : Prop :=
  length (s_vfs st) = Z.to_nat VFS_MAX_COUNT
  ∧ (s_vfs_count st ≤ length (s_vfs st))%nat
  ∧ (∀ (i : nat) e, s_vfs st !! i = Some (Some e) → index e = i)
  ∧ length (s_fd_table st) = Z.to_nat MAX_FDS.

(** The handle states the root directory backend can produce: the handle
    [pico_vfs_root_opendir] returns, stamped by [pico_vfs_opendir] with the
    backend index, and whatever [readdir] and [seekdir] make of it. *)
Inductive root_handle_reachable : pico_vfs_internal_dir_t → Prop :=
| reach_opendir st st' name ok d :
    pico_vfs_root_opendir st name ok = Ok (st', Some d) →
    root_handle_reachable d
| reach_stamp d ix :
    root_handle_reachable d →
    root_handle_reachable {| d_vfs_index := ix; d_off := d_off d |}
| reach_readdir (PICO_VFS_BASE_PATH_MAX : Z) st d d' ent :
    root_handle_reachable d →
    pico_vfs_root_readdir PICO_VFS_BASE_PATH_MAX st d = Ok (d', ent) →
    root_handle_reachable d'
| reach_seekdir d loc :
    root_handle_reachable d →
    root_handle_reachable (pico_vfs_root_seekdir d loc).

(** The position the specification gives for [seekdir(loc)], in its words:
    [loc] clamped to the range from 0 up to, not including,
    [VFS_MAX_COUNT]. *)
Definition spec_clamped_loc (loc : Z) : Z :=
  Z.max 0 (Z.min loc (VFS_MAX_COUNT - 1)).

(** The descriptor-table invariant of the specification: a row is free or
    its backend index resolves to a registered backend. *)
Definition row_ok (st : vfs_state) (row : pico_vfs_fd_table_t) : Prop :=
  vfs_index row = -1
  ∨ is_Some (pico_vfs_get_vfs_entry_for_index st (vfs_index row)).

Definition fd_table_inv (st : vfs_state) : Prop :=
  Forall (row_ok st) (s_fd_table st).

(** Row [fd] of the table is free. *)
Definition row_free (tbl : list pico_vfs_fd_table_t) (fd : nat) : Prop :=
  ∃ row, tbl !! fd = Some row ∧ vfs_index row = -1.

(** ** States used in the scenarios *)

Definition sample_base_path_max : Z := 16.

(** A backend whose [open] returns [ret] and hands out local descriptor
    [lfd], and whose [close] returns [cret]. *)
Definition sample_ops (ret lfd cret : Z) : pico_vfs_ops_t :=
  {| op_open := Some (fun _ _ _ _ => (ret, lfd));
     op_close := Some (fun _ _ => cret) |}.

Definition st_root : vfs_state := fst (pico_vfs_init sample_base_path_max true).

Definition st_dev : vfs_state :=
  fst (pico_vfs_register sample_base_path_max st_root (cstr "/dev")
         (sample_ops 0 7 0) 0 true).

Definition st_dev_uart : vfs_state :=
  fst (pico_vfs_register sample_base_path_max st_dev (cstr "/dev/uart")
         (sample_ops 0 8 0) 0 true).

(** All four slots taken: the root backend, [/dev], [/dev/uart], [/sd]. *)
Definition st_full : vfs_state :=
  fst (pico_vfs_register sample_base_path_max st_dev_uart (cstr "/sd")
         (sample_ops 0 9 0) 0 true).

(** The handle of [opendir("/")] after it has been moved to the last slot
    and read once more. *)
Definition dir_at_last_slot : pico_vfs_internal_dir_t :=
  pico_vfs_root_seekdir {| d_vfs_index := 0; d_off := 0 |} 3.

(** The entry [pico_vfs_register] stored for [/dev]. *)
Definition dev_entry : pico_vfs_entry_t :=
  {| ops := sample_ops 0 7 0; path_prefix := cstr "/dev";
     path_prefix_len := 4; index := 1; drvctx := 0 |}.


(** [/dev] registered and [/dev/x] opened: row 0 belongs to backend 1. *)
Definition st_opened : vfs_state :=
  fst (pico_vfs_open st_dev (cstr "/dev/x") 0 0).

(** That handle once [readdir] has reported the backend of the last slot. *)
Definition dir_past_end : pico_vfs_internal_dir_t :=
  {| d_vfs_index := 0; d_off := VFS_MAX_COUNT |}.

(** ** More of [vfs.c]: path joining and the descriptor-addressed calls *)

(** [pico_vfs_concat_path]: [snprintf(dest, destlen, "%s/%s", path1, path2)]
    after a [path1] that is exactly ["/"] has been stepped over. The result
    is what [dest] holds afterwards ([None]: nothing is written, [destlen]
    is 0) and the returned count, the length of the untruncated string. *)
Definition pico_vfs_concat_path (path1 path2 : cstring) (destlen : Z)
    : option cstring * Z :=
  let path1 :=
    if Ascii.eqb (char_at path1 0) "/" && Ascii.eqb (char_at path1 1) zero
    then drop 1 path1 else path1 in
  let full := path1 ++ "/"%char :: path2 in
  (if destlen =? 0 then None else Some (take (Z.to_nat (destlen - 1)) full),
   strlen full).

Section DescriptorCalls.
(** [VFS_GENERIC_REENT_CALL(rettype, name, reent, fd, ...)], the body of
    [pico_vfs_write], [pico_vfs_read], [pico_vfs_pread], [pico_vfs_pwrite],
    [pico_vfs_lseek], [pico_vfs_fcntl], [pico_vfs_fstat], [pico_vfs_fsync]
    and [pico_vfs_ioctl]. [name] selects the vtable entry; the oracle it
    yields takes the driver context and the local descriptor, the further
    arguments of the call being fixed in it. *)
Variable name : pico_vfs_ops_t -> option (Z -> Z -> Z).

Definition vfs_generic_reent_call (st : vfs_state) (fd : Z)
    : vfs_state * Z :=
  let vfs := pico_vfs_get_vfs_for_fd st fd in
  let lfd := pico_vfs_local_fd st vfs fd in
  match vfs with
  | None => (set_errno EBADF st, -1)
  | Some v =>
    if lfd =? -1 then (set_errno EBADF st, -1)
    else
      match name (ops v) with
      | None => (set_errno ENOSYS st, -1)
      | Some f =>
        let ret := f (drvctx v) lfd in
        (if ret <? 0 then set_errno (- ret) st else st, ret)
      end
  end.
End DescriptorCalls.

(** A caller's loop [while ((e = readdir(d)) != NULL)] on the root
    directory backend, at most [n] rounds: the entries seen and the handle
    left behind. Every call returns the address of the one [dir_iter]
    buffer inside the handle, so an entry is what the caller reads there
    before the next call overwrites it. *)
Fixpoint root_readdir_all (max_len : Z) (n : nat) (st : vfs_state)
    (dir : pico_vfs_internal_dir_t)
    : result (list dirent * pico_vfs_internal_dir_t) :=
  match n with
  | O => Ok ([], dir)
  | S n' =>
    '(dir', ent) ← pico_vfs_root_readdir max_len st dir;
    match ent with
    | None => Ok ([], dir')
    | Some e =>
      '(rest, dir'') ← root_readdir_all max_len n' st dir';
      Ok (e :: rest, dir'')
    end
  end.

(** ** Predicates for the further properties *)

(** The two argument tests at the head of [pico_vfs_register_common],
    taken together: [true] when the call returns [EINVAL]. *)
Definition prefix_rejected (max_len : Z) (base_path : cstring) (len : Z)
    : bool :=
  if negb (len =? LEN_PATH_PREFIX_IGNORED) then
    if (negb (len =? 0) && (len <? 2)) || (len >? max_len) then true
    else ((len >? 0) && negb (Ascii.eqb (char_at base_path 0) "/"))
         || ((len >? 0) && Ascii.eqb (char_at base_path (len - 1)) "/")
  else false.

(** The entry [pico_vfs_register_common] builds. *)
Definition new_entry (base_path : cstring) (len : Z) (vops : pico_vfs_ops_t)
    (ctx : Z) (ix : nat) : pico_vfs_entry_t :=
  {| ops := vops;
     path_prefix :=
       if negb (len =? LEN_PATH_PREFIX_IGNORED) then base_path else [];
     path_prefix_len := len; index := ix; drvctx := ctx |}.

(** A base path [pico_vfs_register] accepts: empty, or between 2 and
    [max_len] characters, starting with a slash and not ending in one. *)
Definition prefix_valid (max_len : Z) (p : cstring) : Prop :=
  p = []
  ∨ (2 ≤ strlen p ≤ max_len ∧ head p = Some "/"%char
     ∧ last p ≠ Some "/"%char).

(** Slot [i] of the registry holds a backend. *)
Definition slot_taken (st : vfs_state) (i : nat) : Prop :=
  ∃ e, s_vfs st !! i = Some (Some e).

(** The slots at and above [s_vfs_count] have never been handed out. *)
Definition registry_tail_free (st : vfs_state) : Prop :=
  ∀ i : nat, (s_vfs_count st ≤ i)%nat → (i < length (s_vfs st))%nat →
             s_vfs st !! i = Some None.

(** Descriptor [fd] is in range, its row names a slot that holds backend
    [v], and the row's local descriptor is [lfd], which is not -1. *)
Definition fd_live (st : vfs_state) (fd : Z) (v : pico_vfs_entry_t) (lfd : Z)
    : Prop :=
  0 ≤ fd < MAX_FDS
  ∧ ∃ row, s_fd_table st !! Z.to_nat fd = Some row
           ∧ 0 ≤ vfs_index row < Z.of_nat (s_vfs_count st)
           ∧ s_vfs st !! Z.to_nat (vfs_index row) = Some (Some v)
           ∧ local_fd row = lfd ∧ lfd ≠ -1.

(** The row [pico_vfs_register_fd_range_for_vfs_index] writes for
    descriptor [fd] of backend [ix]. *)
Definition reserved_row (ix fd : Z) : pico_vfs_fd_table_t :=
  {| vfs_index := ix; local_fd := fd; permanent := true |}.

(** [tbl] is [tbl0] with the rows [a], ..., [b - 1] reserved for [ix]. *)
Definition rows_reserved (ix : Z) (a b : nat)
    (tbl0 tbl : list pico_vfs_fd_table_t) : Prop :=
  length tbl = length tbl0
  ∧ ∀ k : nat,
      tbl !! k = if decide (a ≤ k < b)%nat
                 then Some (reserved_row ix (Z.of_nat k)) else tbl0 !! k.

(** [tbl] is [tbl0] with the rows [a], ..., [b - 1] set to
    [FD_TABLE_ENTRY_UNUSED]. *)
Definition rows_released (a b : nat)
    (tbl0 tbl : list pico_vfs_fd_table_t) : Prop :=
  length tbl = length tbl0
  ∧ ∀ k : nat,
      tbl !! k = if decide (a ≤ k < b)%nat
                 then Some FD_TABLE_ENTRY_UNUSED else tbl0 !! k.

(** What the root directory lists: the prefixes of the slots that hold a
    backend with a non-empty prefix, in slot order, without their leading
    slash. *)
Definition root_dir_names (slots : list (option pico_vfs_entry_t))
    : list cstring :=
  omap (fun slot : option pico_vfs_entry_t =>
          match slot with
          | Some e =>
            match path_prefix e with
            | [] => None
            | c :: rest =>
              Some (if Ascii.eqb c "/" then rest else c :: rest)
            end
          | None => None
          end) slots.



(** The root backend and one backend at [/sd]. *)
Definition st_sd : vfs_state :=
  fst (pico_vfs_register sample_base_path_max st_root (cstr "/sd")
         (sample_ops 0 9 0) 0 true).

End Vfs.

(** * The block-device layer, [pico_blockdev/blockdev.c] and [partition.c] *)

Module Blockdev.
Import Errno.

Definition ptr := nat.

Definition PICO_IOCTL_BLKGETSIZE : Z := 0.

(** A vtable. [part_ops] is the static table of [partition.c]; any other
    table belongs to a driver, whose functions are oracles. A sector read
    yields the return value and the contents of the caller's buffer; an
    ioctl yields the return value and what it stored through [data]. What a
    driver's [destroy] does to its own object is outside the model: the call
    is recorded in the log. *)
Inductive pico_blockdev_ops_t : Type :=
| part_ops
| driver_ops (read_sector : option (Z -> Z -> Z * list byte))
             (ioctl : option (Z -> Z * option Z))
             (has_destroy : bool).

(** [struct pico_blockdev__], with the two fields [pico_blockdev_part_t]
    adds to it. [children] is the list of the [dev] fields of the link
    nodes, first link first; a link node is never written after
    [pico_blockdev_add_child] has built it. *)
Record pico_blockdev_t : Type := {
  refcnt : Z;                 (* uint8_t *)
  ops : option pico_blockdev_ops_t;
  parent : option ptr;
  children : list ptr;
  start_sector : Z;           (* uint32_t *)
  num_sectors : Z;            (* uint32_t *)
  freed : bool
}.

Inductive bd_event : Type :=
| BdRegister (dev : ptr)                   (* pico_blockdev_register_event *)
| BdUnregister (dev : option ptr)          (* pico_blockdev_unregister_event *)
| BdDestroy (dev : ptr)                    (* ops->destroy(dev) *)
| BdDebug                                  (* BLKDEV_DEBUG *)
| BdInfo (start size : Z)                  (* BLKDEV_INFO *)
| BdError (r : Z).                         (* BLKDEV_ERROR *)

#[global] Instance bd_event_eq_dec : EqDecision bd_event.
Proof. solve_decision. Defined.

Record world : Type := {
  heap : list pico_blockdev_t;  (* object [p] lives at [heap !! p] *)
  malloc_plan : list bool;      (* outcomes of the coming [malloc] calls *)
  log : list bd_event
}.

Definition set_heap (h : list pico_blockdev_t) (w : world) : world :=
  {| heap := h; malloc_plan := malloc_plan w; log := log w |}.
Definition emit (ev : bd_event) (w : world) : world :=
  {| heap := heap w; malloc_plan := malloc_plan w; log := log w ++ [ev] |}.

Definition deref (w : world) (p : ptr) : result pico_blockdev_t :=
  match heap w !! p with
  | Some d => Ok d
  | None => Fault BadPointer
  end.

Definition update (p : ptr) (f : pico_blockdev_t -> pico_blockdev_t)
    (w : world) : world :=
  match heap w !! p with
  | Some d => set_heap (<[p := f d]> (heap w)) w
  | None => w
  end.

Definition with_refcnt (n : Z) (d : pico_blockdev_t) : pico_blockdev_t :=
  {| refcnt := n; ops := ops d; parent := parent d; children := children d;
     start_sector := start_sector d; num_sectors := num_sectors d;
     freed := freed d |}.
Definition with_parent (q : option ptr) (d : pico_blockdev_t) :=
  {| refcnt := refcnt d; ops := ops d; parent := q; children := children d;
     start_sector := start_sector d; num_sectors := num_sectors d;
     freed := freed d |}.
Definition with_children (l : list ptr) (d : pico_blockdev_t) :=
  {| refcnt := refcnt d; ops := ops d; parent := parent d; children := l;
     start_sector := start_sector d; num_sectors := num_sectors d;
     freed := freed d |}.
Definition with_extent (start size : Z) (d : pico_blockdev_t) :=
  {| refcnt := refcnt d; ops := ops d; parent := parent d;
     children := children d; start_sector := start; num_sectors := size;
     freed := freed d |}.
Definition with_freed (d : pico_blockdev_t) :=
  {| refcnt := refcnt d; ops := ops d; parent := parent d;
     children := children d; start_sector := start_sector d;
     num_sectors := num_sectors d; freed := true |}.

(** The outcome of the next [malloc]; with an empty plan it succeeds. *)
Definition next_malloc (w : world) : bool * world :=
  match malloc_plan w with
  | [] => (true, w)
  | b :: rest => (b, {| heap := heap w; malloc_plan := rest; log := log w |})
  end.

(** [malloc(sizeof(pico_blockdev_part_t))]: a fresh object whose fields are
    not yet initialised (zero here), or NULL. *)
Definition malloc_dev (w : world) : option ptr * world :=
  let '(ok, w1) := next_malloc w in
  if ok then
    (Some (length (heap w1)),
     set_heap (heap w1 ++ [{| refcnt := 0; ops := None; parent := None;
                              children := []; start_sector := 0;
                              num_sectors := 0; freed := false |}]) w1)
  else (None, w1).

(** ** [pico/object.h] on the embedded header *)

Definition pico_object_ref (w : world) (p : ptr) : result world :=
  d ← deref w p;
  if refcnt d =? 255 then Fault AssertFail
  else Ok (update p (with_refcnt (refcnt d + 1)) w).

(** [pico_blockdev_unref], that is [pico_object_unref] with
    [pico_blockdev_destroy_object] as [dealloc]; for [part_ops] the
    [destroy] entry is [pico_blockdev_part_destroy], which releases the
    parent and frees the object. *)
Fixpoint pico_blockdev_unref (fuel : nat) (w : world) (p : ptr)
    : result (world * option ptr) :=
  match fuel with
  | O => Fault OutOfFuel
  | S fuel' =>
    d ← deref w p;
    if refcnt d =? 0 then Fault AssertFail
    else
      let newref := refcnt d - 1 in
      let w1 := update p (with_refcnt newref) w in
      if newref =? 0 then
        w2 ← match ops d with
             | None => Ok w1
             | Some part_ops =>
               let w' := emit (BdDestroy p) w1 in
               w'' ← match parent d with
                     | Some q =>
                       '(w'', _) ← pico_blockdev_unref fuel' w' q; Ok w''
                     | None => Ok w'
                     end;
               Ok (update p with_freed w'')
             | Some (driver_ops _ _ has_destroy) =>
               Ok (if has_destroy then emit (BdDestroy p) w1 else w1)
             end;
        Ok (w2, None)
      else Ok (w1, Some p)
  end.

Definition pico_blockdev_init (w : world) (p : ptr)
    (vt : option pico_blockdev_ops_t) : world :=
  update p (fun d =>
    {| refcnt := 1; ops := vt; parent := None; children := [];
       start_sector := start_sector d; num_sectors := num_sectors d;
       freed := freed d |}) w.

(** Call the vtable's [read_sector] entry where it is set and return
    [-ENOSYS] where it is not: the shape shared by
    [pico_blockdev_read_sector] and [pico_blockdev_part_read_sector]. *)
Fixpoint pico_blockdev_read_sector (fuel : nat) (w : world) (p : ptr)
    (start count : Z) : result (Z * list byte) :=
  match fuel with
  | O => Fault OutOfFuel
  | S fuel' =>
    d ← deref w p;
    match ops d with
    | None => Fault NullDeref
    | Some (driver_ops None _ _) => Ok (- ENOSYS, [])
    | Some (driver_ops (Some rd) _ _) => Ok (rd start count)
    | Some part_ops =>
      match parent d with
      | None => Fault NullDeref
      | Some q =>
        pico_blockdev_read_sector fuel' w q
          ((start + start_sector d) mod 2 ^ 32) count
      end
    end
  end.

(** [dev->ops->ioctl(dev, cmd, data)] where the entry is set; [unset] is
    what the caller returns where it is not. *)
Fixpoint call_ioctl (fuel : nat) (w : world) (p : ptr) (cmd : Z) (unset : Z)
    : result (Z * option Z) :=
  match fuel with
  | O => Fault OutOfFuel
  | S fuel' =>
    d ← deref w p;
    match ops d with
    | None => Fault NullDeref
    | Some (driver_ops _ None _) => Ok (unset, None)
    | Some (driver_ops _ (Some io) _) => Ok (io cmd)
    | Some part_ops =>
      (* pico_blockdev_part_ioctl *)
      if cmd =? PICO_IOCTL_BLKGETSIZE then Ok (0, Some (num_sectors d))
      else
        match parent d with
        | None => Fault NullDeref
        | Some q => call_ioctl fuel' w q cmd (-1)
        end
    end
  end.

Definition pico_blockdev_ioctl (fuel : nat) (w : world) (p : ptr) (cmd : Z)
    : result (Z * option Z) :=
  call_ioctl fuel w p cmd (- ENOSYS).

Definition pico_blockdev_has_children (d : pico_blockdev_t) : bool :=
  negb (bool_decide (children d = [])).

Definition pico_blockdev_add_child (w : world) (dev child : ptr)
    : result (world * Z) :=
  c ← deref w child;
  match parent c with
  | Some _ => Ok (w, - EALREADY)
  | None =>
    let '(ok, w1) := next_malloc w in
    if negb ok then Ok (w1, - ENOMEM)
    else
      d ← deref w1 dev;
      let w2 := update dev (with_children (child :: children d)) w1 in
      let w3 := update child (with_parent (Some dev)) w2 in
      w4 ← pico_object_ref w3 child;
      w5 ← pico_object_ref w4 dev;
      Ok (w5, 0)
  end.

(** ** The MS-DOS partition scan, [partition.c] *)

Definition u8 (b : byte) : Z := Z.of_N (Byte.to_N b).

(** [src[i]] in a buffer of [uint8_t]. *)
Definition byte_at (src : list byte) (i : nat) : byte := nth i src x00.

Definition pico_blockdev_extractle32 (src : list byte) : Z :=
  let v := u8 (byte_at src 0) in
  let v := Z.lor v (Z.shiftl (u8 (byte_at src 1)) 8) in
  let v := Z.lor v (Z.shiftl (u8 (byte_at src 2)) 16) in
  let v := Z.lor v (Z.shiftl (u8 (byte_at src 3)) 24) in
  v.

(** Offsets in the packed [struct msdos_partition]. *)
Definition sizeof_msdos_partition : nat := 16.
Definition off_sys_ind : nat := 4.
Definition off_start_sect : nat := 8.
Definition off_nr_sects : nat := 12.

(** [register] stands for the call to [pico_blockdev_register]; the knot is
    tied in [pico_blockdev_register] below. A NULL result of [malloc] is
    not checked by the source before [pico_blockdev_init] writes to it. *)
Definition pico_blockdev_check_msdos_partition
    (register : world -> ptr -> result (world * Z))
    (w : world) (dev : ptr) (source : list byte) (index : nat)
    : result world :=
  let p := drop (index * sizeof_msdos_partition) source in
  if negb (u8 (byte_at p off_sys_ind) =? 0) then
    let start := pico_blockdev_extractle32 (drop off_start_sect p) in
    let size := pico_blockdev_extractle32 (drop off_nr_sects p) in
    let '(newdev, w1) := malloc_dev w in
    match newdev with
    | None => Fault NullDeref
    | Some n =>
      let w2 := pico_blockdev_init w1 n (Some part_ops) in
      let w3 := update n (with_extent start size) w2 in
      '(w4, r) ← pico_blockdev_add_child w3 dev n;
      if r =? 0 then
        '(w5, _) ← register (emit (BdInfo start size) w4) n;
        Ok w5
      else Ok (emit (BdError r) w4)
    end
  else Ok w.

(** [for (int i = ...)] over the indices [idxs], threading the world. *)
Fixpoint for_each (body : world -> nat -> result world) (idxs : list nat)
    (w : world) : result world :=
  match idxs with
  | [] => Ok w
  | i :: rest => w' ← body w i; for_each body rest w'
  end.

Definition pico_blockdev_scan_partitions (fuel : nat)
    (register : world -> ptr -> result (world * Z))
    (w : world) (dev : ptr) : result world :=
  '(r, sect) ← pico_blockdev_read_sector fuel w dev 0 1;
  if r =? 1 then
    if (u8 (byte_at sect 510) =? 85) && (u8 (byte_at sect 511) =? 170) then
      for_each
        (fun w i =>
           pico_blockdev_check_msdos_partition register w dev
             (drop 446 sect) i)
        (seq 0 4) (emit BdDebug w)
    else Ok w
  else Ok (emit (BdError r) w).

Fixpoint pico_blockdev_register (fuel : nat) (w : world) (dev : ptr)
    : result (world * Z) :=
  match fuel with
  | O => Fault OutOfFuel
  | S fuel' =>
    d ← deref w dev;
    w1 ← match parent d with
         | None =>
           pico_blockdev_scan_partitions fuel'
             (pico_blockdev_register fuel') w dev
         | Some _ => Ok w
         end;
    '(w2, _) ← pico_blockdev_unref fuel' (emit (BdRegister dev) w1) dev;
    Ok (w2, 0)
  end.

(** [pico_blockdev_unregister]. The recursive call on [dev'] re-enters at
    the head of the [while] loop with the pointer [pico_blockdev_unref]
    returned; [link_next] is [link->next] as read from the link fetched at
    the top of the iteration. *)
Fixpoint pico_blockdev_unregister (fuel : nat) (w : world) (dev : option ptr)
    : result world :=
  match fuel with
  | O => Fault OutOfFuel
  | S fuel' =>
    match dev with
    | None => Ok (emit (BdUnregister None) w)
    | Some p =>
      d ← deref w p;
      match children d with
      | [] => Ok (emit (BdUnregister (Some p)) w)
      | link_dev :: link_next =>
        w1 ← pico_blockdev_unregister fuel' w (Some link_dev);
        '(w2, dev') ← pico_blockdev_unref fuel' w1 p;
        let w3 :=
          match dev' with
          | Some q => update q (with_children link_next) w2
          | None => w2
          end in
        pico_blockdev_unregister fuel' w3 dev'
      end
    end
  end.

(** Number of times [ops->destroy] ran on [p]. *)
Definition destroy_count (p : ptr) (w : world) : nat :=
  length (filter (fun ev => ev = BdDestroy p) (log w)).

(** ** Disks used in the scenarios *)

Definition le32_2048 : list byte := [x00; x08; x00; x00].
Definition le32_1024 : list byte := [x00; x04; x00; x00].

Definition mbr_entry (sys_ind : byte) (start size : list byte) : list byte :=
  [x00; x00; x00; x00; sys_ind; x00; x00; x00] ++ start ++ size.

Definition empty_entry : list byte := replicate 16 x00.

Definition mbr_sector (e0 e1 e2 e3 : list byte) : list byte :=
  replicate 446 x00 ++ e0 ++ e1 ++ e2 ++ e3 ++ [x55; xaa].

(** A driver whose every read transfers one sector holding [sect]. *)
Definition disk_ops (sect : list byte) : pico_blockdev_ops_t :=
  driver_ops (Some (fun _ _ => (1, sect))) None true.

(** Addresses in the scenarios: the disk, then the partition objects in
    the order [malloc] hands them out. *)
Definition disk : ptr := 0%nat.
Definition part1 : ptr := 1%nat.
Definition part2 : ptr := 2%nat.

(** One driver object at address 0, as [pico_blockdev_init] leaves it. *)
Definition fresh_disk (vt : pico_blockdev_ops_t) (plan : list bool) : world :=
  pico_blockdev_init
    {| heap := [{| refcnt := 0; ops := None; parent := None; children := [];
                   start_sector := 0; num_sectors := 0; freed := false |}];
       malloc_plan := plan; log := [] |}
    0%nat (Some vt).

Definition s4_sector : list byte :=
  mbr_sector (mbr_entry x0b le32_2048 le32_1024) empty_entry empty_entry
    empty_entry.

Definition two_partition_sector : list byte :=
  mbr_sector (mbr_entry x0b le32_2048 le32_1024) empty_entry
    (mbr_entry x83 le32_1024 le32_2048) empty_entry.

(** The value of the first four bytes of [bs] read as a little-endian
    number. *)
Definition le32_value (bs : list byte) : Z :=
  u8 (byte_at bs 0) + 256 * u8 (byte_at bs 1) + 65536 * u8 (byte_at bs 2)
  + 16777216 * u8 (byte_at bs 3).

(** The disk of scenario S4, as the specification describes it: sector 0
    ends in 55 AA; entry 0 (at byte 446) has type 0B, start 2048 and count
    1024, both little-endian; entry 1 (at byte 462) has type 00. *)
Definition s4_disk (sect : list byte) : Prop :=
  byte_at sect 510 = x55 ∧ byte_at sect 511 = xaa
  ∧ byte_at sect 450 = x0b
  ∧ le32_value (drop 454 sect) = 2048
  ∧ le32_value (drop 458 sect) = 1024
  ∧ byte_at sect 466 = x00.

(** A driver object just after [pico_blockdev_init]. *)
Definition disk_rec (vt : pico_blockdev_ops_t) : pico_blockdev_t :=
  {| refcnt := 1; ops := Some vt; parent := None; children := [];
     start_sector := 0; num_sectors := 0; freed := false |}.

(** A partition object as [pico_blockdev_check_msdos_partition] has set it
    up just before it links it below the disk. *)
Definition part_rec (start size : Z) : pico_blockdev_t :=
  {| refcnt := 1; ops := Some part_ops; parent := None; children := [];
     start_sector := start; num_sectors := size; freed := false |}.

(** The disk of scenario S4 and a partition object not yet linked. *)
Definition unlinked_pair : world :=
  {| heap := [disk_rec (disk_ops s4_sector); part_rec 2048 1024];
     malloc_plan := []; log := [] |}.

(** The world [pico_blockdev_register] leaves for the disk of scenario
    S4: the disk and its one partition, one reference each. *)
Definition registered_s4 : world :=
  match pico_blockdev_register 8 (fresh_disk (disk_ops s4_sector) []) disk with
  | Ok (w, _) => w
  | Fault _ => fresh_disk (disk_ops s4_sector) []
  end.

(** A sector of zeros: no signature, no partition. *)
Definition blank_sector : list byte := replicate 512 x00.

(** Every reference count fits the [uint8_t] it is stored in. *)
Definition refcnt_in_range (w : world) : Prop :=
  Forall (fun d => 0 ≤ refcnt d ≤ 255) (heap w).

End Blockdev.

(** * Properties of the VFS multiplexer *)

Module VfsFacts.
Import Errno Vfs.

(** ** Path resolution *)

Lemma to_ssize_t_small n : n < 2 ^ 31 → to_ssize_t n = n.
Proof.
  intros Hn. unfold to_ssize_t.
  destruct (n <? 2 ^ 31) eqn:E; [done | apply Z.ltb_ge in E; lia].
Qed.

Lemma memcmp_prefix (p q : cstring) :
  (strlen p <? strlen q) || negb (memcmp_eq p q (strlen q)) = false
  ↔ q `prefix_of` p.
Proof.
  unfold memcmp_eq, strlen. rewrite Nat2Z.id, firstn_all.
  rewrite orb_false_iff, negb_false_iff, bool_decide_eq_true, Z.ltb_ge.
  split.
  - intros [_ Ht]. exists (drop (length q) p).
    rewrite <- Ht at 1. by rewrite take_drop.
  - intros [k ->]. rewrite length_app, take_app_length. split; [lia | done].
Qed.

Lemma char_at_slash (p : cstring) (n : nat) :
  Ascii.eqb (char_at p (Z.of_nat n)) "/" = true ↔ p !! n = Some "/"%char.
Proof.
  unfold char_at.
  destruct (Z.of_nat n <? 0) eqn:E; [apply Z.ltb_lt in E; lia |].
  rewrite Nat2Z.id, nth_lookup, Ascii.eqb_eq.
  destruct (p !! n) as [c|]; simpl;
    [split; [by intros -> | by intros [= ->]] |].
  unfold zero. split; intros H; discriminate H.
Qed.

Lemma scan_inv_skip p seen acc slot :
  scan_inv p seen acc →
  (∀ e, slot = Some e → path_matches p e →
        ∃ b, best_match acc = Some b
             ∧ (length (path_prefix e) ≤ length (path_prefix b))%nat) →
  scan_inv p (seen ++ [slot]) acc.
Proof.
  unfold scan_inv. intros Hinv Hslot.
  destruct (best_match acc) as [b|] eqn:Hb.
  - destruct Hinv as (Hin & Hm & Hlen & Hbl & Hmax).
    split_and!; try done.
    + apply elem_of_app; by left.
    + intros e [He | He%list_elem_of_singleton]%elem_of_app Hme; [eauto |].
      destruct (Hslot e (eq_sym He) Hme) as (b' & Hb' & Hle). congruence.
  - destruct Hinv as (Hbl & Hnone). split; [done |].
    intros e [He | He%list_elem_of_singleton]%elem_of_app Hme;
      [by eapply Hnone |].
    destruct (Hslot e (eq_sym He) Hme) as (b' & Hb' & _). discriminate.
Qed.

Lemma scan_inv_take p seen acc e n :
  scan_inv p seen acc →
  path_matches p e →
  path_prefix_len e = strlen (path_prefix e) →
  (n = path_prefix_len e ∨ (n = -1 ∧ path_prefix_len e = 0)) →
  (∀ b, best_match acc = Some b →
        (length (path_prefix b) ≤ length (path_prefix e))%nat) →
  scan_inv p (seen ++ [Some e])
    {| best_match := Some e; best_match_prefix_len := n |}.
Proof.
  unfold scan_inv. intros Hinv Hme Hlen Hn Hbest. simpl.
  split_and!; try done.
  - apply elem_of_app; right; by apply list_elem_of_singleton.
  - intros e' [He' | He'%list_elem_of_singleton]%elem_of_app Hme'.
    + destruct (best_match acc) as [b|] eqn:Hb.
      * destruct Hinv as (_ & _ & _ & _ & Hmax).
        etrans; [by apply Hmax | by apply Hbest].
      * destruct Hinv as (_ & Hnone). by destruct (Hnone e').
    + by simplify_eq.
Qed.

Lemma path_scan_step_inv p seen acc slot :
  (∀ e, slot = Some e → entry_wf e) →
  scan_inv p seen acc →
  scan_inv p (seen ++ [slot]) (path_scan_step p acc slot).
Proof.
  intros Hwf Hinv. destruct slot as [e|]; simpl;
    [| apply scan_inv_skip; [done | intros; discriminate]].
  destruct (path_prefix_len e =? LEN_PATH_PREFIX_IGNORED) eqn:Hign.
  { apply Z.eqb_eq in Hign. apply scan_inv_skip; [done |].
    intros e' [= <-] (Hne & _). done. }
  apply Z.eqb_neq in Hign.
  destruct (Hwf e eq_refl) as [? | [Hlen Hsmall]]; [done |].
  rewrite (to_ssize_t_small _ Hsmall). rewrite Hlen.
  destruct (_ || negb (memcmp_eq _ _ _)) eqn:Hpre.
  { apply scan_inv_skip; [done |].
    intros e' [= <-] (_ & Hp & _). apply memcmp_prefix in Hp. congruence. }
  apply memcmp_prefix in Hpre.
  assert (Hlenle : (length (path_prefix e) ≤ length p)%nat)
    by (by apply prefix_length).
  destruct ((strlen (path_prefix e) =? 0)
            && negb (bool_decide (is_Some (best_match acc)))) eqn:Hdef.
  { apply andb_true_iff in Hdef as [Hz Hnb].
    apply Z.eqb_eq in Hz. apply negb_true_iff, bool_decide_eq_false in Hnb.
    assert (Hnil : path_prefix e = [])
      by (apply length_zero_iff_nil; unfold strlen in Hz; lia).
    assert (Hme : path_matches p e).
    { unfold path_matches. split_and!; [done | done |].
      intros Hn. by destruct (Hn Hnil). }
    apply (scan_inv_take p seen acc); [done | done | done | |].
    - right. unfold scan_inv in Hinv.
      destruct (best_match acc); [destruct Hnb; eauto |].
      split; [apply Hinv | lia].
    - intros b Hb. destruct Hnb. rewrite Hb. eauto. }
  destruct ((strlen p >? strlen (path_prefix e))
            && negb (Ascii.eqb (char_at p (strlen (path_prefix e))) "/"))
    eqn:Hbound.
  { apply andb_true_iff in Hbound as [Hgt Hns].
    apply Z.gtb_lt in Hgt. apply negb_true_iff in Hns.
    unfold strlen in Hgt.
    apply scan_inv_skip; [done |]. intros e' [= <-] (_ & _ & Hb).
    destruct (decide (path_prefix e = [])) as [Hnil | Hnn].
    - (* a second empty prefix: it matches, but one is already chosen *)
      apply andb_false_iff in Hdef as [Hz | Hnb].
      + apply Z.eqb_neq in Hz. rewrite Hnil in Hz. done.
      + apply negb_false_iff, bool_decide_eq_true in Hnb as [b Hb'].
        exists b. split; [done |]. rewrite Hnil. simpl. lia.
    - specialize (Hb Hnn ltac:(lia)). apply char_at_slash in Hb.
      unfold strlen in Hns. congruence. }
  assert (Hme : path_matches p e).
  { unfold path_matches. split_and!; [done | done |]. intros _ Hlt.
    apply andb_false_iff in Hbound as [Hgt | Hs].
    - unfold strlen in Hgt. rewrite Z.gtb_ltb in Hgt.
      apply Z.ltb_ge in Hgt. lia.
    - apply negb_false_iff in Hs. by apply char_at_slash in Hs. }
  destruct (best_match_prefix_len acc <? strlen (path_prefix e)) eqn:Hlt.
  - apply Z.ltb_lt in Hlt.
    apply (scan_inv_take p seen acc); [done | done | done | by left |].
    intros b Hb. unfold scan_inv in Hinv. rewrite Hb in Hinv.
    destruct Hinv as (_ & _ & Hbl & [Heq | [_ Hz]] & _);
      unfold strlen in *; lia.
  - apply Z.ltb_ge in Hlt. apply scan_inv_skip; [done |].
    intros e' [= <-] _. unfold scan_inv in Hinv.
    destruct (best_match acc) as [b|].
    + exists b. split; [done |].
      destruct Hinv as (_ & _ & Hbl & [Heq | [Hm1 _]] & _);
        unfold strlen in *; lia.
    + destruct Hinv as [Hm1 _]. unfold strlen in *. lia.
Qed.

Lemma path_scan_fold_inv p rest : ∀ seen acc,
  (∀ e, Some e ∈ rest → entry_wf e) →
  scan_inv p seen acc →
  scan_inv p (seen ++ rest) (fold_left (path_scan_step p) rest acc).
Proof.
  induction rest as [| slot rest IH]; intros seen acc Hwf Hinv; simpl.
  - by rewrite app_nil_r.
  - rewrite (cons_middle slot), app_assoc. apply IH.
    + intros e He. apply Hwf. by right.
    + apply path_scan_step_inv; [| done].
      intros e ->. apply Hwf. by left.
Qed.

Lemma occupied_scanned st e :
  occupied st e ↔ Some e ∈ take (s_vfs_count st) (s_vfs st).
Proof.
  unfold occupied. rewrite list_elem_of_lookup.
  split.
  - intros (i & Hlt & Hi). exists i. by apply lookup_take_Some.
  - intros (i & Hi). apply lookup_take_Some in Hi as [Hi Hlt]. by exists i.
Qed.

(** C1. Path resolution returns an occupied entry whose prefix matches the
    path under the slash-boundary rule and is at least as long as every
    other occupied matching prefix (so an empty prefix is returned only
    when no longer prefix matches); entries with the ignored sentinel never
    match; and the result is no backend exactly when no occupied entry
    matches. *)
Theorem path_resolution_longest_prefix (st : vfs_state) (p : cstring) :
  registry_wf st →
  match pico_vfs_get_vfs_entry_for_path st p with
  | Some e =>
    occupied st e ∧ path_matches p e
    ∧ ∀ e', occupied st e' → path_matches p e' →
            (length (path_prefix e') ≤ length (path_prefix e))%nat
  | None => ∀ e', occupied st e' → ¬ path_matches p e'
  end.
Proof.
  intros Hwf. unfold pico_vfs_get_vfs_entry_for_path.
  pose proof (path_scan_fold_inv p (take (s_vfs_count st) (s_vfs st)) []
                {| best_match := None; best_match_prefix_len := -1 |}) as H.
  simpl in H. unfold scan_inv at 2 in H.
  specialize (H ltac:(intros e He; by apply Hwf, occupied_scanned)
                ltac:(simpl; split; [done | intros e He; inversion He])).
  unfold scan_inv in H.
  destruct (best_match _) as [b|].
  - destruct H as (Hin & Hm & _ & _ & Hmax).
    split; [by apply occupied_scanned |]. split; [done |].
    intros e' He'. apply Hmax. by apply occupied_scanned.
  - destruct H as [_ Hnone]. intros e' He'. apply Hnone.
    by apply occupied_scanned.
Qed.

(** ** The registry invariants hold in every state the API builds *)

Lemma find_null_slot_spec (l : list (option pico_vfs_entry_t)) : ∀ k : nat,
  ∃ j : nat, find_null_slot l k = (k + j)%nat ∧ (j ≤ length l)%nat
    ∧ ((j < length l)%nat → l !! j = Some None).
Proof.
  induction l as [| [e|] l IH]; intros k; simpl.
  - exists 0%nat. split_and!; [lia | lia | lia].
  - destruct (IH (S k)) as (j & Hj & Hle & Hnone).
    exists (S j). split_and!; [lia | lia |]. intros Hlt. apply Hnone. lia.
  - exists 0%nat. split_and!; [lia | lia | done].
Qed.

Section RegistrationFacts.
Variable PICO_VFS_BASE_PATH_MAX : Z.

Ltac failure_case :=
  left; unfold EINVAL, ENOMEM; split_and!; [lia | lia | done | done].

(** A successful [pico_vfs_register_common] fills a slot that was free
    (or the slot just above the old count) with an entry holding what was
    passed in; every failure returns a positive errno value and leaves the
    state as it was. *)
Lemma register_common_shape st base_path len vops ctx ok v0 st' r v :
  registry_ok st →
  pico_vfs_register_common PICO_VFS_BASE_PATH_MAX st base_path len vops ctx
    ok v0 = (st', r, v) →
  (r ≠ 0 ∧ 0 < r ∧ st' = st ∧ v = v0)
  ∨ (∃ ix : nat,
       r = 0 ∧ v = Z.of_nat ix ∧ (ix < length (s_vfs st))%nat
       ∧ (ix ≤ s_vfs_count st)%nat
       ∧ ((ix < s_vfs_count st)%nat → s_vfs st !! ix = Some None)
       ∧ s_vfs_count st' =
           (if (ix =? s_vfs_count st)%nat then S (s_vfs_count st)
            else s_vfs_count st)
       ∧ s_fd_table st' = s_fd_table st
       ∧ events st' = events st ∧ errno st' = errno st
       ∧ (len = LEN_PATH_PREFIX_IGNORED
          ∨ (len = 0 ∨ 2 ≤ len ≤ PICO_VFS_BASE_PATH_MAX))
       ∧ s_vfs st' =
           <[ix := Some {| ops := vops;
                           path_prefix :=
                             if negb (len =? LEN_PATH_PREFIX_IGNORED)
                             then base_path else [];
                           path_prefix_len := len; index := ix;
                           drvctx := ctx |}]> (s_vfs st)).
Proof.
  intros (Hslots & Hcount & _ & _). unfold pico_vfs_register_common.
  destruct (if negb (len =? LEN_PATH_PREFIX_IGNORED) then _ else false)
    eqn:Hval.
  { intros [= <- <- <-]. failure_case. }
  destruct ok; simpl; [| intros [= <- <- <-]; failure_case].
  destruct (find_null_slot_spec (take (s_vfs_count st) (s_vfs st)) 0)
    as (j & Hj & Hle & Hnone).
  rewrite Hj. simpl.
  destruct (((j =? s_vfs_count st)%nat
             && (Z.of_nat (s_vfs_count st) >=? VFS_MAX_COUNT))) eqn:Hfull.
  { intros [= <- <- <-]. failure_case. }
  intros [= <- <- <-]. right. exists j.
  rewrite length_take in Hle, Hnone.
  assert (Hix : (j < length (s_vfs st))%nat).
  { destruct (j =? s_vfs_count st)%nat eqn:E.
    - apply Nat.eqb_eq in E. simpl in Hfull.
      rewrite Z.geb_leb in Hfull. apply Z.leb_gt in Hfull.
      rewrite Hslots. lia.
    - apply Nat.eqb_neq in E. lia. }
  split_and!; try done; try lia.
  - intros Hlt. specialize (Hnone ltac:(lia)).
    by apply lookup_take_Some in Hnone as [Hl _].
  - destruct (len =? LEN_PATH_PREFIX_IGNORED) eqn:E;
      [left; by apply Z.eqb_eq | right].
    simpl in Hval. apply Z.eqb_neq in E.
    destruct ((negb (len =? 0) && (len <? 2))
              || (len >? PICO_VFS_BASE_PATH_MAX)) eqn:Hr; [done |].
    apply orb_false_iff in Hr as [H1 H2].
    rewrite Z.gtb_ltb in H2. apply Z.ltb_ge in H2.
    apply andb_false_iff in H1 as [H1 | H1].
    + apply negb_false_iff, Z.eqb_eq in H1. by left.
    + apply Z.ltb_ge in H1. right. lia.
Qed.

Lemma register_common_ok st base_path len vops ctx ok v0 st' r v :
  registry_ok st →
  pico_vfs_register_common PICO_VFS_BASE_PATH_MAX st base_path len vops ctx
    ok v0 = (st', r, v) →
  registry_ok st'.
Proof.
  intros Hok Hreg.
  destruct (register_common_shape _ _ _ _ _ _ _ _ _ _ Hok Hreg)
    as [(_ & _ & -> & _) | (ix & _ & _ & Hix & Hle & _ & Hc & Ht & _ & _
                             & _ & Hs)]; [done |].
  destruct Hok as (Hslots & Hcount & Hidx & Hrows).
  unfold registry_ok. rewrite Hs, Hc, Ht, length_insert.
  split_and!; [done | | | done].
  - destruct (ix =? s_vfs_count st)%nat eqn:E; [| done].
    apply Nat.eqb_eq in E. lia.
  - intros i e [(<- & [= <-] & _) | (_ & Hl)]%list_lookup_insert_Some;
      [done | by apply Hidx].
Qed.

Hypothesis base_path_max_fits : PICO_VFS_BASE_PATH_MAX < 2 ^ 31.

Lemma register_common_wf st base_path len vops ctx ok v0 st' r v :
  registry_ok st → registry_wf st →
  len = LEN_PATH_PREFIX_IGNORED ∨ len = strlen base_path →
  pico_vfs_register_common PICO_VFS_BASE_PATH_MAX st base_path len vops ctx
    ok v0 = (st', r, v) →
  registry_wf st'.
Proof.
  intros Hok Hwf Hlen Hreg.
  destruct (register_common_shape _ _ _ _ _ _ _ _ _ _ Hok Hreg)
    as [(_ & _ & -> & _) | (ix & _ & _ & Hix & Hle & Hfree & Hc & _ & _ & _
                             & Hval & Hs)]; [done |].
  intros e (i & Hi & He). rewrite Hs in He.
  apply list_lookup_insert_Some in He
    as [(<- & [= <-] & _) | (Hne & Hl)].
  - unfold entry_wf. simpl.
    destruct (len =? LEN_PATH_PREFIX_IGNORED) eqn:E; simpl.
    + left. by apply Z.eqb_eq.
    + apply Z.eqb_neq in E. right.
      destruct Hlen as [? | ->]; [done |].
      destruct Hval as [? | Hval]; [done |]. split; [done | lia].
  - apply Hwf. exists i. split; [| done].
    rewrite Hc in Hi. destruct (ix =? s_vfs_count st)%nat eqn:E; [| done].
    apply Nat.eqb_eq in E. lia.
Qed.

Lemma pico_vfs_register_ok st base_path vops ctx ok :
  registry_ok st →
  registry_ok (pico_vfs_register PICO_VFS_BASE_PATH_MAX st base_path vops
                 ctx ok).1.
Proof.
  intros Hok. unfold pico_vfs_register.
  destruct (pico_vfs_register_common _ _ _ _ _ _ _ _)
    as [[st1 r] ix] eqn:Hreg.
  pose proof (register_common_ok _ _ _ _ _ _ _ _ _ _ Hok Hreg) as Hok1.
  by destruct (r <? 0).
Qed.

Lemma pico_vfs_register_wf st base_path vops ctx ok :
  registry_ok st → registry_wf st →
  registry_wf (pico_vfs_register PICO_VFS_BASE_PATH_MAX st base_path vops
                 ctx ok).1.
Proof.
  intros Hok Hwf. unfold pico_vfs_register.
  destruct (pico_vfs_register_common _ _ _ _ _ _ _ _)
    as [[st1 r] ix] eqn:Hreg.
  pose proof (register_common_wf _ _ _ _ _ _ _ _ _ _ Hok Hwf
                (or_intror eq_refl) Hreg) as Hwf1.
  by destruct (r <? 0).
Qed.

Lemma boot_state_ok : registry_ok boot_state.
Proof.
  unfold registry_ok. simpl. split_and!; [done | lia | | done].
  intros i e Hl. by destruct i as [|[|[|[|i]]]].
Qed.

Lemma boot_state_wf : registry_wf boot_state.
Proof. intros e (i & Hi & _). simpl in Hi. lia. Qed.

Lemma pico_vfs_init_ok ok :
  registry_ok (pico_vfs_init PICO_VFS_BASE_PATH_MAX ok).1.
Proof.
  unfold pico_vfs_init.
  destruct (pico_vfs_register_common _ _ _ _ _ _ _ _)
    as [[st1 r] ix] eqn:Hreg.
  pose proof (register_common_ok _ _ _ _ _ _ _ _ _ _ boot_state_ok Hreg).
  by destruct (r <? 0).
Qed.

Lemma pico_vfs_init_wf ok :
  registry_wf (pico_vfs_init PICO_VFS_BASE_PATH_MAX ok).1.
Proof.
  unfold pico_vfs_init.
  destruct (pico_vfs_register_common _ _ _ _ _ _ _ _)
    as [[st1 r] ix] eqn:Hreg.
  pose proof (register_common_wf _ _ _ _ _ _ _ _ _ _ boot_state_ok
                boot_state_wf (or_intror eq_refl) Hreg).
  by destruct (r <? 0).
Qed.
End RegistrationFacts.

Lemma sample_base_path_max_fits : sample_base_path_max < 2 ^ 31.
Proof. reflexivity. Qed.

Lemma st_dev_uart_ok : registry_ok st_dev_uart.
Proof. repeat apply pico_vfs_register_ok. apply pico_vfs_init_ok. Qed.

Lemma st_dev_uart_wf : registry_wf st_dev_uart.
Proof.
  pose proof sample_base_path_max_fits as Hfit.
  apply pico_vfs_register_wf; [done | | ].
  - apply pico_vfs_register_ok, pico_vfs_init_ok.
  - apply pico_vfs_register_wf; [done | apply pico_vfs_init_ok |].
    by apply pico_vfs_init_wf.
Qed.

(** The theorem at the registry holding the root backend, [/dev] and
    [/dev/uart], for the path [/dev/uart/1]. *)
Lemma path_resolution_longest_prefix_witness :
  registry_wf st_dev_uart
  ∧ match pico_vfs_get_vfs_entry_for_path st_dev_uart (cstr "/dev/uart/1") with
    | Some e =>
      occupied st_dev_uart e ∧ path_matches (cstr "/dev/uart/1") e
      ∧ ∀ e', occupied st_dev_uart e' →
              path_matches (cstr "/dev/uart/1") e' →
              (length (path_prefix e') ≤ length (path_prefix e))%nat
    | None =>
      ∀ e', occupied st_dev_uart e' → ¬ path_matches (cstr "/dev/uart/1") e'
    end.
Proof.
  split; [exact st_dev_uart_wf |].
  apply (path_resolution_longest_prefix st_dev_uart (cstr "/dev/uart/1")).
  exact st_dev_uart_wf.
Defined.

(** The boundary cases named by the specification. *)
Example resolve_dev_x :
  path_prefix <$> pico_vfs_get_vfs_entry_for_path st_dev_uart (cstr "/dev/x")
  = Some (cstr "/dev").
Proof. reflexivity. Qed.

Example resolve_devices :
  path_prefix <$> pico_vfs_get_vfs_entry_for_path st_dev_uart (cstr "/devices")
  = Some [].
Proof. reflexivity. Qed.

Example resolve_dev_uart_1 :
  path_prefix <$>
    pico_vfs_get_vfs_entry_for_path st_dev_uart (cstr "/dev/uart/1")
  = Some (cstr "/dev/uart").
Proof. reflexivity. Qed.

Example resolve_nothing :
  pico_vfs_get_vfs_entry_for_path boot_state (cstr "/dev/x") = None.
Proof. reflexivity. Qed.

(** ** Registration and its notification *)

(** Whatever [pico_vfs_register_common] returns, [pico_vfs_register] goes on
    to the notification: the codes it tests with [r < 0] are positive. *)
Lemma pico_vfs_register_outcome M st base_path vops ctx ok st1 r ix :
  registry_ok st →
  pico_vfs_register_common M st base_path (strlen base_path) vops ctx ok (-1)
    = (st1, r, ix) →
  pico_vfs_register M st base_path vops ctx ok
    = (emit (EvRegister base_path) st1, if r =? 0 then ix else -1)
  ∧ (r = 0 → 0 ≤ ix).
Proof.
  intros Hok Hreg. unfold pico_vfs_register. rewrite Hreg.
  destruct (register_common_shape _ _ _ _ _ _ _ _ _ _ _ Hok Hreg)
    as [(Hr & Hpos & -> & ->) | (j & -> & -> & _)].
  - destruct (r <? 0) eqn:E; [apply Z.ltb_lt in E; lia |].
    apply Z.eqb_neq in Hr. rewrite Hr. split; [done | lia].
  - simpl. split; [done | lia].
Qed.

(** C2, the defect. Each failure of [pico_vfs_register] (a prefix of one
    character, a failed allocation, a full registry) leaves the registry
    as it was and returns -1, yet the registration notification is emitted
    with the rejected base path. *)
Theorem pico_vfs_register_failure_still_notifies :
  (let '(st', r) := pico_vfs_register sample_base_path_max st_root (cstr "x")
                      (sample_ops 0 7 0) 0 true in
   r = -1 ∧ s_vfs_count st' = s_vfs_count st_root
   ∧ events st' = events st_root ++ [EvRegister (cstr "x")])
  ∧ (let '(st', r) := pico_vfs_register sample_base_path_max st_root
                        (cstr "/a") (sample_ops 0 7 0) 0 false in
     r = -1 ∧ s_vfs_count st' = s_vfs_count st_root
     ∧ events st' = events st_root ++ [EvRegister (cstr "/a")])
  ∧ (let '(st', r) := pico_vfs_register sample_base_path_max st_full
                        (cstr "/a") (sample_ops 0 7 0) 0 true in
     r = -1 ∧ s_vfs_count st' = s_vfs_count st_full
     ∧ events st' = events st_full ++ [EvRegister (cstr "/a")]).
Proof. split_and!; vm_compute; split_and!; reflexivity. Qed.

(** The code [pico_vfs_register] tests with [r < 0] on that input. *)
Example register_common_invalid_prefix :
  (pico_vfs_register_common sample_base_path_max st_root (cstr "x") 1
     (sample_ops 0 7 0) 0 true (-1)).1.2 = EINVAL.
Proof. reflexivity. Qed.

(** ** The root directory backend *)

Lemma to_ushort_small n : 0 ≤ n < 65536 → to_ushort n = n.
Proof. intros Hn. unfold to_ushort. by apply Z.mod_small. Qed.

(** C8, as the code has it. [telldir] returns [d_off]; [seekdir(loc)] stores
    [loc] when [0 <= loc < VFS_MAX_COUNT] and leaves the handle as it is for
    every other [loc]. *)
Theorem root_telldir_seekdir (d : pico_vfs_internal_dir_t) (loc : Z) :
  pico_vfs_root_telldir d = d_off d
  ∧ (0 ≤ loc < VFS_MAX_COUNT → d_off (pico_vfs_root_seekdir d loc) = loc)
  ∧ (loc < 0 ∨ VFS_MAX_COUNT ≤ loc → pico_vfs_root_seekdir d loc = d).
Proof.
  unfold pico_vfs_root_telldir, pico_vfs_root_seekdir, VFS_MAX_COUNT.
  split_and!; [done | |].
  - intros Hloc.
    destruct (loc >=? 0) eqn:E1; [| rewrite Z.geb_leb in E1; lia].
    destruct (loc <? 4) eqn:E2; [| lia]. simpl.
    apply to_ushort_small. lia.
  - intros Hloc. rewrite Z.geb_leb.
    destruct (0 <=? loc) eqn:E1; [| done].
    destruct (loc <? 4) eqn:E2; [lia | done].
Qed.

Lemma root_telldir_seekdir_witness :
  pico_vfs_root_telldir dir_at_last_slot = d_off dir_at_last_slot
  ∧ d_off (pico_vfs_root_seekdir dir_at_last_slot 2) = 2
  ∧ pico_vfs_root_seekdir dir_at_last_slot 10 = dir_at_last_slot
  ∧ pico_vfs_root_seekdir dir_at_last_slot (-1) = dir_at_last_slot.
Proof.
  split_and!.
  - apply (root_telldir_seekdir dir_at_last_slot 0).
  - apply (root_telldir_seekdir dir_at_last_slot 2). unfold VFS_MAX_COUNT. lia.
  - apply (root_telldir_seekdir dir_at_last_slot 10). unfold VFS_MAX_COUNT.
    lia.
  - apply (root_telldir_seekdir dir_at_last_slot (-1)). lia.
Defined.

(** Clamping is not what happens: from position 1, [seekdir(10)]
    leaves the handle at 1, and [seekdir(-5)] does too, where clamping
    gives 3 and 0. *)
Lemma root_seekdir_does_not_clamp :
  d_off (pico_vfs_root_seekdir {| d_vfs_index := 0; d_off := 1 |} 10)
    ≠ spec_clamped_loc 10
  ∧ d_off (pico_vfs_root_seekdir {| d_vfs_index := 0; d_off := 1 |} (-5))
    ≠ spec_clamped_loc (-5).
Proof. split; discriminate. Qed.

Lemma root_readdir_scan_bound slots : ∀ (fuel : nat) (c c' : Z) v,
  0 ≤ c < VFS_MAX_COUNT →
  root_readdir_scan fuel slots c = Ok (Some v, c') →
  c ≤ c' < VFS_MAX_COUNT.
Proof.
  induction fuel as [| fuel IH]; intros c c' v Hc; simpl; [done |].
  destruct (zlookup slots c) as [slot|]; [| done].
  destruct (match slot with None => true | Some _ => _ end).
  - destruct (c + 1 <? VFS_MAX_COUNT) eqn:E; [| done].
    apply Z.ltb_lt in E. intros Hs. apply IH in Hs; lia.
  - intros [= -> <-]. lia.
Qed.

Lemma root_handle_reachable_range d :
  root_handle_reachable d → 0 ≤ d_off d ≤ VFS_MAX_COUNT.
Proof.
  induction 1 as [st st' name ok d Hopen | d ix _ IH
                 | M st d d' ent _ IH Hrd | d loc _ IH].
  - unfold pico_vfs_root_opendir in Hopen.
    destruct name as [[| c0 rest] |]; try done.
    destruct (_ && _); [| done]. destruct ok; [| done].
    injection Hopen as _ <-. simpl. unfold VFS_MAX_COUNT. lia.
  - done.
  - unfold pico_vfs_root_readdir in Hrd.
    destruct (d_off d >=? VFS_MAX_COUNT) eqn:E; [by injection Hrd as <- _ |].
    rewrite Z.geb_leb in E. apply Z.leb_gt in E.
    destruct (root_readdir_scan _ _ _) as [[[v|] c] |] eqn:Hs; simpl in Hrd;
      [| by injection Hrd as <- _ | done].
    apply root_readdir_scan_bound in Hs; [| lia].
    destruct (stored_prefix_string M v) as [path|]; [| done].
    injection Hrd as <- _. simpl. unfold VFS_MAX_COUNT in *.
    rewrite to_ushort_small; lia.
  - unfold pico_vfs_root_seekdir.
    destruct (_ && _) eqn:E; [| done].
    apply andb_true_iff in E as [E1 E2]. rewrite Z.geb_leb in E1.
    apply Z.leb_le in E1. apply Z.ltb_lt in E2. simpl.
    unfold VFS_MAX_COUNT in *. rewrite to_ushort_small; lia.
Qed.

(** C9. On every handle state the root backend can produce, the offset lies
    between 0 and [VFS_MAX_COUNT] inclusive (the latter once [readdir] has
    gone past the last slot), and [seekdir(d, telldir(d))] leaves the handle
    exactly as it was. *)
Theorem root_seekdir_telldir_noop (d : pico_vfs_internal_dir_t) :
  root_handle_reachable d →
  pico_vfs_root_seekdir d (pico_vfs_root_telldir d) = d
  ∧ d_off (pico_vfs_root_seekdir d (pico_vfs_root_telldir d)) = d_off d
  ∧ 0 ≤ d_off d ≤ VFS_MAX_COUNT.
Proof.
  intros Hd. pose proof (root_handle_reachable_range d Hd) as Hr.
  assert (Heq : pico_vfs_root_seekdir d (pico_vfs_root_telldir d) = d).
  { unfold pico_vfs_root_seekdir, pico_vfs_root_telldir.
    destruct (_ && _); [| done].
    rewrite to_ushort_small; [by destruct d |].
    unfold VFS_MAX_COUNT in Hr. lia. }
  by rewrite Heq.
Qed.

Lemma dir_past_end_reachable : root_handle_reachable dir_past_end.
Proof.
  apply (reach_readdir sample_base_path_max st_full dir_at_last_slot
           dir_past_end (Some {| d_type := DT_DIR; d_name := cstr "sd" |}));
    [| done].
  apply reach_seekdir.
  by apply (reach_opendir boot_state boot_state (Some (cstr "/")) true).
Qed.

Lemma root_seekdir_telldir_noop_witness :
  root_handle_reachable dir_past_end
  ∧ pico_vfs_root_seekdir dir_past_end (pico_vfs_root_telldir dir_past_end)
    = dir_past_end
  ∧ d_off (pico_vfs_root_seekdir dir_past_end
             (pico_vfs_root_telldir dir_past_end)) = d_off dir_past_end
  ∧ 0 ≤ d_off dir_past_end ≤ VFS_MAX_COUNT.
Proof.
  split; [exact dir_past_end_reachable |].
  apply (root_seekdir_telldir_noop dir_past_end).
  exact dir_past_end_reachable.
Defined.

(** ** Reserving a descriptor range *)

(** C10, the defect. The argument check of [pico_vfs_register_fd_range]
    lets [min_fd = max_fd = MAX_FDS] through, and the reservation loop then
    indexes [s_fd_table[MAX_FDS]], one row past the end of the table; with
    [min_fd = MAX_FDS - 1] the last row is written first and the same
    access follows. *)
Theorem register_fd_range_reaches_row_MAX_FDS :
  fd_range_rejected MAX_FDS MAX_FDS = false
  ∧ pico_vfs_register_fd_range sample_base_path_max st_root
      (sample_ops 0 0 0) 0 MAX_FDS MAX_FDS true
    = Fault (OutOfBounds MAX_FDS)
  ∧ fd_range_rejected (MAX_FDS - 1) MAX_FDS = false
  ∧ pico_vfs_register_fd_range sample_base_path_max st_root
      (sample_ops 0 0 0) 0 (MAX_FDS - 1) MAX_FDS true
    = Fault (OutOfBounds MAX_FDS).
Proof. split_and!; reflexivity. Qed.

(** What the check does establish: an accepted range lies in
    [0 .. MAX_FDS], both ends included. *)
Lemma fd_range_accepted min_fd max_fd :
  fd_range_rejected min_fd max_fd = false ↔
  0 ≤ min_fd ∧ min_fd ≤ max_fd ∧ max_fd ≤ MAX_FDS.
Proof.
  unfold fd_range_rejected, MAX_FDS.
  rewrite !orb_false_iff, !Z.gtb_ltb, !Z.ltb_ge. lia.
Qed.

(** ** Opening a file *)

Lemma path_scan_picks_scanned p rest : ∀ acc b,
  best_match (fold_left (path_scan_step p) rest acc) = Some b →
  best_match acc = Some b ∨ Some b ∈ rest.
Proof.
  induction rest as [| slot rest IH]; intros acc b; simpl; [by left |].
  intros [Hb | Hb]%IH; [| right; by right].
  unfold path_scan_step in Hb.
  destruct slot as [e|]; [| by left].
  repeat (match type of Hb with
          | context [if ?c then _ else _] => destruct c
          end); simpl in Hb; try (by left);
    injection Hb as ->; right; by left.
Qed.

Lemma path_scan_prefix_agrees p rest : ∀ acc,
  (∀ b, best_match acc = Some b →
        memcmp_eq p (path_prefix b) (path_prefix_len b) = true) →
  ∀ b, best_match (fold_left (path_scan_step p) rest acc) = Some b →
       memcmp_eq p (path_prefix b) (path_prefix_len b) = true.
Proof.
  induction rest as [| slot rest IH]; intros acc Hacc; simpl; [done |].
  apply IH. intros b. unfold path_scan_step.
  destruct slot as [e|]; [| by apply Hacc].
  destruct (path_prefix_len e =? LEN_PATH_PREFIX_IGNORED); [by apply Hacc |].
  destruct (_ || negb (memcmp_eq _ _ _)) eqn:Hpre; [by apply Hacc |].
  apply orb_false_iff in Hpre as [_ Hpre]. apply negb_false_iff in Hpre.
  repeat (match goal with
          | |- context [if ?c then _ else _] => destruct c
          end); simpl; try (by apply Hacc); by intros [= <-].
Qed.

(** The assertion of [translate_path] holds for the entry path resolution
    returns, the only way [pico_vfs_open], [pico_vfs_stat] and
    [pico_vfs_opendir] call it. *)
Lemma translate_path_assertion st p e :
  pico_vfs_get_vfs_entry_for_path st p = Some e →
  memcmp_eq p (path_prefix e) (path_prefix_len e) = true.
Proof.
  unfold pico_vfs_get_vfs_entry_for_path.
  by apply path_scan_prefix_agrees.
Qed.

Lemma path_resolution_occupied st p e :
  pico_vfs_get_vfs_entry_for_path st p = Some e → occupied st e.
Proof.
  unfold pico_vfs_get_vfs_entry_for_path.
  intros [Hb | Hb]%path_scan_picks_scanned; [done |].
  by apply occupied_scanned.
Qed.

Lemma occupied_index st e :
  registry_ok st → occupied st e →
  (index e < s_vfs_count st)%nat ∧ Z.of_nat (index e) < VFS_MAX_COUNT
  ∧ s_vfs st !! index e = Some (Some e).
Proof.
  intros (Hslots & Hcount & Hidx & _) (i & Hi & He).
  rewrite (Hidx i e He). split_and!; [done | | done].
  unfold VFS_MAX_COUNT in *. lia.
Qed.

Lemma to_int8_small n : -128 ≤ n < 128 → to_int8 n = n.
Proof. intros Hn. unfold to_int8. rewrite Z.mod_small; lia. Qed.

Lemma first_unused_row_spec (rows : list pico_vfs_fd_table_t) : ∀ k : Z,
  match first_unused_row rows k with
  | Some i =>
    ∃ j : nat, i = k + Z.of_nat j ∧ row_free rows j
               ∧ ∀ j' : nat, (j' < j)%nat → ¬ row_free rows j'
  | None => ∀ j : nat, ¬ row_free rows j
  end.
Proof.
  induction rows as [| row rows IH]; intros k; simpl.
  - intros j (r & Hr & _). by destruct j.
  - destruct (vfs_index row =? -1) eqn:E.
    + apply Z.eqb_eq in E. exists 0%nat. split_and!; [lia | by exists row |].
      intros j' Hj'. lia.
    + apply Z.eqb_neq in E. specialize (IH (k + 1)).
      destruct (first_unused_row rows (k + 1)) as [i|].
      * destruct IH as (j & -> & Hfree & Hlow). exists (S j).
        split_and!; [lia | done |].
        intros [| j'] Hj'; [by intros (r & [= <-] & Hr) |].
        apply Hlow. lia.
      * intros [| j]; [by intros (r & [= <-] & Hr) | apply IH].
Qed.


Lemma st_dev_ok : registry_ok st_dev.
Proof. apply pico_vfs_register_ok, pico_vfs_init_ok. Qed.





(** The same call with a free table takes row 0. *)
Example open_takes_row_0 :
  (pico_vfs_open st_dev (cstr "/dev/x") 0 0).2 = 0
  ∧ s_fd_table st_opened !! 0%nat
    = Some {| vfs_index := 1; local_fd := 7; permanent := false |}.
Proof. split; reflexivity. Qed.

(** Success of the backend is status 0, the test [pico_vfs_open] makes.
    A positive status is handed back as it is: no row is reserved and the
    error channel is not written. *)
Example open_positive_status_passes_through :
  let st := fst (pico_vfs_register sample_base_path_max st_root (cstr "/p")
                   (sample_ops 5 7 0) 0 true) in
  (pico_vfs_open st (cstr "/p/x") 0 0).2 = 5
  ∧ s_fd_table (pico_vfs_open st (cstr "/p/x") 0 0).1 = s_fd_table st
  ∧ errno (pico_vfs_open st (cstr "/p/x") 0 0).1 = errno st.
Proof. split_and!; reflexivity. Qed.

(** ** The descriptor-table invariant *)

Lemma row_ok_ext st st' row :
  s_vfs st' = s_vfs st → s_vfs_count st' = s_vfs_count st →
  row_ok st row → row_ok st' row.
Proof.
  unfold row_ok, pico_vfs_get_vfs_entry_for_index. by intros -> ->.
Qed.

Lemma fd_table_inv_ext st st' :
  s_vfs st' = s_vfs st → s_vfs_count st' = s_vfs_count st →
  Forall (row_ok st) (s_fd_table st') → fd_table_inv st'.
Proof.
  intros Hs Hc Hrows. unfold fd_table_inv.
  eapply Forall_impl; [exact Hrows |]. intros row. by apply row_ok_ext.
Qed.

Lemma row_ok_occupied st e lfd perm :
  registry_ok st → occupied st e →
  row_ok st {| vfs_index := to_int8 (Z.of_nat (index e)); local_fd := lfd;
               permanent := perm |}.
Proof.
  intros Hok Hocc. destruct (occupied_index _ _ Hok Hocc) as (Hc & Hix & Hl).
  right. simpl. unfold VFS_MAX_COUNT in Hix. rewrite to_int8_small by lia.
  unfold pico_vfs_get_vfs_entry_for_index.
  destruct (Z.of_nat (index e) <? 0) eqn:E1; [apply Z.ltb_lt in E1; lia |].
  destruct (Z.of_nat (index e) >=? Z.of_nat (s_vfs_count st)) eqn:E2.
  { rewrite Z.geb_leb in E2. apply Z.leb_le in E2. lia. }
  simpl. rewrite Nat2Z.id, Hl. by eexists.
Qed.

Lemma pico_vfs_open_shape st path flags mode :
  let st' := (pico_vfs_open st path flags mode).1 in
  s_vfs st' = s_vfs st ∧ s_vfs_count st' = s_vfs_count st
  ∧ (s_fd_table st' = s_fd_table st
     ∨ ∃ (fd : nat) vfs lfd,
         pico_vfs_get_vfs_entry_for_path st path = Some vfs
         ∧ s_fd_table st' =
             <[fd := {| vfs_index := to_int8 (Z.of_nat (index vfs));
                        local_fd := lfd; permanent := false |}]>
               (s_fd_table st)).
Proof.
  unfold pico_vfs_open, vfscall_close.
  destruct (pico_vfs_get_vfs_entry_for_path st path) as [vfs|]; [| by auto].
  destruct (op_open (ops vfs)) as [open|]; [| by auto].
  destruct (open _ _ _ _) as [ret lfd].
  destruct (ret =? 0) eqn:Hret; [| by destruct (ret <? 0); auto].
  apply Z.eqb_eq in Hret as ->. simpl.
  destruct (first_unused_row _ _) as [i|]; simpl.
  - split_and!; [done | done |]. right. by exists (Z.to_nat i), vfs, lfd.
  - destruct (op_close (ops vfs)) as [close|]; [| by auto].
    by destruct (close _ _ <? 0); auto.
Qed.

Lemma pico_vfs_close_shape st fd :
  let st' := (pico_vfs_close st fd).1 in
  s_vfs st' = s_vfs st ∧ s_vfs_count st' = s_vfs_count st
  ∧ (s_fd_table st' = s_fd_table st
     ∨ ∃ i : nat,
         s_fd_table st' = <[i := FD_TABLE_ENTRY_UNUSED]> (s_fd_table st)).
Proof.
  unfold pico_vfs_close, vfscall_close.
  destruct (pico_vfs_get_vfs_for_fd st fd) as [vfs|]; [| by auto].
  destruct (pico_vfs_local_fd _ _ _ =? -1); [by auto |].
  destruct (op_close (ops vfs)) as [close|]; [| by auto].
  destruct (close _ _ =? 0) eqn:Hret.
  - apply Z.eqb_eq in Hret. rewrite Hret. simpl.
    destruct (zlookup (s_fd_table st) fd) as [row|]; [| by auto].
    destruct (permanent row); simpl; [by auto |].
    split_and!; [done | done |]. right. by exists (Z.to_nat fd).
  - by destruct (close _ _ <? 0); auto.
Qed.

Lemma fd_range_rollback_ok st n : ∀ ix j tbl tbl',
  Forall (row_ok st) tbl →
  fd_range_rollback n ix j tbl = Ok tbl' →
  Forall (row_ok st) tbl'.
Proof.
  induction n as [| n IH]; intros ix j tbl tbl' Htbl; simpl.
  - by intros [= <-].
  - destruct (zlookup tbl j) as [row|]; [| done].
    apply IH. destruct (vfs_index row =? ix); [| done].
    apply Forall_insert; [done | by left].
Qed.

Lemma fd_range_loop_ok st n : ∀ ix min_fd i tbl tbl' r,
  Forall (row_ok st) tbl →
  is_Some (pico_vfs_get_vfs_entry_for_index st (to_int8 ix)) →
  fd_range_loop n ix min_fd i tbl = Ok (tbl', r) →
  Forall (row_ok st) tbl'.
Proof.
  induction n as [| n IH]; intros ix min_fd i tbl tbl' r Htbl Hix; simpl.
  - by intros [= <- _].
  - destruct (zlookup tbl i) as [row|]; [| done].
    destruct (negb (vfs_index row =? -1)).
    + destruct (fd_range_rollback _ _ _ _) as [tbl1|] eqn:Hrb; [| done].
      simpl. intros [= <- _]. by eapply fd_range_rollback_ok.
    + apply IH; [| done]. apply Forall_insert; [done | by right].
Qed.

Lemma pico_vfs_register_fd_range_inv M st vops ctx min_fd max_fd ok st' r :
  registry_ok st → fd_table_inv st →
  pico_vfs_register_fd_range M st vops ctx min_fd max_fd ok = Ok (st', r) →
  fd_table_inv st'.
Proof.
  intros Hok Hinv. unfold pico_vfs_register_fd_range.
  destruct (fd_range_rejected min_fd max_fd); [by intros [= <- _] |].
  destruct (pico_vfs_register_common _ _ _ _ _ _ _ _)
    as [[st1 ret] ix] eqn:Hreg.
  destruct (register_common_shape _ _ _ _ _ _ _ _ _ _ _ Hok Hreg)
    as [(Hr & _ & -> & _) | (j & -> & -> & Hj & Hle & _ & Hc & Ht & _ & _
                              & _ & Hs)].
  { apply Z.eqb_neq in Hr. rewrite Hr. by intros [= <- _]. }
  simpl. unfold pico_vfs_register_fd_range_for_vfs_index.
  destruct (fd_range_loop _ _ _ _ _) as [[tbl r2] |] eqn:Hloop; [| done].
  simpl. intros [= <- _].
  assert (Hcount : (j < s_vfs_count st1)%nat).
  { rewrite Hc. destruct (j =? s_vfs_count st)%nat eqn:E; [lia |].
    apply Nat.eqb_neq in E. lia. }
  assert (Hnew : is_Some (pico_vfs_get_vfs_entry_for_index st1
                            (to_int8 (Z.of_nat j)))).
  { destruct Hok as (Hslots & _). unfold VFS_MAX_COUNT in Hslots.
    rewrite to_int8_small by lia. unfold pico_vfs_get_vfs_entry_for_index.
    destruct (Z.of_nat j <? 0) eqn:E1; [apply Z.ltb_lt in E1; lia |].
    destruct (Z.of_nat j >=? Z.of_nat (s_vfs_count st1)) eqn:E2.
    { rewrite Z.geb_leb in E2. apply Z.leb_le in E2. lia. }
    simpl. rewrite Nat2Z.id, Hs, list_lookup_insert_eq by done.
    by eexists. }
  apply (fd_table_inv_ext st1); [done | done |]. simpl.
  eapply fd_range_loop_ok; [| exact Hnew | exact Hloop].
  rewrite Ht. eapply Forall_impl; [exact Hinv |].
  intros row [Hfree | [e He]]; [by left | right].
  unfold pico_vfs_get_vfs_entry_for_index in *.
  destruct (vfs_index row <? 0) eqn:E1; [done |].
  destruct (vfs_index row >=? Z.of_nat (s_vfs_count st)) eqn:E2; [done |].
  rewrite Z.geb_leb in E2. apply Z.leb_gt in E2.
  destruct (vfs_index row >=? Z.of_nat (s_vfs_count st1)) eqn:E3.
  { rewrite Z.geb_leb in E3. apply Z.leb_le in E3. rewrite Hc in E3.
    destruct (j =? s_vfs_count st)%nat; lia. }
  simpl in *. rewrite Hs.
  destruct (decide (j = Z.to_nat (vfs_index row))) as [<- | Hne].
  - rewrite list_lookup_insert_eq by done. by eexists.
  - rewrite list_lookup_insert_ne by done. by exists e.
Qed.

Lemma pico_vfs_unregister_shape M st ix st' r :
  pico_vfs_unregister M st ix = Ok (st', r) →
  s_fd_table st' = s_fd_table st
  ∧ s_vfs_count st' = s_vfs_count st
  ∧ pico_vfs_get_vfs_entry_for_index st' ix = None
  ∧ ∀ j, j ≠ ix →
         pico_vfs_get_vfs_entry_for_index st' j
         = pico_vfs_get_vfs_entry_for_index st j.
Proof.
  unfold pico_vfs_unregister, zlookup, pico_vfs_get_vfs_entry_for_index.
  destruct (ix <? 0) eqn:E; [done |]. apply Z.ltb_ge in E.
  destruct (s_vfs st !! Z.to_nat ix) as [[vfs|] |] eqn:Hl; [| | done].
  - destruct (stored_prefix_string M vfs) as [path|]; [| done].
    intros [= <- _]. simpl.
    split_and!; [done | done | |].
    + destruct (ix >=? _); [done |].
      rewrite list_lookup_insert_eq; [done |]. by eapply lookup_lt_Some.
    + intros j Hj. destruct ((j <? 0) || _) eqn:Ej; [done |].
      rewrite list_lookup_insert_ne; [done |].
      apply orb_false_iff in Ej as [Ej _]. apply Z.ltb_ge in Ej. lia.
  - intros [= <- _]. split_and!; [done | done | | done].
    rewrite Hl. by destruct (ix >=? _).
Qed.

Lemma pico_vfs_open_inv st path flags mode :
  registry_ok st → fd_table_inv st →
  fd_table_inv (pico_vfs_open st path flags mode).1.
Proof.
  intros Hok Hinv.
  destruct (pico_vfs_open_shape st path flags mode)
    as (Hs & Hc & [Ht | (fd & vfs & lfd & Hres & Ht)]);
    apply (fd_table_inv_ext st); try done; rewrite Ht; [done |].
  apply Forall_insert; [done |].
  apply row_ok_occupied; [done |]. by eapply path_resolution_occupied.
Qed.

Lemma pico_vfs_close_inv st fd :
  fd_table_inv st → fd_table_inv (pico_vfs_close st fd).1.
Proof.
  intros Hinv.
  destruct (pico_vfs_close_shape st fd) as (Hs & Hc & [Ht | (i & Ht)]);
    apply (fd_table_inv_ext st); try done; rewrite Ht; [done |].
  apply Forall_insert; [done | by left].
Qed.

(** C3, as the code has it. [open], [close] and [register_fd_range] keep
    every row free or bound to a registered backend. [pico_vfs_unregister]
    does not touch the descriptor table: rows that carry the unregistered
    index stay as they are, the index resolves to no backend, so
    descriptor lookup on such a row finds none and [close] on it fails with
    [EBADF]; the other indices resolve as before. *)
Theorem fd_table_invariant (st : vfs_state) :
  registry_ok st → fd_table_inv st →
  (∀ path flags mode, fd_table_inv (pico_vfs_open st path flags mode).1)
  ∧ (∀ fd, fd_table_inv (pico_vfs_close st fd).1)
  ∧ (∀ M vops ctx min_fd max_fd ok st' r,
       pico_vfs_register_fd_range M st vops ctx min_fd max_fd ok
         = Ok (st', r) →
       fd_table_inv st')
  ∧ (∀ M ix st' r,
       pico_vfs_unregister M st ix = Ok (st', r) →
       s_fd_table st' = s_fd_table st
       ∧ pico_vfs_get_vfs_entry_for_index st' ix = None
       ∧ (∀ j, j ≠ ix →
               pico_vfs_get_vfs_entry_for_index st' j
               = pico_vfs_get_vfs_entry_for_index st j)
       ∧ ∀ fd row,
           zlookup (s_fd_table st') fd = Some row → vfs_index row = ix →
           pico_vfs_get_vfs_for_fd st' fd = None
           ∧ (pico_vfs_close st' fd).2 = -1
           ∧ errno (pico_vfs_close st' fd).1 = EBADF).
Proof.
  intros Hok Hinv. split_and!.
  - intros. by apply pico_vfs_open_inv.
  - intros. by apply pico_vfs_close_inv.
  - intros. by eapply pico_vfs_register_fd_range_inv.
  - intros M ix st' r Hun.
    destruct (pico_vfs_unregister_shape _ _ _ _ _ Hun)
      as (Ht & _ & Hix & Hj).
    split_and!; [done | done | done |].
    intros fd row Hrow <-.
    assert (Hnone : pico_vfs_get_vfs_for_fd st' fd = None).
    { unfold pico_vfs_get_vfs_for_fd. rewrite Hrow, Hix.
      by destruct (pico_vfs_valid_fd fd). }
    unfold pico_vfs_close. by rewrite Hnone.
Qed.

Lemma st_dev_inv : fd_table_inv st_dev.
Proof.
  unfold fd_table_inv. apply Forall_forall. intros row Hrow.
  apply list_elem_of_lookup in Hrow as [i Hi].
  change (s_fd_table st_dev) with (s_fd_table boot_state) in Hi.
  unfold boot_state in Hi. cbn [s_fd_table] in Hi.
  apply lookup_replicate in Hi as [-> _]. by left.
Qed.

Lemma st_opened_ok : registry_ok st_opened.
Proof.
  destruct st_dev_ok as (H1 & H2 & H3 & H4).
  destruct (pico_vfs_open_shape st_dev (cstr "/dev/x") 0 0)
    as (Hs & Hc & _).
  unfold st_opened, registry_ok. rewrite Hs, Hc. by split_and!.
Qed.

Lemma st_opened_inv : fd_table_inv st_opened.
Proof. apply pico_vfs_open_inv; [apply st_dev_ok | apply st_dev_inv]. Qed.

(** The theorem on the state with [/dev/x] open on backend 1, which is then
    unregistered. *)
Lemma fd_table_invariant_witness :
  registry_ok st_opened ∧ fd_table_inv st_opened
  ∧ fd_table_inv (pico_vfs_open st_opened (cstr "/dev/y") 0 0).1
  ∧ fd_table_inv (pico_vfs_close st_opened 0).1
  ∧ ∀ st' r,
      pico_vfs_unregister sample_base_path_max st_opened 1 = Ok (st', r) →
      s_fd_table st' = s_fd_table st_opened
      ∧ pico_vfs_get_vfs_entry_for_index st' 1 = None.
Proof.
  pose proof (fd_table_invariant st_opened st_opened_ok st_opened_inv)
    as (Hopen & Hclose & _ & Hun).
  split; [exact st_opened_ok |]. split; [exact st_opened_inv |].
  split; [apply Hopen |]. split; [apply Hclose |].
  intros st' r Hst'.
  destruct (Hun sample_base_path_max 1 st' r Hst') as (Ht & Hix & _).
  by split.
Defined.

(** Unregistering does not clear rows: with [/dev/x] open on backend
    1 the invariant holds; [pico_vfs_unregister(1)] succeeds and row 0 still
    carries index 1, which no longer denotes a registered backend. *)
Lemma unregister_leaves_stale_row :
  fd_table_inv st_opened
  ∧ ∃ st', pico_vfs_unregister sample_base_path_max st_opened 1
           = Ok (st', 0)
           ∧ (vfs_index <$> s_fd_table st' !! 0%nat) = Some 1
           ∧ pico_vfs_get_vfs_entry_for_index st' 1 = None
           ∧ ¬ fd_table_inv st'.
Proof.
  split; [exact st_opened_inv |].
  eexists. split; [reflexivity |]. split; [reflexivity |].
  split; [reflexivity |].
  intros Hinv. apply Forall_forall with (x :=
    {| vfs_index := 1; local_fd := 7; permanent := false |}) in Hinv.
  - destruct Hinv as [Hfree | [e He]]; [done | discriminate He].
  - apply list_elem_of_lookup. by exists 0%nat.
Qed.

End VfsFacts.

(** * Properties of the block-device layer *)

Module BlockdevFacts.
Import Errno Blockdev.

(** ** Tearing a device tree down *)

(** C4, the defect. A disk with one partition is registered and then
    unregistered, with no reference held from outside. The root's
    destructor runs once; the partition's never runs: its reference count
    stays at 1 and the object is not freed. With two partitions neither
    partition is destroyed. *)
Theorem unregister_never_destroys_partitions :
  (∃ w1 w2,
     pico_blockdev_register 8 (fresh_disk (disk_ops s4_sector) []) disk
       = Ok (w1, 0)
     ∧ (children <$> heap w1 !! disk) = Some [part1]
     ∧ pico_blockdev_unregister 8 w1 (Some disk) = Ok w2
     ∧ destroy_count disk w2 = 1%nat
     ∧ destroy_count part1 w2 = 0%nat
     ∧ (refcnt <$> heap w2 !! part1) = Some 1
     ∧ (freed <$> heap w2 !! part1) = Some false)
  ∧ (∃ w1 w2,
       pico_blockdev_register 8
         (fresh_disk (disk_ops two_partition_sector) []) disk = Ok (w1, 0)
       ∧ (children <$> heap w1 !! disk) = Some [part2; part1]
       ∧ pico_blockdev_unregister 8 w1 (Some disk) = Ok w2
       ∧ destroy_count disk w2 = 1%nat
       ∧ destroy_count part1 w2 = 0%nat
       ∧ destroy_count part2 w2 = 0%nat).
Proof.
  split.
  - eexists _, _. split; [vm_compute; reflexivity |].
    split_and!; vm_compute; reflexivity.
  - eexists _, _. split; [vm_compute; reflexivity |].
    split_and!; vm_compute; reflexivity.
Qed.

(** ** The partition scan *)

(** C7, the defect. When the [malloc] of the partition object fails, the
    scan writes through the NULL pointer in [pico_blockdev_init]; nothing
    is logged and no further entry is looked at. (A failure of
    [pico_blockdev_add_child] is handled as specified: with the link
    allocation failing for entry 0, the error is logged and entry 2 still
    becomes a child.) *)
Theorem scan_child_allocation_failure :
  pico_blockdev_register 8
    (fresh_disk (disk_ops two_partition_sector) [false]) disk
  = Fault NullDeref
  ∧ ∃ w,
      pico_blockdev_register 8
        (fresh_disk (disk_ops two_partition_sector) [true; false]) disk
      = Ok (w, 0)
      ∧ log w = [BdDebug; BdError (- ENOMEM); BdInfo 1024 2048;
                 BdRegister part2; BdRegister disk]
      ∧ (children <$> heap w !! disk) = Some [part2].
Proof.
  split; [vm_compute; reflexivity |].
  eexists. split; [vm_compute; reflexivity |].
  split; vm_compute; reflexivity.
Qed.

Lemma u8_range b : 0 ≤ u8 b < 256.
Proof. unfold u8. pose proof (Byte.to_N_bounded b) as H. lia. Qed.

Lemma lor_shiftl_add (a b k : Z) :
  0 ≤ k → 0 ≤ a < 2 ^ k → 0 ≤ b → Z.lor a (Z.shiftl b k) = a + b * 2 ^ k.
Proof.
  intros Hk Ha Hb. rewrite Z.shiftl_mul_pow2 by done.
  symmetry. apply Z.add_nocarry_lor.
  apply Z.bits_inj'. intros n Hn. rewrite Z.land_spec, Z.bits_0.
  destruct (Z.lt_ge_cases n k) as [Hlt | Hge].
  - rewrite Z.mul_pow2_bits_low by done. apply andb_false_r.
  - destruct (Z.eq_dec a 0) as [-> | Hne]; [by rewrite Z.bits_0 |].
    rewrite (Z.bits_above_log2 a n); [done | lia |].
    apply Z.log2_lt_pow2; [lia |].
    eapply Z.lt_le_trans; [apply Ha |]. apply Z.pow_le_mono_r; lia.
Qed.

(** The shifts and ors of [pico_blockdev_extractle32] assemble the
    little-endian value. *)
Lemma pico_blockdev_extractle32_value (bs : list byte) :
  pico_blockdev_extractle32 bs = le32_value bs.
Proof.
  unfold pico_blockdev_extractle32, le32_value.
  pose proof (u8_range (byte_at bs 0)). pose proof (u8_range (byte_at bs 1)).
  pose proof (u8_range (byte_at bs 2)). pose proof (u8_range (byte_at bs 3)).
  rewrite (lor_shiftl_add _ _ 8) by lia.
  rewrite (lor_shiftl_add _ _ 16) by lia.
  rewrite (lor_shiftl_add _ _ 24) by lia.
  lia.
Qed.

Lemma two_partition_sector_is_s4 : s4_disk two_partition_sector.
Proof. unfold s4_disk. split_and!; reflexivity. Qed.

(** The conditions of S4 alone do not fix the number of children: a disk
    that meets every one of them and also has a partition in entry 2 ends
    up with two children. *)
Lemma s4_disk_with_two_children :
  s4_disk two_partition_sector
  ∧ ∃ w,
      pico_blockdev_register 8
        (fresh_disk (disk_ops two_partition_sector) []) disk = Ok (w, 0)
      ∧ (children <$> heap w !! disk) = Some [part2; part1].
Proof.
  split; [exact two_partition_sector_is_s4 |].
  eexists. split; vm_compute; reflexivity.
Qed.

Lemma byte_at_drop (l : list byte) (n i : nat) :
  byte_at (drop n l) i = byte_at l (n + i).
Proof. unfold byte_at. by rewrite !nth_lookup, lookup_drop. Qed.

(** An entry whose system indicator is zero leaves everything as it is. *)
Lemma check_empty_entry register w dev source index :
  byte_at (drop (index * sizeof_msdos_partition) source) off_sys_ind = x00 →
  pico_blockdev_check_msdos_partition register w dev source index = Ok w.
Proof. intros H. unfold pico_blockdev_check_msdos_partition. by rewrite H. Qed.

Lemma pico_blockdev_register_S fuel w dev :
  pico_blockdev_register (S fuel) w dev
  = (d ← deref w dev;
     w1 ← match parent d with
          | None =>
            pico_blockdev_scan_partitions fuel (pico_blockdev_register fuel)
              w dev
          | Some _ => Ok w
          end;
     '(w2, _) ← pico_blockdev_unref fuel (emit (BdRegister dev) w1) dev;
     Ok (w2, 0)).
Proof. reflexivity. Qed.

(** Registering a device that has a parent: no scan, the notification,
    and the caller's reference dropped. *)
Lemma register_child (fuel : nat) (w : world) (n : ptr) c q :
  heap w !! n = Some c → parent c = Some q → 1 < refcnt c →
  pico_blockdev_register (S (S fuel)) w n
  = Ok (update n (with_refcnt (refcnt c - 1)) (emit (BdRegister n) w), 0).
Proof.
  intros Hc Hp Hr. cbn [pico_blockdev_register pico_blockdev_unref].
  unfold deref. cbn [heap emit]. rewrite Hc. cbn [mbind result_bind].
  rewrite Hp. cbn [mbind result_bind]. rewrite Hc. cbn [mbind result_bind].
  destruct (refcnt c =? 0) eqn:E0; [apply Z.eqb_eq in E0; lia |].
  destruct (refcnt c - 1 =? 0) eqn:E1; [apply Z.eqb_eq in E1; lia |].
  done.
Qed.

(** A used entry on a disk without children, both allocations
    succeeding: the new object is initialised, linked below the disk, and
    handed to [pico_blockdev_register]. *)
Lemma check_first_partition register (vt : pico_blockdev_ops_t) rest lg
    source index start size :
  u8 (byte_at (drop (index * sizeof_msdos_partition) source) off_sys_ind)
    ≠ 0 →
  pico_blockdev_extractle32
    (drop off_start_sect (drop (index * sizeof_msdos_partition) source))
    = start →
  pico_blockdev_extractle32
    (drop off_nr_sects (drop (index * sizeof_msdos_partition) source))
    = size →
  pico_blockdev_check_msdos_partition register
    {| heap := [disk_rec vt]; malloc_plan := true :: true :: rest;
       log := lg |}
    disk source index
  = '(w5, _) ← register
       {| heap := [with_refcnt 2 (with_children [part1] (disk_rec vt));
                   {| refcnt := 2; ops := Some part_ops; parent := Some disk;
                      children := []; start_sector := start;
                      num_sectors := size; freed := false |}];
          malloc_plan := rest; log := lg ++ [BdInfo start size] |} part1;
    Ok w5.
Proof.
  intros Hnz Hstart Hsize. unfold pico_blockdev_check_msdos_partition.
  rewrite Hstart, Hsize. apply Z.eqb_neq in Hnz. rewrite Hnz.
  reflexivity.
Qed.

Lemma scan_s4_disk (fuel : nat) register sect rd ioc hd rest :
  s4_disk sect →
  byte_at sect 482 = x00 → byte_at sect 498 = x00 →
  rd 0 1 = (1, sect) →
  pico_blockdev_scan_partitions (S fuel) register
    {| heap := [disk_rec (driver_ops (Some rd) ioc hd)];
       malloc_plan := true :: true :: rest; log := [] |} disk
  = '(w5, _) ← register
       {| heap := [with_refcnt 2
                     (with_children [part1]
                        (disk_rec (driver_ops (Some rd) ioc hd)));
                   {| refcnt := 2; ops := Some part_ops; parent := Some disk;
                      children := []; start_sector := 2048;
                      num_sectors := 1024; freed := false |}];
          malloc_plan := rest; log := [BdDebug; BdInfo 2048 1024] |} part1;
    Ok w5.
Proof.
  intros (H510 & H511 & H450 & Hstart & Hsize & H466) H482 H498 Hrd.
  unfold pico_blockdev_scan_partitions.
  cbn [pico_blockdev_read_sector deref heap disk_rec ops disk lookup
       list_lookup mbind result_bind].
  rewrite Hrd. cbn [mbind result_bind Z.eqb Pos.eqb].
  rewrite H510, H511.
  change ((u8 x55 =? 85) && (u8 xaa =? 170)) with true.
  cbn [for_each seq]. unfold emit. cbn [heap malloc_plan log app].
  rewrite (check_first_partition _ _ _ _ _ _ 2048 1024).
  - destruct (register _ _) as [[w5 r] | f]; cbn [mbind result_bind]; [| done].
    do 3 (rewrite check_empty_entry by (by rewrite !byte_at_drop);
          cbn [mbind result_bind]).
    done.
  - rewrite !byte_at_drop.
    change (u8 (byte_at sect 450) ≠ 0). by rewrite H450.
  - rewrite pico_blockdev_extractle32_value, !drop_drop. exact Hstart.
  - rewrite pico_blockdev_extractle32_value, !drop_drop. exact Hsize.
Qed.

(** C6, as the code has it. Sector 0 is read as one sector ending in
    55 AA; entry 0 has type 0B, little-endian start 2048 and count 1024;
    entries 1, 2 and 3 have type 00; the allocations of the partition
    object and of its link succeed. Then [pico_blockdev_register] returns 0,
    the disk has exactly one child, a partition object below the disk with
    [start_sector = 2048] and [num_sectors = 1024], and [BLKGETSIZE] on the
    child returns 0 and stores 1024 through its pointer. In every scan, an
    entry of type 00 changes nothing. *)
Theorem s4_register_one_partition
    (sect : list byte) (rd : Z → Z → Z * list byte)
    (ioc : option (Z → Z * option Z)) (hd : bool) (rest : list bool)
    (fuel : nat) :
  s4_disk sect →
  byte_at sect 482 = x00 → byte_at sect 498 = x00 →
  rd 0 1 = (1, sect) →
  (∃ w,
     pico_blockdev_register (S (S (S fuel)))
       (fresh_disk (driver_ops (Some rd) ioc hd) (true :: true :: rest)) disk
     = Ok (w, 0)
     ∧ (children <$> heap w !! disk) = Some [part1]
     ∧ length (heap w) = 2%nat
     ∧ (ops <$> heap w !! part1) = Some (Some part_ops)
     ∧ (parent <$> heap w !! part1) = Some (Some disk)
     ∧ (start_sector <$> heap w !! part1) = Some 2048
     ∧ (num_sectors <$> heap w !! part1) = Some 1024
     ∧ pico_blockdev_ioctl (S fuel) w part1 PICO_IOCTL_BLKGETSIZE
       = Ok (0, Some 1024))
  ∧ ∀ register w dev source index,
      byte_at (drop (index * sizeof_msdos_partition) source) off_sys_ind
        = x00 →
      pico_blockdev_check_msdos_partition register w dev source index = Ok w.
Proof.
  intros Hs4 H482 H498 Hrd. split; [| by apply check_empty_entry].
  eexists. split.
  - change (fresh_disk ?vt ?plan)
      with {| heap := [disk_rec vt]; malloc_plan := plan; log := [] |}.
    rewrite pico_blockdev_register_S.
    cbn [deref heap disk lookup list_lookup mbind result_bind disk_rec parent].
    rewrite (scan_s4_disk (S fuel) _ sect) by done.
    erewrite (register_child fuel) by (done || reflexivity).
    reflexivity.
  - split_and!; reflexivity.
Qed.

Lemma s4_sector_is_s4 : s4_disk s4_sector.
Proof. unfold s4_disk. split_and!; reflexivity. Qed.

(** The theorem on the disk of scenario S4. *)
Lemma s4_register_one_partition_witness :
  s4_disk s4_sector
  ∧ ∃ w,
      pico_blockdev_register 8
        (fresh_disk (disk_ops s4_sector) [true; true]) disk = Ok (w, 0)
      ∧ (children <$> heap w !! disk) = Some [part1]
      ∧ length (heap w) = 2%nat
      ∧ (ops <$> heap w !! part1) = Some (Some part_ops)
      ∧ (parent <$> heap w !! part1) = Some (Some disk)
      ∧ (start_sector <$> heap w !! part1) = Some 2048
      ∧ (num_sectors <$> heap w !! part1) = Some 1024
      ∧ pico_blockdev_ioctl 6 w part1 PICO_IOCTL_BLKGETSIZE
        = Ok (0, Some 1024).
Proof.
  split; [exact s4_sector_is_s4 |].
  exact (proj1 (s4_register_one_partition s4_sector
                  (fun _ _ => (1, s4_sector)) None true [] 5
                  s4_sector_is_s4 eq_refl eq_refl eq_refl)).
Defined.

End BlockdevFacts.


(** * Further properties of the VFS *)

Module VfsProps.
Import Errno Vfs VfsFacts.

(** ** Path resolution *)

(** What [pico_vfs_get_vfs_entry_for_path] returns, in the form the
    properties below use. *)
Lemma path_resolution_spec (st : vfs_state) (p : list ascii) :
  registry_wf st →
  match pico_vfs_get_vfs_entry_for_path st p with
  | Some e =>
    occupied st e ∧ path_matches p e
    ∧ ∀ e', occupied st e' → path_matches p e' →
            (length (path_prefix e') ≤ length (path_prefix e))%nat
  | None => ∀ e', occupied st e' → ¬ path_matches p e'
  end.
Proof.
  intros Hwf. unfold pico_vfs_get_vfs_entry_for_path.
  pose proof (path_scan_fold_inv p (take (s_vfs_count st) (s_vfs st)) []
                {| best_match := None; best_match_prefix_len := -1 |}) as H.
  simpl in H. unfold scan_inv at 2 in H.
  specialize (H ltac:(intros e He; by apply Hwf, occupied_scanned)
                ltac:(simpl; split; [done | intros e He; inversion He])).
  unfold scan_inv in H.
  destruct (best_match _) as [b|].
  - destruct H as (Hin & Hm & _ & _ & Hmax).
    split; [by apply occupied_scanned |]. split; [done |].
    intros e' He'. apply Hmax. by apply occupied_scanned.
  - destruct H as [_ Hnone]. intros e' He'. apply Hnone.
    by apply occupied_scanned.
Qed.

(** X7. With a backend registered under the empty prefix (as
    [pico_vfs_init] registers the root directory backend), every path
    resolves: to a backend that matches it, and to one with the empty
    prefix only when no backend with a non-empty prefix matches. *)
Theorem default_backend_catches_all (st : vfs_state) (e0 : pico_vfs_entry_t)
    (p : list ascii) :
  registry_wf st → occupied st e0 → path_prefix_len e0 = 0 →
  ∃ e, pico_vfs_get_vfs_entry_for_path st p = Some e
       ∧ path_matches p e
       ∧ (path_prefix e = [] →
          ∀ e', occupied st e' → path_matches p e' → path_prefix e' = []).
Proof.
  intros Hwf Hocc Hlen. pose proof (path_resolution_spec st p Hwf) as Hspec.
  assert (Hm0 : path_matches p e0).
  { destruct (Hwf e0 Hocc) as [Hign | [Hl _]].
    - rewrite Hlen in Hign. done.
    - assert (Hnil : path_prefix e0 = []).
      { apply length_zero_iff_nil. unfold strlen in Hl. lia. }
      unfold path_matches. rewrite Hnil. split_and!.
      + rewrite Hlen. done.
      + apply prefix_nil.
      + done. }
  destruct (pico_vfs_get_vfs_entry_for_path st p) as [e|].
  - exists e. destruct Hspec as (_ & Hm & Hmax). split_and!; [done | done |].
    intros Hnil e' He' Hm'. specialize (Hmax e' He' Hm'). rewrite Hnil in Hmax.
    apply length_zero_iff_nil. simpl in Hmax. lia.
  - by destruct (Hspec e0 Hocc).
Qed.

(** X8. The path handed to the backend. For a path resolved to backend
    [e]: a path that is exactly the prefix is passed as a single slash; any
    other path is passed with the prefix cut off, so that prefix and passed
    path make up the original path, and the passed path begins with a slash
    when the prefix is not empty. *)
Theorem translate_path_of_resolved (st : vfs_state) (p : list ascii)
    (e : pico_vfs_entry_t) :
  registry_wf st →
  pico_vfs_get_vfs_entry_for_path st p = Some e →
  (p = path_prefix e → translate_path e p = cstr "/")
  ∧ (p ≠ path_prefix e →
     path_prefix e ++ translate_path e p = p
     ∧ (path_prefix e ≠ [] → head (translate_path e p) = Some "/"%char)).
Proof.
  intros Hwf Hres. pose proof (path_resolution_spec st p Hwf) as Hspec.
  rewrite Hres in Hspec. destruct Hspec as (Hocc & (Hign & [k Hk] & Hb) & _).
  destruct (Hwf e Hocc) as [? | [Hlen _]]; [done |].
  unfold translate_path. rewrite Hlen. unfold strlen. split.
  - intros ->. by rewrite Z.eqb_refl.
  - intros Hne. subst p. rewrite length_app in *.
    destruct (_ =? _) eqn:E.
    { apply Z.eqb_eq in E. destruct k; [by rewrite app_nil_r in Hne |].
      simpl in E. lia. }
    rewrite Nat2Z.id, drop_app_length. split; [done |].
    intros Hnn. destruct k as [| c k]; [by rewrite app_nil_r in Hne |].
    specialize (Hb Hnn ltac:(simpl; lia)).
    rewrite lookup_app_r, Nat.sub_diag in Hb by lia. done.
Qed.

Lemma is_root_path (p : list ascii) :
  zero ∉ p →
  Ascii.eqb (char_at p 0) "/" && Ascii.eqb (char_at p 1) zero = true
  ↔ p = cstr "/".
Proof.
  intros Hz. unfold char_at. simpl.
  destruct p as [| c0 [| c1 rest]]; simpl.
  - split; [done | done].
  - rewrite andb_true_r, Ascii.eqb_eq.
    split; [by intros -> | by intros [= ->]].
  - split; [| done]. intros [_ H1]%andb_true_iff. apply Ascii.eqb_eq in H1.
    subst c1. destruct Hz. right. left.
Qed.

(** X9. [pico_vfs_concat_path] and [translate_path] undo each other on
    names below a mount point: joining the prefix of a backend (other than
    a single slash) and a name, in a buffer that holds the result, gives
    prefix, slash, name and returns the sum of the three lengths;
    translating the joined path for that backend gives slash, name. *)
Theorem concat_path_then_translate (e : pico_vfs_entry_t) (name : list ascii)
    (destlen : Z) :
  path_prefix_len e = strlen (path_prefix e) →
  zero ∉ path_prefix e → path_prefix e ≠ cstr "/" →
  strlen (path_prefix e) + 1 + strlen name < destlen →
  pico_vfs_concat_path (path_prefix e) name destlen
  = (Some (path_prefix e ++ "/"%char :: name),
     strlen (path_prefix e) + 1 + strlen name)
  ∧ translate_path e (path_prefix e ++ "/"%char :: name) = "/"%char :: name.
Proof.
  intros Hlen Hz Hroot Hfit. unfold pico_vfs_concat_path.
  destruct (_ && _) eqn:E; [by apply is_root_path in E |].
  assert (Hl : strlen (path_prefix e ++ "/"%char :: name)
               = strlen (path_prefix e) + 1 + strlen name).
  { unfold strlen. rewrite length_app. simpl. lia. }
  rewrite Hl. split.
  - destruct (destlen =? 0) eqn:E0;
      [apply Z.eqb_eq in E0; unfold strlen in *; lia |].
    rewrite firstn_all2; [done |]. unfold strlen in *.
    rewrite length_app in *. simpl in *. lia.
  - unfold translate_path. rewrite Hl, Hlen.
    destruct (_ =? _) eqn:E1; [apply Z.eqb_eq in E1; unfold strlen in *; lia |].
    unfold strlen. by rewrite Nat2Z.id, drop_app_length.
Qed.

(** Joining with the root directory: the single slash is stepped over. *)
Lemma concat_path_root (name : list ascii) (destlen : Z) :
  strlen name + 1 < destlen →
  pico_vfs_concat_path (cstr "/") name destlen
  = (Some ("/"%char :: name), strlen name + 1).
Proof.
  intros Hfit. unfold pico_vfs_concat_path. simpl.
  destruct (destlen =? 0) eqn:E0;
    [apply Z.eqb_eq in E0; unfold strlen in *; lia |].
  rewrite firstn_all2; [f_equal; unfold strlen; simpl; lia |].
  unfold strlen in *. simpl. lia.
Qed.

(** ** Registration *)

Lemma char_at_last (p : list ascii) :
  p ≠ [] →
  Ascii.eqb (char_at p (strlen p - 1)) "/" = true ↔ last p = Some "/"%char.
Proof.
  intros Hne. unfold strlen.
  assert (Hlen : (0 < length p)%nat) by (destruct p; [done | simpl; lia]).
  replace (Z.of_nat (length p) - 1) with (Z.of_nat (pred (length p))) by lia.
  rewrite char_at_slash. by rewrite last_lookup.
Qed.

Lemma char_at_head (p : list ascii) :
  Ascii.eqb (char_at p 0) "/" = true ↔ head p = Some "/"%char.
Proof.
  change 0 with (Z.of_nat 0). rewrite char_at_slash. by rewrite head_lookup.
Qed.

Lemma prefix_check_spec (M : Z) (bp : list ascii) :
  0 ≤ M → strlen bp ≠ LEN_PATH_PREFIX_IGNORED →
  prefix_rejected M bp (strlen bp) = false ↔ prefix_valid M bp.
Proof.
  intros HM Hign. unfold prefix_rejected.
  apply Z.eqb_neq in Hign. rewrite Hign. simpl.
  unfold prefix_valid.
  destruct (decide (bp = [])) as [-> | Hne].
  { simpl. change (strlen []) with 0.
    destruct (0 >? M) eqn:E; [apply Z.gtb_lt in E; lia |].
    split; [by left | done]. }
  assert (Hpos : 0 < strlen bp).
  { unfold strlen. destruct bp; [done | simpl; lia]. }
  pose proof (char_at_head bp) as Hh. pose proof (char_at_last bp Hne) as Hl.
  assert (E0 : (strlen bp =? 0) = false) by (apply Z.eqb_neq; lia).
  assert (Eg : (strlen bp >? 0) = true) by (apply Z.gtb_lt; lia).
  rewrite E0, Eg. simpl.
  destruct (strlen bp <? 2) eqn:E2; simpl.
  { apply Z.ltb_lt in E2. split; [done |]. intros [? | [? _]]; [done | lia]. }
  apply Z.ltb_ge in E2.
  destruct (strlen bp >? M) eqn:EM.
  { apply Z.gtb_lt in EM. split; [done |]. intros [? | [? _]]; [done | lia]. }
  rewrite Z.gtb_ltb in EM. apply Z.ltb_ge in EM.
  destruct (Ascii.eqb (char_at bp 0) "/") eqn:Eh;
    destruct (Ascii.eqb (char_at bp (strlen bp - 1)) "/") eqn:El; simpl.
  - split; [done |]. intros [? | (_ & _ & Hlast)]; [done |].
    destruct Hlast. by apply Hl.
  - split; [| done]. intros _. right. split_and!; [lia | lia | by apply Hh |].
    intros Hlast. apply Hl in Hlast. congruence.
  - split; [done |]. intros [? | (_ & Hhead & _)]; [done |].
    apply Hh in Hhead. congruence.
  - split; [done |]. intros [? | (_ & Hhead & _)]; [done |].
    apply Hh in Hhead. congruence.
Qed.

(** X1. The prefix test of [pico_vfs_register_common], for a length taken
    with [strlen]. A prefix is valid when it is empty, or has 2 to
    [PICO_VFS_BASE_PATH_MAX] characters, starts with a slash and does not
    end with one. An invalid prefix is refused with [EINVAL], the state and
    the index out-parameter untouched; a valid prefix never gives
    [EINVAL]. *)
Theorem register_common_checks_prefix (M : Z) (st : vfs_state)
    (bp : list ascii) (vops : pico_vfs_ops_t) (ctx : Z) (ok : bool) (v0 : Z) :
  0 ≤ M → strlen bp ≠ LEN_PATH_PREFIX_IGNORED →
  let out := pico_vfs_register_common M st bp (strlen bp) vops ctx ok v0 in
  (¬ prefix_valid M bp → out = (st, EINVAL, v0))
  ∧ (prefix_valid M bp → out.1.2 ≠ EINVAL).
Proof.
  intros HM Hign. pose proof (prefix_check_spec M bp HM Hign) as Hcheck.
  unfold pico_vfs_register_common.
  change (if negb (strlen bp =? LEN_PATH_PREFIX_IGNORED) then _ else false)
    with (prefix_rejected M bp (strlen bp)).
  destruct (prefix_rejected M bp (strlen bp)).
  - split; [done |]. intros Hv. apply Hcheck in Hv. done.
  - split; [intros Hv; destruct Hv; by apply Hcheck |].
    intros _. destruct ok; simpl; [| done].
    destruct (_ && _); simpl; done.
Qed.

Lemma find_null_slot_lowest (l : list (option pico_vfs_entry_t)) : ∀ k : nat,
  ∃ j : nat, find_null_slot l k = (k + j)%nat ∧ (j ≤ length l)%nat
    ∧ ((j < length l)%nat → l !! j = Some None)
    ∧ ∀ i : nat, (i < j)%nat → ∃ e, l !! i = Some (Some e).
Proof.
  induction l as [| [e|] l IH]; intros k; simpl.
  - exists 0%nat. split_and!; [lia | lia | lia | lia].
  - destruct (IH (S k)) as (j & Hj & Hle & Hnone & Hlow).
    exists (S j). split_and!; [lia | lia | |].
    + intros Hlt. apply Hnone. lia.
    + intros [| i] Hi; [by exists e | apply Hlow; lia].
  - exists 0%nat. split_and!; [lia | lia | done | lia].
Qed.

(** [pico_vfs_register_common], case by case. *)
Lemma register_common_cases M st bp len vops ctx ok v0 :
  registry_ok st →
  ∃ j : nat,
    (j ≤ s_vfs_count st)%nat
    ∧ ((j < s_vfs_count st)%nat → s_vfs st !! j = Some None)
    ∧ (∀ i : nat, (i < j)%nat → slot_taken st i)
    ∧ pico_vfs_register_common M st bp len vops ctx ok v0
      = if prefix_rejected M bp len then (st, EINVAL, v0)
        else if negb ok then (st, ENOMEM, v0)
        else if (j =? s_vfs_count st)%nat
                && (Z.of_nat (s_vfs_count st) >=? VFS_MAX_COUNT)
        then (st, ENOMEM, v0)
        else (set_registry (<[j := Some (new_entry bp len vops ctx j)]>
                              (s_vfs st))
                (if (j =? s_vfs_count st)%nat then S (s_vfs_count st)
                 else s_vfs_count st) st,
              0, Z.of_nat j).
Proof.
  intros (Hslots & Hcount & _ & _).
  destruct (find_null_slot_lowest (take (s_vfs_count st) (s_vfs st)) 0)
    as (j & Hj & Hle & Hnone & Hlow).
  rewrite length_take in Hle, Hnone. exists j. split_and!.
  - lia.
  - intros Hlt. specialize (Hnone ltac:(lia)).
    by apply lookup_take_Some in Hnone as [Hl _].
  - intros i Hi. destruct (Hlow i Hi) as [e He].
    apply lookup_take_Some in He as [He _]. by exists e.
  - unfold pico_vfs_register_common, new_entry, prefix_rejected.
    by rewrite Hj.
Qed.

Lemma get_index_inserted st (j : nat) e count' :
  (j < length (s_vfs st))%nat → (j < count')%nat →
  pico_vfs_get_vfs_entry_for_index
    (set_registry (<[j := Some e]> (s_vfs st)) count' st) (Z.of_nat j)
  = Some e.
Proof.
  intros Hj Hc. unfold pico_vfs_get_vfs_entry_for_index. simpl.
  destruct (Z.of_nat j <? 0) eqn:E1; [apply Z.ltb_lt in E1; lia |].
  destruct (Z.of_nat j >=? Z.of_nat count') eqn:E2.
  { rewrite Z.geb_leb in E2. apply Z.leb_le in E2. lia. }
  simpl. by rewrite Nat2Z.id, list_lookup_insert_eq.
Qed.

(** A call of [pico_vfs_register] that returns a non-negative value. *)
Lemma register_success M st st' bp vops ctx ok r :
  registry_ok st →
  pico_vfs_register M st bp vops ctx ok = (st', r) → 0 ≤ r →
  ∃ j : nat,
    r = Z.of_nat j ∧ (j < length (s_vfs st))%nat
    ∧ (j ≤ s_vfs_count st)%nat
    ∧ ((j < s_vfs_count st)%nat → s_vfs st !! j = Some None)
    ∧ (∀ i : nat, (i < j)%nat → slot_taken st i)
    ∧ prefix_rejected M bp (strlen bp) = false
    ∧ st' = emit (EvRegister bp)
              (set_registry
                 (<[j := Some (new_entry bp (strlen bp) vops ctx j)]>
                    (s_vfs st))
                 (if (j =? s_vfs_count st)%nat then S (s_vfs_count st)
                  else s_vfs_count st) st).
Proof.
  intros Hok Hreg Hr.
  destruct (register_common_cases M st bp (strlen bp) vops ctx ok (-1) Hok)
    as (j & Hle & Hfree & Hlow & Hcases).
  unfold pico_vfs_register in Hreg. rewrite Hcases in Hreg.
  destruct Hok as (Hslots & Hcount & _ & _).
  unfold EINVAL, ENOMEM in Hreg.
  destruct (prefix_rejected _ _ _);
    [simpl in Hreg; injection Hreg as _ <-; lia |].
  destruct (negb ok); [simpl in Hreg; injection Hreg as _ <-; lia |].
  destruct (_ && _) eqn:Hfull;
    [simpl in Hreg; injection Hreg as _ <-; lia |].
  simpl in Hreg. injection Hreg as <- <-.
  exists j. split_and!; try done.
  destruct (j =? s_vfs_count st)%nat eqn:E.
  - apply Nat.eqb_eq in E. simpl in Hfull.
    rewrite Z.geb_leb in Hfull. apply Z.leb_gt in Hfull.
    rewrite Hslots. unfold VFS_MAX_COUNT in *. lia.
  - apply Nat.eqb_neq in E. lia.
Qed.

Lemma new_count_above (j count : nat) :
  (j ≤ count)%nat →
  (j < (if (j =? count)%nat then S count else count))%nat.
Proof.
  intros Hle. destruct (j =? count)%nat eqn:E;
    [apply Nat.eqb_eq in E | apply Nat.eqb_neq in E]; lia.
Qed.

(** X2. A successful [pico_vfs_register] puts the backend in the lowest
    free slot: the value returned is the number of a slot that was free,
    every lower slot is occupied, index lookup of the returned value yields
    the new entry (operations, prefix, prefix length, own index and driver
    context as given), no other slot and no descriptor row changes. *)
Theorem register_takes_lowest_free_slot (M : Z) (st st' : vfs_state)
    (bp : list ascii) (vops : pico_vfs_ops_t) (ctx : Z) (ok : bool) (r : Z) :
  registry_ok st → registry_tail_free st →
  strlen bp ≠ LEN_PATH_PREFIX_IGNORED →
  pico_vfs_register M st bp vops ctx ok = (st', r) → 0 ≤ r →
  ∃ ix : nat,
    r = Z.of_nat ix ∧ Z.of_nat ix < VFS_MAX_COUNT
    ∧ ¬ slot_taken st ix
    ∧ (∀ i : nat, (i < ix)%nat → slot_taken st i)
    ∧ pico_vfs_get_vfs_entry_for_index st' r
      = Some {| ops := vops; path_prefix := bp;
                path_prefix_len := strlen bp; index := ix; drvctx := ctx |}
    ∧ (∀ i : nat, i ≠ ix → s_vfs st' !! i = s_vfs st !! i)
    ∧ s_fd_table st' = s_fd_table st.
Proof.
  intros Hok Htail Hign Hreg Hr.
  destruct (register_success _ _ _ _ _ _ _ _ Hok Hreg Hr)
    as (j & -> & Hj & Hle & Hfree & Hlow & _ & ->).
  destruct Hok as (Hslots & Hcount & _ & _).
  exists j. split_and!; try done.
  - rewrite Hslots in Hj. unfold VFS_MAX_COUNT in *. lia.
  - intros [e He]. destruct (decide (j < s_vfs_count st)%nat) as [Hlt | Hge].
    + rewrite (Hfree Hlt) in He. done.
    + rewrite (Htail j) in He by lia. done.
  - change (pico_vfs_get_vfs_entry_for_index (emit ?ev ?s) ?i)
      with (pico_vfs_get_vfs_entry_for_index s i).
    rewrite get_index_inserted; [| done | by apply new_count_above].
    unfold new_entry. apply Z.eqb_neq in Hign. by rewrite Hign.
  - intros i Hi. simpl. by rewrite list_lookup_insert_ne.
Qed.

(** X3. With a valid prefix and the allocation succeeding,
    [pico_vfs_register] returns -1 exactly when all [VFS_MAX_COUNT] slots
    are occupied. *)
Theorem register_fails_only_when_full (M : Z) (st : vfs_state)
    (bp : list ascii) (vops : pico_vfs_ops_t) (ctx : Z) :
  registry_ok st → registry_tail_free st →
  0 ≤ M → strlen bp ≠ LEN_PATH_PREFIX_IGNORED → prefix_valid M bp →
  (pico_vfs_register M st bp vops ctx true).2 = -1
  ↔ ∀ i : nat, Z.of_nat i < VFS_MAX_COUNT → slot_taken st i.
Proof.
  intros Hok Htail HM Hign Hvalid.
  destruct (register_common_cases M st bp (strlen bp) vops ctx true (-1) Hok)
    as (j & Hle & Hfree & Hlow & Hcases).
  unfold pico_vfs_register. rewrite Hcases. unfold ENOMEM.
  apply prefix_check_spec in Hvalid; [| done | done]. rewrite Hvalid. simpl.
  destruct Hok as (Hslots & Hcount & _ & _). unfold VFS_MAX_COUNT in *.
  destruct (_ && _) eqn:Hfull; simpl.
  - apply andb_true_iff in Hfull as [Hj Hc]. apply Nat.eqb_eq in Hj.
    rewrite Z.geb_leb in Hc. apply Z.leb_le in Hc.
    split; [| done]. intros _ i Hi. apply Hlow. lia.
  - split; [lia |]. intros Hall.
    assert (Hj : (j < 4)%nat).
    { apply andb_false_iff in Hfull as [Hj | Hc].
      - apply Nat.eqb_neq in Hj. lia.
      - rewrite Z.geb_leb in Hc. apply Z.leb_gt in Hc. lia. }
    destruct (Hall j ltac:(lia)) as [e He].
    destruct (decide (j < s_vfs_count st)%nat) as [Hlt | Hge].
    + rewrite (Hfree Hlt) in He. done.
    + rewrite (Htail j) in He by lia. done.
Qed.

(** ** The invariants used above hold in the states the API builds *)

Lemma boot_state_tail_free : registry_tail_free boot_state.
Proof.
  intros i _ Hi. unfold boot_state in *. cbn [s_vfs] in *.
  rewrite length_replicate in Hi. by apply lookup_replicate_2.
Qed.

Lemma register_common_tail_free M st bp len vops ctx ok v0 :
  registry_ok st → registry_tail_free st →
  registry_tail_free
    (pico_vfs_register_common M st bp len vops ctx ok v0).1.1.
Proof.
  intros Hok Htail.
  destruct (register_common_cases M st bp len vops ctx ok v0 Hok)
    as (j & Hle & _ & _ & ->).
  destruct (prefix_rejected _ _ _); [done |].
  destruct (negb ok); [done |]. destruct (_ && _); [done |].
  intros i Hi Hlen. simpl in *. rewrite length_insert in Hlen.
  pose proof (new_count_above j _ Hle).
  rewrite list_lookup_insert_ne by lia. apply Htail; [| done].
  destruct (j =? s_vfs_count st)%nat; lia.
Qed.

Lemma pico_vfs_register_tail_free M st bp vops ctx ok :
  registry_ok st → registry_tail_free st →
  registry_tail_free (pico_vfs_register M st bp vops ctx ok).1.
Proof.
  intros Hok Htail. unfold pico_vfs_register.
  pose proof (register_common_tail_free M st bp (strlen bp) vops ctx ok (-1)
                Hok Htail) as H.
  destruct (pico_vfs_register_common _ _ _ _ _ _ _ _) as [[st1 r] ix].
  by destruct (r <? 0).
Qed.

Lemma pico_vfs_init_tail_free M ok :
  registry_tail_free (pico_vfs_init M ok).1.
Proof.
  unfold pico_vfs_init.
  pose proof (register_common_tail_free M boot_state [] 0 rootops 0 ok (-1)
                boot_state_ok boot_state_tail_free) as H.
  destruct (pico_vfs_register_common _ _ _ _ _ _ _ _) as [[st1 r] ix].
  by destruct (r <? 0).
Qed.

(** X4. Once a non-empty prefix is registered, the prefix itself and
    every path that continues it after a slash resolve to a backend whose
    prefix is a prefix of the path and at least as long as the registered
    one; the prefix itself resolves to a backend with exactly that
    prefix. *)
Theorem registered_prefix_resolves (M : Z) (st st' : vfs_state)
    (bp p : list ascii) (vops : pico_vfs_ops_t) (ctx : Z) (ok : bool)
    (r : Z) :
  registry_ok st → registry_wf st → M < 2 ^ 31 →
  bp ≠ [] → strlen bp ≠ LEN_PATH_PREFIX_IGNORED →
  pico_vfs_register M st bp vops ctx ok = (st', r) → 0 ≤ r →
  (p = bp ∨ ∃ rest, p = bp ++ "/"%char :: rest) →
  ∃ e, pico_vfs_get_vfs_entry_for_path st' p = Some e
       ∧ path_prefix e `prefix_of` p
       ∧ (length bp ≤ length (path_prefix e))%nat
       ∧ (p = bp → path_prefix e = bp).
Proof.
  intros Hok Hwf HM Hne Hign Hreg Hr Hp.
  assert (Hwf' : registry_wf st').
  { pose proof (pico_vfs_register_wf M HM st bp vops ctx ok Hok Hwf) as H.
    by rewrite Hreg in H. }
  destruct (register_success _ _ _ _ _ _ _ _ Hok Hreg Hr)
    as (j & -> & Hj & Hle & _ & _ & _ & Hst').
  set (e0 := new_entry bp (strlen bp) vops ctx j) in *.
  assert (Hpre0 : path_prefix e0 = bp).
  { unfold e0, new_entry. apply Z.eqb_neq in Hign. by rewrite Hign. }
  assert (Hocc : occupied st' e0).
  { exists j. rewrite Hst'. simpl. split; [by apply new_count_above |].
    by apply list_lookup_insert_eq. }
  assert (Hm : path_matches p e0).
  { unfold path_matches. rewrite Hpre0. split_and!; [done | |].
    - destruct Hp as [-> | [rest ->]]; [done | by eexists].
    - intros _ Hlt. destruct Hp as [-> | [rest ->]]; [lia |].
      by rewrite lookup_app_r, Nat.sub_diag. }
  pose proof (path_resolution_spec st' p Hwf') as Hspec.
  destruct (pico_vfs_get_vfs_entry_for_path st' p) as [e|];
    [| by destruct (Hspec e0 Hocc)].
  destruct Hspec as (_ & (_ & Hpre & _) & Hmax).
  specialize (Hmax e0 Hocc Hm). rewrite Hpre0 in Hmax.
  exists e. split_and!; [done | done | done |].
  intros ->. by apply prefix_length_eq.
Qed.

(** X5. Registering a backend under a prefix shorter than
    [PICO_VFS_BASE_PATH_MAX] and unregistering the returned index gives the
    registry back: slots, descriptor table and error channel are as
    before, path and index lookups answer as before, and the log has gained
    the register and the deregister notification, in this order. Only the
    slot counter may stay one higher. Under a prefix of
    [PICO_VFS_BASE_PATH_MAX] characters, which registration accepts, the
    same unregistration overruns its buffer [path] instead. *)
Theorem register_then_unregister (M : Z) (st st1 : vfs_state)
    (bp : list ascii) (vops : pico_vfs_ops_t) (ctx : Z) (ok : bool) (r : Z) :
  registry_ok st → registry_tail_free st →
  strlen bp ≠ LEN_PATH_PREFIX_IGNORED →
  pico_vfs_register M st bp vops ctx ok = (st1, r) → 0 ≤ r →
  (strlen bp < M →
   ∃ st2,
     pico_vfs_unregister M st1 r = Ok (st2, 0)
     ∧ s_vfs st2 = s_vfs st
     ∧ s_fd_table st2 = s_fd_table st
     ∧ errno st2 = errno st
     ∧ events st2 = events st ++ [EvRegister bp; EvDeregister bp]
     ∧ (s_vfs_count st ≤ s_vfs_count st2 ≤ S (s_vfs_count st))%nat
     ∧ (∀ p, pico_vfs_get_vfs_entry_for_path st2 p
             = pico_vfs_get_vfs_entry_for_path st p)
     ∧ (∀ i, pico_vfs_get_vfs_entry_for_index st2 i
             = pico_vfs_get_vfs_entry_for_index st i))
  ∧ (M ≤ strlen bp →
     pico_vfs_unregister M st1 r = Fault (OutOfBounds M)).
Proof.
  intros Hok Htail Hign Hreg Hr.
  destruct (register_success _ _ _ _ _ _ _ _ Hok Hreg Hr)
    as (j & -> & Hj & Hle & Hfree & _ & _ & ->).
  assert (Hnone : s_vfs st !! j = Some None).
  { destruct (decide (j < s_vfs_count st)%nat) as [Hlt | Hge];
      [by apply Hfree | apply Htail; [lia | done]]. }
  assert (Hback : <[j := None]>
                    (<[j := Some (new_entry bp (strlen bp) vops ctx j)]>
                       (s_vfs st)) = s_vfs st).
  { rewrite list_insert_insert_eq. by apply list_insert_id. }
  assert (Hpre : path_prefix (new_entry bp (strlen bp) vops ctx j) = bp).
  { unfold new_entry. apply Z.eqb_neq in Hign. by rewrite Hign. }
  assert (Hrun : pico_vfs_unregister M
                   (emit (EvRegister bp)
                      (set_registry
                         (<[j := Some (new_entry bp (strlen bp) vops ctx j)]>
                            (s_vfs st))
                         (if (j =? s_vfs_count st)%nat
                          then S (s_vfs_count st) else s_vfs_count st) st))
                   (Z.of_nat j)
                 = (path ← stored_prefix_string M
                             (new_entry bp (strlen bp) vops ctx j);
                    Ok (emit (EvDeregister path)
                          (set_registry (s_vfs st)
                             (if (j =? s_vfs_count st)%nat
                              then S (s_vfs_count st) else s_vfs_count st)
                             (emit (EvRegister bp) st)), 0))).
  { unfold pico_vfs_unregister, zlookup.
    destruct (Z.of_nat j <? 0) eqn:E; [apply Z.ltb_lt in E; lia |].
    rewrite Nat2Z.id. cbn [emit set_registry s_vfs s_vfs_count].
    rewrite list_lookup_insert_eq by done. by rewrite Hback. }
  rewrite Hrun. unfold stored_prefix_string. rewrite Hpre.
  split; [| intros HM; apply Z.ltb_ge in HM; by rewrite HM].
  intros HM. apply Z.ltb_lt in HM. rewrite HM. cbn [mbind result_bind].
  eexists. split; [reflexivity |].
  cbn [emit set_registry s_vfs s_fd_table errno events s_vfs_count].
  split_and!; try done.
  - by rewrite <- app_assoc.
  - destruct (j =? s_vfs_count st)%nat; lia.
  - destruct (j =? s_vfs_count st)%nat; lia.
  - intros p. unfold pico_vfs_get_vfs_entry_for_path, emit, set_registry.
    cbn [s_vfs s_vfs_count].
    destruct (j =? s_vfs_count st)%nat eqn:E; [| done].
    apply Nat.eqb_eq in E. subst j.
    rewrite (take_S_r _ _ None) by done. by rewrite fold_left_app.
  - intros i. unfold pico_vfs_get_vfs_entry_for_index, emit, set_registry.
    cbn [s_vfs s_vfs_count].
    destruct (j =? s_vfs_count st)%nat eqn:E; [| done].
    apply Nat.eqb_eq in E. subst j.
    destruct (i <? 0) eqn:E0; [done |]. apply Z.ltb_ge in E0. simpl.
    destruct (i >=? Z.of_nat (S (s_vfs_count st))) eqn:E1;
      destruct (i >=? Z.of_nat (s_vfs_count st)) eqn:E2; try done.
    + rewrite Z.geb_leb in E1, E2. apply Z.leb_le in E1.
      apply Z.leb_gt in E2. lia.
    + rewrite Z.geb_leb in E1, E2. apply Z.leb_gt in E1.
      apply Z.leb_le in E2.
      replace (Z.to_nat i) with (s_vfs_count st) by lia. by rewrite Hnone.
Qed.

(** X6. [pico_vfs_unregister] on an occupied slot. When the stored prefix
    is shorter than [PICO_VFS_BASE_PATH_MAX], the call returns 0, clears the
    slot, keeps the counter and the descriptor table and notifies with the
    prefix of the entry removed, and a second call with the same index
    returns -1 and changes nothing. When the stored prefix has
    [PICO_VFS_BASE_PATH_MAX] characters, the copy into the buffer [path]
    runs past the buffer. *)
Theorem unregister_twice (M : Z) (st : vfs_state) (ix : Z)
    (e : pico_vfs_entry_t) :
  zlookup (s_vfs st) ix = Some (Some e) →
  (strlen (path_prefix e) < M →
   ∃ st1,
     pico_vfs_unregister M st ix = Ok (st1, 0)
     ∧ events st1 = events st ++ [EvDeregister (path_prefix e)]
     ∧ s_vfs st1 = <[Z.to_nat ix := None]> (s_vfs st)
     ∧ s_vfs_count st1 = s_vfs_count st
     ∧ s_fd_table st1 = s_fd_table st
     ∧ pico_vfs_unregister M st1 ix = Ok (st1, -1))
  ∧ (M ≤ strlen (path_prefix e) →
     pico_vfs_unregister M st ix = Fault (OutOfBounds M)).
Proof.
  intros Hl. unfold pico_vfs_unregister at 1 3. rewrite Hl.
  unfold stored_prefix_string.
  split; [| intros HM; apply Z.ltb_ge in HM; by rewrite HM].
  intros HM. apply Z.ltb_lt in HM. rewrite HM. cbn [mbind result_bind].
  eexists. split; [reflexivity |]. split_and!; [done | done | done | done |].
  unfold pico_vfs_unregister, zlookup in *.
  destruct (ix <? 0) eqn:E; [done |].
  cbn [emit set_registry s_vfs].
  rewrite list_lookup_insert_eq; [done |]. by eapply lookup_lt_Some.
Qed.

(** ** Descriptor-addressed calls *)

Lemma get_vfs_for_fd_live st fd v lfd :
  fd_live st fd v lfd →
  pico_vfs_get_vfs_for_fd st fd = Some v
  ∧ pico_vfs_local_fd st (Some v) fd = lfd.
Proof.
  intros ((Hlo & Hhi) & row & Hrow & (Hix0 & Hix1) & Hslot & Hl & _).
  unfold pico_vfs_get_vfs_for_fd, pico_vfs_local_fd, pico_vfs_valid_fd,
    zlookup, pico_vfs_get_vfs_entry_for_index.
  destruct (fd <? MAX_FDS) eqn:E1; [| apply Z.ltb_ge in E1; lia].
  destruct (fd >=? 0) eqn:E2;
    [| rewrite Z.geb_leb in E2; apply Z.leb_gt in E2; lia].
  destruct (fd <? 0) eqn:E3; [apply Z.ltb_lt in E3; lia |].
  simpl. rewrite Hrow.
  destruct (vfs_index row <? 0) eqn:E4; [apply Z.ltb_lt in E4; lia |].
  destruct (vfs_index row >=? _) eqn:E5;
    [rewrite Z.geb_leb in E5; apply Z.leb_le in E5; lia |].
  simpl. by rewrite Hslot.
Qed.

Lemma get_vfs_for_fd_Some st fd v :
  pico_vfs_get_vfs_for_fd st fd = Some v →
  0 ≤ fd < MAX_FDS
  ∧ ∃ row, s_fd_table st !! Z.to_nat fd = Some row
           ∧ 0 ≤ vfs_index row < Z.of_nat (s_vfs_count st)
           ∧ s_vfs st !! Z.to_nat (vfs_index row) = Some (Some v)
           ∧ pico_vfs_local_fd st (Some v) fd = local_fd row.
Proof.
  unfold pico_vfs_get_vfs_for_fd, pico_vfs_local_fd, pico_vfs_valid_fd,
    zlookup, pico_vfs_get_vfs_entry_for_index.
  destruct (fd <? MAX_FDS) eqn:E1; [| done]. apply Z.ltb_lt in E1.
  destruct (fd >=? 0) eqn:E2; [| done].
  rewrite Z.geb_leb in E2. apply Z.leb_le in E2.
  destruct (fd <? 0) eqn:E3; [done |]. simpl.
  destruct (s_fd_table st !! Z.to_nat fd) as [row|] eqn:Hrow; [| done].
  destruct (vfs_index row <? 0) eqn:E4; [done |]. apply Z.ltb_ge in E4.
  destruct (vfs_index row >=? _) eqn:E5; [done |].
  rewrite Z.geb_leb in E5. apply Z.leb_gt in E5. simpl.
  destruct (s_vfs st !! Z.to_nat (vfs_index row)) as [[e|] |] eqn:Hs;
    [| done | done].
  intros [= ->]. split; [lia |]. exists row. split_and!; (done || lia).
Qed.

Lemma generic_call_live name st fd v lfd :
  fd_live st fd v lfd →
  vfs_generic_reent_call name st fd
  = match name (ops v) with
    | None => (set_errno ENOSYS st, -1)
    | Some f =>
      (if f (drvctx v) lfd <? 0 then set_errno (- f (drvctx v) lfd) st
       else st,
       f (drvctx v) lfd)
    end.
Proof.
  intros Hlive. destruct (get_vfs_for_fd_live _ _ _ _ Hlive) as [Hv Hl].
  unfold vfs_generic_reent_call. rewrite Hv, Hl.
  destruct Hlive as (_ & _ & _ & _ & _ & _ & Hne).
  apply Z.eqb_neq in Hne. by rewrite Hne.
Qed.

(** X12. The descriptor-addressed calls ([write], [read], [lseek],
    [fcntl], [fstat], [fsync], [ioctl] and the like). On a live descriptor
    (a valid number whose row names a registered backend and a local
    descriptor other than -1) the call gives -1 with [ENOSYS] where the
    backend lacks the operation, and otherwise the operation's result,
    storing its negation in the error channel when it is negative; on any
    other descriptor it gives -1 with [EBADF]. *)
Theorem descriptor_call_dispatch
    (name : pico_vfs_ops_t → option (Z → Z → Z)) (st : vfs_state) (fd : Z) :
  (∀ v lfd, fd_live st fd v lfd →
     vfs_generic_reent_call name st fd
     = match name (ops v) with
       | None => (set_errno ENOSYS st, -1)
       | Some f =>
         (if f (drvctx v) lfd <? 0 then set_errno (- f (drvctx v) lfd) st
          else st,
          f (drvctx v) lfd)
       end)
  ∧ ((∀ v lfd, ¬ fd_live st fd v lfd) →
     vfs_generic_reent_call name st fd = (set_errno EBADF st, -1)).
Proof.
  split; [intros v lfd; apply generic_call_live |].
  intros Hdead. unfold vfs_generic_reent_call.
  destruct (pico_vfs_get_vfs_for_fd st fd) as [v|] eqn:Hv; [| done].
  destruct (_ =? -1) eqn:E; [done |]. apply Z.eqb_neq in E.
  destruct (get_vfs_for_fd_Some _ _ _ Hv) as (Hr & row & H1 & H2 & H3 & H4).
  rewrite H4 in E.
  destruct (Hdead v (local_fd row)). split; [done |].
  exists row. split_and!; (done || lia).
Qed.

(** ** Opening and closing *)

(** A successful [pico_vfs_open]: the backend's [open] returned 0 and a row
    was free. *)
Lemma open_success_shape st path flags mode vfs open lfd :
  registry_ok st →
  pico_vfs_get_vfs_entry_for_path st path = Some vfs →
  op_open (ops vfs) = Some open →
  open (drvctx vfs) (translate_path vfs path) flags mode = (0, lfd) →
  (∃ fd : nat, row_free (s_fd_table st) fd) →
  ∃ fd : nat,
    row_free (s_fd_table st) fd
    ∧ (∀ j : nat, (j < fd)%nat → ¬ row_free (s_fd_table st) j)
    ∧ pico_vfs_open st path flags mode
      = (set_fd_table
           (<[fd := {| vfs_index := Z.of_nat (index vfs); local_fd := lfd;
                       permanent := false |}]> (s_fd_table st))
           (emit (EvOpen (index vfs) (translate_path vfs path) flags mode)
              st),
         Z.of_nat fd).
Proof.
  intros Hok Hres Hop Hcall Hfree.
  pose proof (path_resolution_occupied _ _ _ Hres) as Hocc.
  destruct (occupied_index _ _ Hok Hocc) as (_ & Hix & _).
  destruct Hok as (_ & _ & _ & Hrows).
  unfold pico_vfs_open. rewrite Hres, Hop, Hcall. simpl.
  rewrite <- Hrows, firstn_all.
  pose proof (first_unused_row_spec (s_fd_table st) 0) as Hscan.
  destruct (first_unused_row (s_fd_table st) 0) as [i|].
  - destruct Hscan as (j & -> & Hj & Hlow). exists j.
    rewrite Z.add_0_l, Nat2Z.id.
    rewrite to_int8_small by (unfold VFS_MAX_COUNT in Hix; lia).
    by split_and!.
  - destruct Hfree as [fd Hfd]. by destruct (Hscan fd).
Qed.

Lemma row_free_bound (tbl : list pico_vfs_fd_table_t) (fd : nat) :
  row_free tbl fd → (fd < length tbl)%nat.
Proof. intros (row & Hrow & _). by eapply lookup_lt_Some. Qed.

(** X10. After a successful [pico_vfs_open] (backend status 0, a local
    descriptor other than -1, a free row), the descriptor returned belongs
    to the backend that opened the path, its local descriptor is the one
    the backend handed out, and every descriptor-addressed call on it
    reaches that backend's operation with the driver context and that
    local descriptor and returns what the operation returns. *)
Theorem open_then_descriptor_call (st : vfs_state) (path : list ascii)
    (flags mode : Z) (vfs : pico_vfs_entry_t)
    (open : Z → list ascii → Z → Z → Z * Z) (lfd : Z) :
  registry_ok st →
  pico_vfs_get_vfs_entry_for_path st path = Some vfs →
  op_open (ops vfs) = Some open →
  open (drvctx vfs) (translate_path vfs path) flags mode = (0, lfd) →
  lfd ≠ -1 →
  (∃ fd : nat, row_free (s_fd_table st) fd) →
  let st' := (pico_vfs_open st path flags mode).1 in
  let fd := (pico_vfs_open st path flags mode).2 in
  pico_vfs_get_vfs_for_fd st' fd = Some vfs
  ∧ pico_vfs_local_fd st' (Some vfs) fd = lfd
  ∧ ∀ name f, name (ops vfs) = Some f →
              (vfs_generic_reent_call name st' fd).2 = f (drvctx vfs) lfd.
Proof.
  intros Hok Hres Hop Hcall Hlfd Hfree.
  destruct (open_success_shape _ _ _ _ _ _ _ Hok Hres Hop Hcall Hfree)
    as (fd & Hfd & _ & ->).
  pose proof (path_resolution_occupied _ _ _ Hres) as Hocc.
  destruct (occupied_index _ _ Hok Hocc) as (Hc & Hix & Hslot).
  pose proof (row_free_bound _ _ Hfd) as Hlen.
  destruct Hok as (_ & _ & _ & Hrows). cbn [fst snd].
  assert (Hlive : fd_live
    (set_fd_table
       (<[fd := {| vfs_index := Z.of_nat (index vfs); local_fd := lfd;
                   permanent := false |}]> (s_fd_table st))
       (emit (EvOpen (index vfs) (translate_path vfs path) flags mode) st))
    (Z.of_nat fd) vfs lfd).
  { split; [unfold MAX_FDS in *; lia |].
    exists {| vfs_index := Z.of_nat (index vfs); local_fd := lfd;
              permanent := false |}.
    unfold set_fd_table, emit.
    cbn [s_fd_table s_vfs s_vfs_count vfs_index local_fd].
    rewrite !Nat2Z.id, list_lookup_insert_eq by done.
    split_and!; (done || lia). }
  destruct (get_vfs_for_fd_live _ _ _ _ Hlive) as [Hv Hl].
  split_and!; [done | done |].
  intros name f Hname.
  rewrite (generic_call_live name _ _ _ _ Hlive).
  by rewrite Hname.
Qed.

Lemma resolution_ext st st' p :
  s_vfs st' = s_vfs st → s_vfs_count st' = s_vfs_count st →
  pico_vfs_get_vfs_entry_for_path st' p = pico_vfs_get_vfs_entry_for_path st p.
Proof. unfold pico_vfs_get_vfs_entry_for_path. by intros -> ->. Qed.

(** [pico_vfs_close] on a live descriptor whose backend has a [close]. *)
Lemma close_live st fd v lfd close :
  fd_live st fd v lfd → op_close (ops v) = Some close →
  pico_vfs_close st fd
  = let ret := close (drvctx v) lfd in
    let st1 := emit (EvClose (index v) lfd) st in
    let st2 := if ret <? 0 then set_errno (- ret) st1 else st1 in
    if ret =? 0 then
      match s_fd_table st !! Z.to_nat fd with
      | Some row =>
        if negb (permanent row)
        then (set_fd_table
                (<[Z.to_nat fd := FD_TABLE_ENTRY_UNUSED]> (s_fd_table st))
                st2, ret)
        else (st2, ret)
      | None => (st2, ret)
      end
    else (st2, ret).
Proof.
  intros Hlive Hclose.
  destruct (get_vfs_for_fd_live _ _ _ _ Hlive) as [Hv Hl].
  destruct Hlive as ((Hlo & _) & _ & _ & _ & _ & _ & Hne).
  unfold pico_vfs_close, vfscall_close. rewrite Hv, Hl, Hclose.
  apply Z.eqb_neq in Hne. rewrite Hne. cbn zeta.
  destruct (close (drvctx v) lfd =? 0) eqn:E; [| done].
  unfold zlookup. destruct (fd <? 0) eqn:E0; [apply Z.ltb_lt in E0; lia |].
  by destruct (close (drvctx v) lfd <? 0).
Qed.

(** X13. [pico_vfs_close] never touches the registry and changes the
    descriptor table in one way only: when the result is 0 and the row is
    not permanent, the row of the descriptor is reset to the unused entry.
    A close that returns 0 on a row that is not permanent always frees
    it. *)
Theorem close_frees_row_only_on_success (st : vfs_state) (fd : Z) :
  let st' := (pico_vfs_close st fd).1 in
  let ret := (pico_vfs_close st fd).2 in
  s_vfs st' = s_vfs st ∧ s_vfs_count st' = s_vfs_count st
  ∧ (s_fd_table st' = s_fd_table st
     ∨ (ret = 0
        ∧ (∃ row, s_fd_table st !! Z.to_nat fd = Some row
                  ∧ permanent row = false)
        ∧ s_fd_table st' =
            <[Z.to_nat fd := FD_TABLE_ENTRY_UNUSED]> (s_fd_table st)))
  ∧ (ret = 0 → ∀ row, s_fd_table st !! Z.to_nat fd = Some row →
                      permanent row = false →
                      s_fd_table st' !! Z.to_nat fd
                      = Some FD_TABLE_ENTRY_UNUSED).
Proof.
  unfold pico_vfs_close, vfscall_close.
  destruct (pico_vfs_get_vfs_for_fd st fd) as [vfs|] eqn:Hv;
    [| simpl; by split_and!; [| | left |]].
  destruct (get_vfs_for_fd_Some _ _ _ Hv) as ((Hlo & _) & _).
  destruct (pico_vfs_local_fd _ _ _ =? -1);
    [simpl; by split_and!; [| | left |] |].
  destruct (op_close (ops vfs)) as [close|];
    [| simpl; by split_and!; [| | left |]].
  destruct (close _ _ =? 0) eqn:Hret.
  - apply Z.eqb_eq in Hret. rewrite Hret. simpl.
    unfold zlookup. destruct (fd <? 0) eqn:E0; [apply Z.ltb_lt in E0; lia |].
    destruct (s_fd_table st !! Z.to_nat fd) as [row|] eqn:Hrow;
      [| simpl; by split_and!; [| | left |]].
    destruct (permanent row) eqn:Hperm; simpl.
    + split_and!; [done | done | by left |]. intros _ row' [= <-]. congruence.
    + split_and!; [done | done | right; split_and!; eauto |].
      intros _ row' _ _. apply list_lookup_insert_eq.
      by eapply lookup_lt_Some.
  - apply Z.eqb_neq in Hret.
    destruct (close _ _ <? 0); simpl; by split_and!; [| | left |].
Qed.

(** X11. Open, close, open: when the backend's [close] returns 0 the row
    of the descriptor is free again, and opening the same path once more
    returns the same descriptor. *)
Theorem descriptor_reused_after_close (st : vfs_state) (path : list ascii)
    (flags mode : Z) (vfs : pico_vfs_entry_t)
    (open : Z → list ascii → Z → Z → Z * Z) (close : Z → Z → Z) (lfd : Z) :
  registry_ok st →
  pico_vfs_get_vfs_entry_for_path st path = Some vfs →
  op_open (ops vfs) = Some open →
  open (drvctx vfs) (translate_path vfs path) flags mode = (0, lfd) →
  lfd ≠ -1 →
  op_close (ops vfs) = Some close → close (drvctx vfs) lfd = 0 →
  (∃ fd : nat, row_free (s_fd_table st) fd) →
  let st1 := (pico_vfs_open st path flags mode).1 in
  let fd := (pico_vfs_open st path flags mode).2 in
  let st2 := (pico_vfs_close st1 fd).1 in
  (pico_vfs_close st1 fd).2 = 0
  ∧ s_fd_table st2 !! Z.to_nat fd = Some FD_TABLE_ENTRY_UNUSED
  ∧ (pico_vfs_open st2 path flags mode).2 = fd.
Proof.
  intros Hok Hres Hop Hcall Hlfd Hclop Hclose Hfree.
  destruct (open_success_shape _ _ _ _ _ _ _ Hok Hres Hop Hcall Hfree)
    as (fd & Hfd & Hlow & ->).
  pose proof (path_resolution_occupied _ _ _ Hres) as Hocc.
  destruct (occupied_index _ _ Hok Hocc) as (Hc & Hix & Hslot).
  pose proof (row_free_bound _ _ Hfd) as Hlen.
  cbn [fst snd].
  set (row := {| vfs_index := Z.of_nat (index vfs); local_fd := lfd;
                 permanent := false |}).
  set (st1 := set_fd_table (<[fd := row]> (s_fd_table st))
                (emit (EvOpen (index vfs) (translate_path vfs path) flags
                         mode) st)).
  assert (Hlive : fd_live st1 (Z.of_nat fd) vfs lfd).
  { destruct Hok as (_ & _ & _ & Hrows).
    split; [unfold MAX_FDS in *; lia |]. exists row.
    unfold st1, set_fd_table, emit, row.
    cbn [s_fd_table s_vfs s_vfs_count vfs_index local_fd].
    rewrite !Nat2Z.id, list_lookup_insert_eq by done.
    split_and!; (done || lia). }
  rewrite (close_live _ _ _ _ _ Hlive Hclop). rewrite Hclose. cbn zeta.
  change (0 =? 0) with true. change (0 <? 0) with false. cbn iota.
  rewrite Nat2Z.id.
  assert (Hrow1 : s_fd_table st1 !! fd = Some row).
  { unfold st1. simpl. by apply list_lookup_insert_eq. }
  rewrite Hrow1. cbn [permanent row negb fst snd].
  set (st2 := set_fd_table _ _).
  assert (Htbl2 : s_fd_table st2
                  = <[fd := FD_TABLE_ENTRY_UNUSED]> (s_fd_table st)).
  { unfold st2, st1. simpl. apply list_insert_insert_eq. }
  split; [done |].
  split; [rewrite Htbl2; by apply list_lookup_insert_eq |].
  assert (Hok2 : registry_ok st2).
  { destruct Hok as (H1 & H2 & H3 & H4). unfold registry_ok.
    rewrite Htbl2, length_insert. by split_and!. }
  assert (Hres2 : pico_vfs_get_vfs_entry_for_path st2 path = Some vfs).
  { rewrite <- Hres. by apply resolution_ext. }
  assert (Hfree2 : row_free (s_fd_table st2) fd).
  { rewrite Htbl2. exists FD_TABLE_ENTRY_UNUSED.
    split; [by apply list_lookup_insert_eq | done]. }
  destruct (open_success_shape _ _ _ _ _ _ _ Hok2 Hres2 Hop Hcall
              (ex_intro _ fd Hfree2)) as (fd' & Hfd' & Hlow' & ->).
  cbn [snd]. f_equal.
  destruct (Nat.lt_trichotomy fd' fd) as [Hlt | [-> | Hgt]]; [| done |].
  - destruct (Hlow fd' Hlt). destruct Hfd' as (r & Hr & Hv).
    rewrite Htbl2, list_lookup_insert_ne in Hr by lia. by exists r.
  - by destruct (Hlow' fd Hgt).
Qed.

(** ** Reserving a descriptor range *)

Lemma zlookup_nat {A} (l : list A) (k : nat) : zlookup l (Z.of_nat k) = l !! k.
Proof.
  unfold zlookup. destruct (Z.of_nat k <? 0) eqn:E;
    [apply Z.ltb_lt in E; lia | by rewrite Nat2Z.id].
Qed.

(** The rollback loop over the rows [j], ..., [j + n - 1]. *)
Lemma fd_range_rollback_spec ix : ∀ (n j : nat) tbl,
  (j + n ≤ length tbl)%nat →
  ∃ tbl', fd_range_rollback n ix (Z.of_nat j) tbl = Ok tbl'
    ∧ length tbl' = length tbl
    ∧ ∀ k : nat,
        tbl' !! k =
        if decide (j ≤ k < j + n)%nat
        then (λ row, if vfs_index row =? ix then FD_TABLE_ENTRY_UNUSED
                     else row) <$> tbl !! k
        else tbl !! k.
Proof.
  induction n as [| n IH]; intros j tbl Hlen; simpl.
  - exists tbl. split_and!; [done | done |]. intros k.
    destruct (decide _); [lia | done].
  - rewrite zlookup_nat.
    destruct (tbl !! j) as [row|] eqn:Hrow;
      [| apply lookup_ge_None in Hrow; lia].
    replace (Z.of_nat j + 1) with (Z.of_nat (S j)) by lia.
    rewrite Nat2Z.id.
    set (tbl1 := if vfs_index row =? ix
                 then <[j := FD_TABLE_ENTRY_UNUSED]> tbl else tbl).
    assert (Hlen1 : length tbl1 = length tbl).
    { unfold tbl1. destruct (_ =? _); [apply length_insert | done]. }
    destruct (IH (S j) tbl1 ltac:(lia)) as (tbl' & Hrb & Hl' & Hpt).
    exists tbl'. split_and!; [done | lia |]. intros k. rewrite Hpt.
    destruct (decide (k = j)) as [-> | Hne].
    + destruct (decide (S j ≤ j < S j + n)%nat); [lia |].
      destruct (decide (j ≤ j < j + S n)%nat); [| lia].
      rewrite Hrow. unfold tbl1. simpl. destruct (_ =? _); [| done].
      by apply list_lookup_insert_eq; lia.
    + assert (Hk : tbl1 !! k = tbl !! k).
      { unfold tbl1. destruct (_ =? _); [| done].
        by apply list_lookup_insert_ne. }
      rewrite Hk.
      destruct (decide (S j ≤ k < S j + n)%nat);
        destruct (decide (j ≤ k < j + S n)%nat); (done || lia).
Qed.

(** The reservation loop over the rows [i], ..., [i + n - 1]: either all
    are free and all get reserved, or the first occupied one, [c], stops
    the loop and the rollback runs on the table with [i], ..., [c - 1]
    reserved. *)
Lemma fd_range_loop_spec ix (min_fd : nat) : ∀ (n i : nat) tbl,
  (i + n ≤ length tbl)%nat →
  ∃ tbl' r,
    fd_range_loop n ix (Z.of_nat min_fd) (Z.of_nat i) tbl = Ok (tbl', r)
    ∧ ((r = 0
        ∧ (∀ k : nat, (i ≤ k < i + n)%nat → row_free tbl k)
        ∧ rows_reserved (to_int8 ix) i (i + n) tbl tbl')
       ∨ (r = EINVAL
          ∧ ∃ c : nat,
              (i ≤ c < i + n)%nat ∧ ¬ row_free tbl c
              ∧ (∀ k : nat, (i ≤ k < c)%nat → row_free tbl k)
              ∧ ∃ tbl1,
                  rows_reserved (to_int8 ix) i c tbl tbl1
                  ∧ fd_range_rollback (Z.to_nat (Z.of_nat c - Z.of_nat min_fd))
                      ix (Z.of_nat min_fd) tbl1 = Ok tbl')).
Proof.
  induction n as [| n IH]; intros i tbl Hlen; simpl.
  - exists tbl, 0. split; [done |]. left.
    split; [done |]. split; [intros; lia |]. split; [done |].
    intros k. destruct (decide _); [lia | done].
  - rewrite zlookup_nat.
    destruct (tbl !! i) as [row|] eqn:Hrow;
      [| apply lookup_ge_None in Hrow; lia].
    destruct (vfs_index row =? -1) eqn:Hfree; simpl.
    + apply Z.eqb_eq in Hfree.
      replace (Z.of_nat i + 1) with (Z.of_nat (S i)) by lia.
      rewrite Nat2Z.id.
      set (tbl2 := <[i := _]> tbl).
      assert (Hlen2 : length tbl2 = length tbl) by apply length_insert.
      destruct (IH (S i) tbl2 ltac:(lia)) as (tbl' & r & Hloop & Hcases).
      exists tbl', r. split; [done |].
      assert (Hother : ∀ k : nat, k ≠ i → tbl2 !! k = tbl !! k).
      { intros k Hk. by apply list_lookup_insert_ne. }
      assert (Hfree_tr : ∀ k : nat, k ≠ i → row_free tbl2 k ↔ row_free tbl k).
      { intros k Hk. unfold row_free. by rewrite Hother. }
      destruct Hcases as [(-> & Hall & Hl' & Hpt)
                         | (-> & c & Hc & Hocc & Hbefore & tbl1 & (Hl1 & Hpt)
                            & Hrb)].
      * left. split; [done |]. split; [| split; [lia |]].
        -- intros k Hk. destruct (decide (k = i)) as [-> | Hne];
             [by exists row | apply Hfree_tr; [done | apply Hall; lia]].
        -- intros k. rewrite Hpt.
           destruct (decide (k = i)) as [-> | Hne].
           ++ destruct (decide (S i ≤ i < S i + n)%nat); [lia |].
              destruct (decide (i ≤ i < i + S n)%nat); [| lia].
              unfold tbl2. by apply list_lookup_insert_eq; lia.
           ++ rewrite Hother by done.
              destruct (decide (S i ≤ k < S i + n)%nat);
                destruct (decide (i ≤ k < i + S n)%nat); (done || lia).
      * right. split; [done |]. exists c.
        split; [lia |]. split; [| split].
        -- intros Hf. apply Hocc. apply Hfree_tr; [lia | done].
        -- intros k Hk. destruct (decide (k = i)) as [-> | Hne];
             [by exists row | apply Hfree_tr; [done | apply Hbefore; lia]].
        -- exists tbl1. split; [| done]. split; [lia |].
           intros k. rewrite Hpt.
           destruct (decide (k = i)) as [-> | Hne].
           ++ destruct (decide (S i ≤ i < c)%nat); [lia |].
              destruct (decide (i ≤ i < c)%nat); [| lia].
              unfold tbl2. by apply list_lookup_insert_eq; lia.
           ++ rewrite Hother by done.
              destruct (decide (S i ≤ k < c)%nat);
                destruct (decide (i ≤ k < c)%nat); (done || lia).
    + apply Z.eqb_neq in Hfree.
      destruct (fd_range_rollback _ _ _ _) as [tblr | f] eqn:Hrb.
      * simpl. exists tblr, EINVAL. split; [done |]. right.
        split; [done |]. exists i.
        split; [lia |]. split; [| split; [intros; lia |]].
        -- intros (row' & Hrow' & Hv). congruence.
        -- exists tbl. split; [| done]. split; [done |].
           intros k. destruct (decide _); [lia | done].
      * exfalso.
        destruct (decide (min_fd ≤ i)%nat) as [Hle | Hgt].
        -- destruct (fd_range_rollback_spec ix (i - min_fd) min_fd tbl
                       ltac:(lia)) as (t & Ht & _).
           replace (Z.to_nat (Z.of_nat i - Z.of_nat min_fd))
             with (i - min_fd)%nat in Hrb by lia.
           congruence.
        -- replace (Z.to_nat (Z.of_nat i - Z.of_nat min_fd))
             with 0%nat in Hrb by lia.
           done.
Qed.

(** [pico_vfs_register_fd_range] with a range inside the table and a free
    slot left: the backend is stored, then the reservation loop runs. *)
Lemma register_fd_range_cases M st vops ctx (min_fd max_fd : nat) :
  registry_ok st →
  (min_fd ≤ max_fd)%nat → Z.of_nat max_fd < MAX_FDS →
  (∃ i : nat, Z.of_nat i < VFS_MAX_COUNT ∧ ¬ slot_taken st i) →
  ∃ (j : nat) tbl' r,
    (j < length (s_vfs st))%nat ∧ (j ≤ s_vfs_count st)%nat
    ∧ ((j < s_vfs_count st)%nat → s_vfs st !! j = Some None)
    ∧ (∀ i : nat, (i < j)%nat → slot_taken st i)
    ∧ pico_vfs_register_fd_range M st vops ctx (Z.of_nat min_fd)
        (Z.of_nat max_fd) true
      = Ok (set_fd_table tbl'
              (set_registry
                 (<[j := Some (new_entry [] LEN_PATH_PREFIX_IGNORED vops ctx
                                 j)]> (s_vfs st))
                 (if (j =? s_vfs_count st)%nat then S (s_vfs_count st)
                  else s_vfs_count st) st),
            if negb (r =? 0) then -1 else Z.of_nat j)
    ∧ ((r = 0
        ∧ (∀ k : nat, (min_fd ≤ k < S max_fd)%nat →
                      row_free (s_fd_table st) k)
        ∧ rows_reserved (Z.of_nat j) min_fd (S max_fd) (s_fd_table st) tbl')
       ∨ (r = EINVAL
          ∧ ∃ c : nat,
              (min_fd ≤ c < S max_fd)%nat ∧ ¬ row_free (s_fd_table st) c
              ∧ (∀ k : nat, (min_fd ≤ k < c)%nat →
                            row_free (s_fd_table st) k)
              ∧ rows_released min_fd c (s_fd_table st) tbl')).
Proof.
  intros Hok Hle Hmax (i0 & Hi0 & Hfree0).
  pose proof Hok as (Hlen & Hcnt & _ & Htbl).
  unfold VFS_MAX_COUNT, MAX_FDS in *.
  destruct (register_common_cases M st [] LEN_PATH_PREFIX_IGNORED vops ctx
              true (-1) Hok) as (j & Hj & Hnull & Hlow & Hreg).
  change (prefix_rejected M [] LEN_PATH_PREFIX_IGNORED) with false in Hreg.
  cbn [negb] in Hreg.
  destruct ((j =? s_vfs_count st)%nat
            && (Z.of_nat (s_vfs_count st) >=? VFS_MAX_COUNT)) eqn:Hfull.
  { exfalso. apply andb_true_iff in Hfull as [Hjc Hge].
    apply Nat.eqb_eq in Hjc. unfold VFS_MAX_COUNT in Hge.
    apply Z.geb_le in Hge. apply Hfree0, Hlow. lia. }
  assert (Hjlen : (j < length (s_vfs st))%nat).
  { apply andb_false_iff in Hfull as [Hjc | Hge].
    - apply Nat.eqb_neq in Hjc. lia.
    - unfold VFS_MAX_COUNT in Hge. rewrite Z.geb_leb in Hge.
      apply Z.leb_gt in Hge. lia. }
  destruct (fd_range_loop_spec (Z.of_nat j) min_fd (S max_fd - min_fd) min_fd
              (s_fd_table st) ltac:(lia)) as (tbl' & r & Hloop & Hcases).
  assert (Hi8 : to_int8 (Z.of_nat j) = Z.of_nat j)
    by (apply to_int8_small; lia).
  rewrite Hi8 in Hcases.
  replace (min_fd + (S max_fd - min_fd))%nat with (S max_fd) in Hcases by lia.
  exists j, tbl', r. split_and!; [done | done | done | done | |].
  - unfold pico_vfs_register_fd_range.
    assert (Hacc : fd_range_rejected (Z.of_nat min_fd) (Z.of_nat max_fd)
                   = false).
    { apply fd_range_accepted. unfold MAX_FDS. lia. }
    rewrite Hacc, Hreg. cbn [Z.eqb].
    unfold pico_vfs_register_fd_range_for_vfs_index.
    replace (Z.to_nat (Z.of_nat max_fd - Z.of_nat min_fd + 1))
      with (S max_fd - min_fd)%nat by lia.
    change (s_fd_table (set_registry ?a ?b st)) with (s_fd_table st).
    rewrite Hloop. reflexivity.
  - destruct Hcases as [(-> & Hall & Hres)
                       | (-> & c & Hc & Hocc & Hbefore & tbl1 & (Hl1 & Hpt)
                          & Hrb)].
    + left. done.
    + right. split; [done |]. exists c.
      split; [done |]. split; [done |]. split; [done |].
      replace (Z.to_nat (Z.of_nat c - Z.of_nat min_fd))
        with (c - min_fd)%nat in Hrb by lia.
      destruct (fd_range_rollback_spec (Z.of_nat j) (c - min_fd) min_fd tbl1
                  ltac:(lia)) as (t & Ht & Hlt & Hptt).
      rewrite Ht in Hrb. injection Hrb as <-.
      split; [lia |]. intros k. rewrite Hptt, Hpt.
      replace (min_fd + (c - min_fd))%nat with c by lia.
      destruct (decide (min_fd ≤ k < c)%nat); [| done].
      cbn. by rewrite Z.eqb_refl.
Qed.

Lemma reserved_row_live st tbl' (j k : nat) e count' slots :
  (k < Z.to_nat MAX_FDS)%nat →
  tbl' !! k = Some (reserved_row (Z.of_nat j) (Z.of_nat k)) →
  (j < count')%nat → slots !! j = Some (Some e) →
  let st' := set_fd_table tbl' (set_registry slots count' st) in
  pico_vfs_get_vfs_for_fd st' (Z.of_nat k) = Some e
  ∧ pico_vfs_local_fd st' (pico_vfs_get_vfs_for_fd st' (Z.of_nat k))
      (Z.of_nat k) = Z.of_nat k.
Proof.
  intros Hk Hrow Hj He st'. unfold MAX_FDS in Hk.
  assert (Hget : pico_vfs_get_vfs_for_fd st' (Z.of_nat k) = Some e).
  { unfold pico_vfs_get_vfs_for_fd, pico_vfs_valid_fd, MAX_FDS.
    replace ((Z.of_nat k <? 16) && (Z.of_nat k >=? 0)) with true
      by (symmetry; apply andb_true_iff; split;
          [apply Z.ltb_lt | apply Z.geb_le]; lia).
    rewrite zlookup_nat. subst st'. cbn [s_fd_table set_fd_table].
    rewrite Hrow. cbn [vfs_index reserved_row].
    unfold pico_vfs_get_vfs_entry_for_index.
    cbn [s_vfs_count s_vfs set_fd_table set_registry].
    replace ((Z.of_nat j <? 0) || (Z.of_nat j >=? Z.of_nat count'))
      with false
      by (symmetry; apply orb_false_iff; split;
          [apply Z.ltb_ge | rewrite Z.geb_leb; apply Z.leb_gt]; lia).
    by rewrite Nat2Z.id, He. }
  split; [done |]. rewrite Hget.
  unfold pico_vfs_local_fd, pico_vfs_valid_fd, MAX_FDS.
  replace ((Z.of_nat k <? 16) && (Z.of_nat k >=? 0)) with true
    by (symmetry; apply andb_true_iff; split;
        [apply Z.ltb_lt | apply Z.geb_le]; lia).
  rewrite zlookup_nat. subst st'. cbn [s_fd_table set_fd_table].
  by rewrite Hrow.
Qed.

(** X14. Reserving a range of free descriptors [min_fd..max_fd] inside the
    table while a slot is free: the backend takes the lowest free slot,
    exactly the rows of the range become permanent rows of that backend
    with the descriptor as the local descriptor, and each descriptor of
    the range then dispatches to the new backend. *)
Theorem register_fd_range_reserves (M : Z) (st : vfs_state)
    (vops : pico_vfs_ops_t) (ctx : Z) (min_fd max_fd : nat) :
  registry_ok st → registry_tail_free st →
  (min_fd ≤ max_fd)%nat → Z.of_nat max_fd < MAX_FDS →
  (∀ k : nat, (min_fd ≤ k ≤ max_fd)%nat → row_free (s_fd_table st) k) →
  (∃ i : nat, Z.of_nat i < VFS_MAX_COUNT ∧ ¬ slot_taken st i) →
  ∃ st' (ix : nat),
    pico_vfs_register_fd_range M st vops ctx (Z.of_nat min_fd)
      (Z.of_nat max_fd) true = Ok (st', Z.of_nat ix)
    ∧ Z.of_nat ix < VFS_MAX_COUNT
    ∧ ¬ slot_taken st ix
    ∧ (∀ i : nat, (i < ix)%nat → slot_taken st i)
    ∧ rows_reserved (Z.of_nat ix) min_fd (S max_fd) (s_fd_table st)
        (s_fd_table st')
    ∧ ∀ fd : nat, (min_fd ≤ fd ≤ max_fd)%nat →
        pico_vfs_get_vfs_for_fd st' (Z.of_nat fd)
        = Some (new_entry [] LEN_PATH_PREFIX_IGNORED vops ctx ix)
        ∧ pico_vfs_local_fd st' (pico_vfs_get_vfs_for_fd st' (Z.of_nat fd))
            (Z.of_nat fd) = Z.of_nat fd.
Proof.
  intros Hok Htail Hle Hmax Hfree Hslot.
  destruct (register_fd_range_cases M st vops ctx min_fd max_fd Hok Hle Hmax
              Hslot)
    as (j & tbl' & r & Hjlen & Hj & Hnull & Hlow & Hcall & Hcases).
  pose proof Hok as (Hlen & Hcnt & _ & Htbl).
  destruct Hcases as [(-> & _ & Hres) | (-> & c & Hc & Hocc & _)];
    [| exfalso; apply Hocc, Hfree; lia].
  eexists _, j. split; [exact Hcall |].
  unfold VFS_MAX_COUNT in *.
  split_and!; [lia | | done | done |].
  - intros (e & He). destruct (decide (j < s_vfs_count st)%nat) as [Hlt | Hge].
    + rewrite Hnull in He by done. done.
    + rewrite Htail in He by lia. done.
  - intros fd Hfd.
    apply (reserved_row_live st tbl' j fd
             (new_entry [] LEN_PATH_PREFIX_IGNORED vops ctx j)).
    + unfold MAX_FDS in *. lia.
    + destruct Hres as (_ & Hpt). rewrite Hpt.
      destruct (decide (min_fd ≤ fd < S max_fd)%nat); [done | lia].
    + by apply new_count_above.
    + by apply list_lookup_insert_eq.
Qed.

(** X15. Reserving a range whose first occupied row is [c]: the call
    returns -1 and the rows before [c] are free again, every other row is
    untouched, but the backend stored for the range stays in the lowest
    free slot, which is therefore used up. *)
Theorem register_fd_range_collision (M : Z) (st : vfs_state)
    (vops : pico_vfs_ops_t) (ctx : Z) (min_fd max_fd c : nat) :
  registry_ok st → registry_tail_free st →
  Z.of_nat max_fd < MAX_FDS →
  (min_fd ≤ c ≤ max_fd)%nat →
  ¬ row_free (s_fd_table st) c →
  (∀ k : nat, (min_fd ≤ k < c)%nat → row_free (s_fd_table st) k) →
  (∃ i : nat, Z.of_nat i < VFS_MAX_COUNT ∧ ¬ slot_taken st i) →
  ∃ st' (ix : nat),
    pico_vfs_register_fd_range M st vops ctx (Z.of_nat min_fd)
      (Z.of_nat max_fd) true = Ok (st', -1)
    ∧ rows_released min_fd c (s_fd_table st) (s_fd_table st')
    ∧ Z.of_nat ix < VFS_MAX_COUNT
    ∧ ¬ slot_taken st ix
    ∧ pico_vfs_get_vfs_entry_for_index st' (Z.of_nat ix)
      = Some (new_entry [] LEN_PATH_PREFIX_IGNORED vops ctx ix)
    ∧ ∀ i : nat, i ≠ ix → s_vfs st' !! i = s_vfs st !! i.
Proof.
  intros Hok Htail Hmax Hc Hocc Hbefore Hslot.
  destruct (register_fd_range_cases M st vops ctx min_fd max_fd Hok
              ltac:(lia) Hmax Hslot)
    as (j & tbl' & r & Hjlen & Hj & Hnull & Hlow & Hcall & Hcases).
  pose proof Hok as (Hlen & Hcnt & _ & Htbl).
  destruct Hcases as [(-> & Hall & _)
                     | (-> & c' & Hc' & Hocc' & Hbefore' & Hrel)];
    [exfalso; apply Hocc, Hall; lia |].
  assert (c' = c) as ->.
  { destruct (Nat.lt_trichotomy c' c) as [Hlt | [-> | Hgt]]; [| done |].
    - exfalso. apply Hocc', Hbefore. lia.
    - exfalso. apply Hocc, Hbefore'. lia. }
  eexists _, j. split; [exact Hcall |].
  unfold VFS_MAX_COUNT in *.
  split_and!; [done | lia | | |].
  - intros (e & He). destruct (decide (j < s_vfs_count st)%nat) as [Hlt | Hge].
    + rewrite Hnull in He by done. done.
    + rewrite Htail in He by lia. done.
  - apply (get_index_inserted (set_fd_table tbl' st)); [done |].
    by apply new_count_above.
  - intros i Hi. cbn [s_vfs set_fd_table set_registry].
    by apply list_lookup_insert_ne.
Qed.

(** ** Listing the root directory *)

Lemma root_dir_names_cons slot rest :
  root_dir_names (slot :: rest)
  = match slot with
    | Some e =>
      match path_prefix e with
      | [] => root_dir_names rest
      | c :: p => (if Ascii.eqb c "/" then p else c :: p) :: root_dir_names rest
      end
    | None => root_dir_names rest
    end.
Proof. destruct slot as [e|]; [| done]. cbn. by destruct (path_prefix e). Qed.

(** The scan loop of [pico_vfs_root_readdir] from slot [k] finds the first
    slot with a name. *)
Lemma root_readdir_scan_names slots : ∀ (fuel k : nat),
  length slots = Z.to_nat VFS_MAX_COUNT →
  (∀ e, Some e ∈ slots → zero ∉ path_prefix e) →
  (k < length slots)%nat → (length slots ≤ k + fuel)%nat →
  match root_dir_names (drop k slots) with
  | [] => root_readdir_scan fuel slots (Z.of_nat k)
          = Ok (None, VFS_MAX_COUNT)
  | nm :: rest =>
    ∃ (j : nat) e,
      (k ≤ j < length slots)%nat
      ∧ root_readdir_scan fuel slots (Z.of_nat k) = Ok (Some e, Z.of_nat j)
      ∧ (if Ascii.eqb (char_at (path_prefix e) 0) "/"
         then drop 1 (path_prefix e) else path_prefix e) = nm
      ∧ root_dir_names (drop (S j) slots) = rest
  end.
Proof.
  induction fuel as [| fuel IH]; intros k Hlen Hnul Hk Hfuel; [lia |].
  destruct (lookup_lt_is_Some_2 slots k Hk) as [slot Hslot].
  rewrite (drop_S _ _ _ Hslot), root_dir_names_cons.
  cbn [root_readdir_scan]. rewrite zlookup_nat, Hslot.
  assert (Hnext : ∀ fuel',
            (length slots ≤ S k + fuel')%nat →
            (∀ k', (k' < length slots)%nat → (length slots ≤ k' + fuel')%nat →
               match root_dir_names (drop k' slots) with
               | [] => root_readdir_scan fuel' slots (Z.of_nat k')
                       = Ok (None, VFS_MAX_COUNT)
               | nm :: rest =>
                 ∃ (j : nat) e,
                   (k' ≤ j < length slots)%nat
                   ∧ root_readdir_scan fuel' slots (Z.of_nat k')
                     = Ok (Some e, Z.of_nat j)
                   ∧ (if Ascii.eqb (char_at (path_prefix e) 0) "/"
                      then drop 1 (path_prefix e) else path_prefix e) = nm
                   ∧ root_dir_names (drop (S j) slots) = rest
               end) →
            match root_dir_names (drop (S k) slots) with
            | [] =>
              (if Z.of_nat k + 1 <? VFS_MAX_COUNT
               then root_readdir_scan fuel' slots (Z.of_nat k + 1)
               else Ok (None, Z.of_nat k + 1)) = Ok (None, VFS_MAX_COUNT)
            | nm :: rest =>
              ∃ (j : nat) e,
                (k ≤ j < length slots)%nat
                ∧ (if Z.of_nat k + 1 <? VFS_MAX_COUNT
                   then root_readdir_scan fuel' slots (Z.of_nat k + 1)
                   else Ok (None, Z.of_nat k + 1)) = Ok (Some e, Z.of_nat j)
                ∧ (if Ascii.eqb (char_at (path_prefix e) 0) "/"
                   then drop 1 (path_prefix e) else path_prefix e) = nm
                ∧ root_dir_names (drop (S j) slots) = rest
            end).
  { intros fuel' Hf Hrec. unfold VFS_MAX_COUNT in *.
    destruct (Z.of_nat k + 1 <? 4) eqn:Hlt.
    - apply Z.ltb_lt in Hlt.
      specialize (Hrec (S k) ltac:(lia) ltac:(lia)).
      replace (Z.of_nat k + 1) with (Z.of_nat (S k)) by lia.
      destruct (root_dir_names (drop (S k) slots)) as [| nm rest]; [done |].
      destruct Hrec as (j & e & Hj & Hscan & Hnm & Hrest).
      exists j, e. split_and!; (done || lia).
    - apply Z.ltb_ge in Hlt.
      rewrite drop_ge by lia. cbn. f_equal. f_equal. lia. }
  specialize (Hnext fuel ltac:(lia) (λ k' H1 H2, IH k' Hlen Hnul H1 H2)).
  destruct slot as [e|]; [| exact Hnext].
  assert (Hin : Some e ∈ slots) by (by eapply list_elem_of_lookup_2).
  specialize (Hnul e Hin).
  destruct (path_prefix e) as [| c p] eqn:Hp.
  - change (char_at [] 0) with zero. rewrite Ascii.eqb_refl.
    exact Hnext.
  - change (char_at (c :: p) 0) with c.
    destruct (Ascii.eqb c zero) eqn:Hz.
    { apply Ascii.eqb_eq in Hz. subst c. exfalso. apply Hnul. left. }
    exists k, e. split_and!; [lia | lia | done | | done].
    rewrite Hp. change (char_at (c :: p) 0) with c.
    by destruct (Ascii.eqb c "/").
Qed.

Lemma root_readdir_scan_found slots : ∀ (fuel : nat) (c c' : Z) e,
  root_readdir_scan fuel slots c = Ok (Some e, c') → Some e ∈ slots.
Proof.
  induction fuel as [| fuel IH]; intros c c' e; simpl; [done |].
  destruct (zlookup slots c) as [slot|] eqn:Hz; [| done].
  assert (Hin : slot ∈ slots).
  { unfold zlookup in Hz. destruct (c <? 0); [done |].
    by eapply list_elem_of_lookup_2. }
  destruct (match slot with Some vfs => _ | None => true end).
  - destruct (c + 1 <? VFS_MAX_COUNT); [apply IH | done].
  - by intros [= -> _].
Qed.

(** One [readdir] on the root directory at offset [k], every stored prefix
    having its terminator inside the array. *)
Lemma root_readdir_step M st dir (k : nat) :
  length (s_vfs st) = Z.to_nat VFS_MAX_COUNT →
  (∀ e, Some e ∈ s_vfs st → zero ∉ path_prefix e) →
  (∀ e, Some e ∈ s_vfs st → strlen (path_prefix e) < M) →
  d_off dir = Z.of_nat k →
  match root_dir_names (drop k (s_vfs st)) with
  | [] => pico_vfs_root_readdir M st dir = Ok (dir, None)
  | nm :: rest =>
    ∃ j : nat,
      (k ≤ j < length (s_vfs st))%nat
      ∧ pico_vfs_root_readdir M st dir
        = Ok ({| d_vfs_index := d_vfs_index dir; d_off := Z.of_nat (S j) |},
              Some {| d_type := DT_DIR; d_name := nm |})
      ∧ root_dir_names (drop (S j) (s_vfs st)) = rest
  end.
Proof.
  intros Hlen Hnul Hshort Hoff. unfold pico_vfs_root_readdir. rewrite Hoff.
  destruct (Z.of_nat k >=? VFS_MAX_COUNT) eqn:Hge.
  - apply Z.geb_le in Hge. unfold VFS_MAX_COUNT in *.
    rewrite drop_ge by lia. done.
  - rewrite Z.geb_leb in Hge. apply Z.leb_gt in Hge.
    pose proof (root_readdir_scan_names (s_vfs st) (Z.to_nat VFS_MAX_COUNT) k
                  Hlen Hnul) as Hscan.
    unfold VFS_MAX_COUNT in *.
    specialize (Hscan ltac:(lia) ltac:(lia)).
    destruct (root_dir_names (drop k (s_vfs st))) as [| nm rest].
    + by rewrite Hscan.
    + destruct Hscan as (j & e & Hj & Hrun & Hnm & Hrest).
      pose proof (root_readdir_scan_found _ _ _ _ _ Hrun) as Hin.
      rewrite Hrun. exists j. split_and!; [lia | lia | | done].
      cbn [mbind result_bind]. unfold stored_prefix_string.
      specialize (Hshort e Hin). apply Z.ltb_lt in Hshort. rewrite Hshort.
      cbn [mbind result_bind]. rewrite Hnm, to_ushort_small by lia.
      do 3 f_equal. lia.
Qed.

(** X16. Reading the root directory entry by entry until [readdir] returns
    NULL, when every stored prefix is shorter than
    [PICO_VFS_BASE_PATH_MAX], lists the registered backends that have a path
    prefix, in slot order and each once, as directories named by the prefix
    without its leading slash (each entry as read right after the call
    that returns it); at the end the handle stays where it is and
    [readdir] keeps returning NULL. A [readdir] that arrives at a backend
    whose prefix has [PICO_VFS_BASE_PATH_MAX] characters reads past the
    array [path_prefix] when it copies the name. *)
Theorem root_readdir_lists_backends (M : Z) (st : vfs_state)
    (dir : pico_vfs_internal_dir_t) (n : nat) :
  length (s_vfs st) = Z.to_nat VFS_MAX_COUNT →
  (∀ e, Some e ∈ s_vfs st → zero ∉ path_prefix e) →
  d_off dir = 0 →
  (length (root_dir_names (s_vfs st)) < n)%nat →
  ((∀ e, Some e ∈ s_vfs st → strlen (path_prefix e) < M) →
   ∃ dir',
     root_readdir_all M n st dir
     = Ok ((λ nm, {| d_type := DT_DIR; d_name := nm |})
             <$> root_dir_names (s_vfs st), dir')
     ∧ d_vfs_index dir' = d_vfs_index dir
     ∧ pico_vfs_root_readdir M st dir' = Ok (dir', None))
  ∧ (∀ (k : nat) e,
       s_vfs st !! k = Some (Some e) → path_prefix e ≠ [] →
       M ≤ strlen (path_prefix e) →
       pico_vfs_root_readdir M st
         {| d_vfs_index := d_vfs_index dir; d_off := Z.of_nat k |}
       = Fault (OutOfBounds M)).
Proof.
  intros Hlen Hnul Hoff Hn. split.
  - intros Hshort.
    assert (Hgen : ∀ (n k : nat) dir,
              d_off dir = Z.of_nat k →
              (length (root_dir_names (drop k (s_vfs st))) < n)%nat →
              ∃ dir',
                root_readdir_all M n st dir
                = Ok ((λ nm, {| d_type := DT_DIR; d_name := nm |})
                        <$> root_dir_names (drop k (s_vfs st)), dir')
                ∧ d_vfs_index dir' = d_vfs_index dir
                ∧ pico_vfs_root_readdir M st dir' = Ok (dir', None)).
    { clear dir n Hoff Hn.
      induction n as [| n IH]; intros k dir Hoff Hn; [lia |].
      pose proof (root_readdir_step M st dir k Hlen Hnul Hshort Hoff)
        as Hstep.
      cbn [root_readdir_all].
      destruct (root_dir_names (drop k (s_vfs st))) as [| nm rest].
      - rewrite Hstep. by exists dir.
      - destruct Hstep as (j & Hj & -> & Hrest). cbn.
        destruct (IH (S j) {| d_vfs_index := d_vfs_index dir;
                              d_off := Z.of_nat (S j) |} eq_refl)
          as (dir' & Hall & Hix & Hend).
        { rewrite Hrest. cbn in Hn. lia. }
        rewrite Hall, Hrest. cbn. by exists dir'. }
    apply (Hgen n 0%nat dir); [by rewrite Hoff | done].
  - intros k e Hl Hne HM.
    assert (Hk : (k < 4)%nat).
    { apply lookup_lt_Some in Hl. rewrite Hlen in Hl.
      unfold VFS_MAX_COUNT in Hl. lia. }
    assert (Hin : Some e ∈ s_vfs st) by (by eapply list_elem_of_lookup_2).
    specialize (Hnul e Hin).
    unfold pico_vfs_root_readdir. cbn [d_off].
    destruct (Z.of_nat k >=? VFS_MAX_COUNT) eqn:Hge.
    { apply Z.geb_le in Hge. unfold VFS_MAX_COUNT in Hge. lia. }
    change (Z.to_nat VFS_MAX_COUNT) with 4%nat.
    cbn [root_readdir_scan]. rewrite zlookup_nat, Hl.
    destruct (path_prefix e) as [| c p] eqn:Hp; [done |].
    change (char_at (c :: p) 0) with c.
    destruct (Ascii.eqb c zero) eqn:Hz.
    { apply Ascii.eqb_eq in Hz. subst c. exfalso. apply Hnul. left. }
    cbn [mbind result_bind]. unfold stored_prefix_string. rewrite Hp.
    apply Z.ltb_ge in HM. by rewrite HM.
Qed.

(** ** The scenario states meet the hypotheses *)

Lemma st_root_ok : registry_ok st_root.
Proof. apply pico_vfs_init_ok. Qed.

Lemma st_root_wf : registry_wf st_root.
Proof. apply pico_vfs_init_wf, sample_base_path_max_fits. Qed.

Lemma st_root_tail_free : registry_tail_free st_root.
Proof. apply pico_vfs_init_tail_free. Qed.

Lemma st_dev_wf : registry_wf st_dev.
Proof.
  apply pico_vfs_register_wf;
    [apply sample_base_path_max_fits | apply st_root_ok | apply st_root_wf].
Qed.

Lemma st_dev_tail_free : registry_tail_free st_dev.
Proof.
  apply pico_vfs_register_tail_free;
    [apply st_root_ok | apply st_root_tail_free].
Qed.

Lemma st_opened_tail_free : registry_tail_free st_opened.
Proof. exact st_dev_tail_free. Qed.

Lemma boot_rows_free (st : vfs_state) (k : nat) :
  s_fd_table st = s_fd_table boot_state →
  (k < Z.to_nat MAX_FDS)%nat → row_free (s_fd_table st) k.
Proof.
  intros -> Hk. unfold boot_state. cbn [s_fd_table].
  eexists. split; [by apply lookup_replicate_2 | done].
Qed.

Lemma no_nul_in (p : list ascii) :
  forallb (λ c, negb (Ascii.eqb c zero)) p = true → zero ∉ p.
Proof.
  intros H Hin. rewrite forallb_forall in H.
  apply list_elem_of_In in Hin. specialize (H zero Hin). done.
Qed.

Lemma short_in_slots (M : Z) (slots : list (option pico_vfs_entry_t)) :
  forallb (λ slot : option pico_vfs_entry_t,
             match slot with
             | Some e => strlen (path_prefix e) <? M
             | None => true
             end) slots = true →
  ∀ e, Some e ∈ slots → strlen (path_prefix e) < M.
Proof.
  intros H e He. rewrite forallb_forall in H.
  apply list_elem_of_In in He. apply Z.ltb_lt, (H (Some e) He).
Qed.

Lemma no_nul_in_slots (slots : list (option pico_vfs_entry_t)) :
  forallb (λ slot : option pico_vfs_entry_t,
             match slot with
             | Some e => forallb (λ c, negb (Ascii.eqb c zero)) (path_prefix e)
             | None => true
             end) slots = true →
  ∀ e, Some e ∈ slots → zero ∉ path_prefix e.
Proof.
  intros H e He. rewrite forallb_forall in H.
  apply list_elem_of_In in He. by apply no_nul_in, (H (Some e)).
Qed.

(** ** The properties in the scenario states *)

(** The theorem for the root backend in the registry holding [/dev] and
    [/dev/uart], and a path outside both. *)
Lemma default_backend_catches_all_witness :
  ∃ e, pico_vfs_get_vfs_entry_for_path st_dev_uart (cstr "/home/x") = Some e
       ∧ path_matches (cstr "/home/x") e
       ∧ (path_prefix e = [] →
          ∀ e', occupied st_dev_uart e' → path_matches (cstr "/home/x") e' →
                path_prefix e' = []).
Proof.
  eapply (default_backend_catches_all st_dev_uart _ (cstr "/home/x")
            st_dev_uart_wf).
  - exists 0%nat. split; [vm_compute; lia | reflexivity].
  - reflexivity.
Defined.

(** The theorem for [/dev/x] resolved to the [/dev] backend. *)
Lemma translate_path_of_resolved_witness :
  pico_vfs_get_vfs_entry_for_path st_dev (cstr "/dev/x") = Some dev_entry
  ∧ (cstr "/dev/x" = path_prefix dev_entry →
     translate_path dev_entry (cstr "/dev/x") = cstr "/")
  ∧ (cstr "/dev/x" ≠ path_prefix dev_entry →
     path_prefix dev_entry ++ translate_path dev_entry (cstr "/dev/x")
     = cstr "/dev/x"
     ∧ (path_prefix dev_entry ≠ [] →
        head (translate_path dev_entry (cstr "/dev/x")) = Some "/"%char)).
Proof.
  split; [reflexivity |].
  exact (translate_path_of_resolved st_dev (cstr "/dev/x") dev_entry
           st_dev_wf eq_refl).
Defined.

(** The theorem for the name [x] below the [/dev] backend, with a
    16-byte buffer. *)
Lemma concat_path_then_translate_witness :
  pico_vfs_concat_path (path_prefix dev_entry) (cstr "x") 16
  = (Some (path_prefix dev_entry ++ "/"%char :: cstr "x"),
     strlen (path_prefix dev_entry) + 1 + strlen (cstr "x"))
  ∧ translate_path dev_entry (path_prefix dev_entry ++ "/"%char :: cstr "x")
    = "/"%char :: cstr "x".
Proof.
  apply (concat_path_then_translate dev_entry (cstr "x") 16).
  - reflexivity.
  - apply no_nul_in. reflexivity.
  - discriminate.
  - reflexivity.
Defined.

(** The theorem for the prefix [/dev] with at most 16 characters
    allowed. *)
Lemma register_common_checks_prefix_witness :
  prefix_valid 16 (cstr "/dev")
  ∧ let out := pico_vfs_register_common 16 st_root (cstr "/dev")
                 (strlen (cstr "/dev")) (sample_ops 0 7 0) 0 true (-1) in
    (¬ prefix_valid 16 (cstr "/dev") → out = (st_root, EINVAL, -1))
    ∧ (prefix_valid 16 (cstr "/dev") → out.1.2 ≠ EINVAL).
Proof.
  split.
  - right. split; [split; [discriminate | discriminate] |].
    split; [reflexivity | discriminate].
  - apply (register_common_checks_prefix 16 st_root (cstr "/dev")
             (sample_ops 0 7 0) 0 true (-1)); discriminate.
Defined.

(** The theorem for [/dev] registered after the root backend. *)
Lemma register_takes_lowest_free_slot_witness :
  pico_vfs_register sample_base_path_max st_root (cstr "/dev")
    (sample_ops 0 7 0) 0 true = (st_dev, 1)
  ∧ ∃ ix : nat,
      1 = Z.of_nat ix ∧ Z.of_nat ix < VFS_MAX_COUNT
      ∧ ¬ slot_taken st_root ix
      ∧ (∀ i : nat, (i < ix)%nat → slot_taken st_root i)
      ∧ pico_vfs_get_vfs_entry_for_index st_dev 1
        = Some {| ops := sample_ops 0 7 0; path_prefix := cstr "/dev";
                  path_prefix_len := strlen (cstr "/dev"); index := ix;
                  drvctx := 0 |}
      ∧ (∀ i : nat, i ≠ ix → s_vfs st_dev !! i = s_vfs st_root !! i)
      ∧ s_fd_table st_dev = s_fd_table st_root.
Proof.
  split; [reflexivity |].
  apply (register_takes_lowest_free_slot sample_base_path_max st_root st_dev
           (cstr "/dev") (sample_ops 0 7 0) 0 true 1
           st_root_ok st_root_tail_free).
  - discriminate.
  - reflexivity.
  - discriminate.
Defined.

(** The theorem for [/dev] and the registry holding the root backend
    only. *)
Lemma register_fails_only_when_full_witness :
  prefix_valid sample_base_path_max (cstr "/dev")
  ∧ ((pico_vfs_register sample_base_path_max st_root (cstr "/dev")
        (sample_ops 0 7 0) 0 true).2 = -1
     ↔ ∀ i : nat, Z.of_nat i < VFS_MAX_COUNT → slot_taken st_root i).
Proof.
  assert (Hv : prefix_valid sample_base_path_max (cstr "/dev")).
  { right. split; [split; [discriminate | discriminate] |].
    split; [reflexivity | discriminate]. }
  split; [exact Hv |].
  apply (register_fails_only_when_full sample_base_path_max st_root
           (cstr "/dev") (sample_ops 0 7 0) 0
           st_root_ok st_root_tail_free).
  - discriminate.
  - discriminate.
  - exact Hv.
Defined.

(** The theorem for [/dev] registered after the root backend and the
    path [/dev/x]. *)
Lemma registered_prefix_resolves_witness :
  pico_vfs_register sample_base_path_max st_root (cstr "/dev")
    (sample_ops 0 7 0) 0 true = (st_dev, 1)
  ∧ ∃ e, pico_vfs_get_vfs_entry_for_path st_dev (cstr "/dev/x") = Some e
         ∧ path_prefix e `prefix_of` cstr "/dev/x"
         ∧ (length (cstr "/dev") ≤ length (path_prefix e))%nat
         ∧ (cstr "/dev/x" = cstr "/dev" → path_prefix e = cstr "/dev").
Proof.
  split; [reflexivity |].
  apply (registered_prefix_resolves sample_base_path_max st_root st_dev
           (cstr "/dev") (cstr "/dev/x") (sample_ops 0 7 0) 0 true 1
           st_root_ok st_root_wf sample_base_path_max_fits).
  - discriminate.
  - discriminate.
  - reflexivity.
  - discriminate.
  - right. exists (cstr "x"). reflexivity.
Defined.

(** The theorem for [/dev] registered after the root backend and removed
    again. *)
Lemma register_then_unregister_witness :
  pico_vfs_register sample_base_path_max st_root (cstr "/dev")
    (sample_ops 0 7 0) 0 true = (st_dev, 1)
  ∧ strlen (cstr "/dev") < sample_base_path_max
  ∧ ∃ st2,
      pico_vfs_unregister sample_base_path_max st_dev 1 = Ok (st2, 0)
      ∧ s_vfs st2 = s_vfs st_root
      ∧ s_fd_table st2 = s_fd_table st_root
      ∧ errno st2 = errno st_root
      ∧ events st2
        = events st_root ++ [EvRegister (cstr "/dev");
                             EvDeregister (cstr "/dev")]
      ∧ (s_vfs_count st_root ≤ s_vfs_count st2 ≤ S (s_vfs_count st_root))%nat
      ∧ (∀ p, pico_vfs_get_vfs_entry_for_path st2 p
              = pico_vfs_get_vfs_entry_for_path st_root p)
      ∧ (∀ i, pico_vfs_get_vfs_entry_for_index st2 i
              = pico_vfs_get_vfs_entry_for_index st_root i).
Proof.
  split; [reflexivity |]. split; [reflexivity |].
  refine (proj1 (register_then_unregister sample_base_path_max st_root st_dev
                   (cstr "/dev") (sample_ops 0 7 0) 0 true 1
                   st_root_ok st_root_tail_free _ eq_refl _) _);
    [discriminate | discriminate | reflexivity].
Defined.

(** A prefix of 16 characters is registered when
    [PICO_VFS_BASE_PATH_MAX] is 16, and cannot be unregistered: the copy
    of the prefix does not fit the 16 bytes of [path]. *)
Example unregister_overruns_on_longest_prefix :
  (pico_vfs_register 16 st_root (cstr "/aaaaaaaaaaaaaaa") (sample_ops 0 7 0)
     0 true).2 = 1
  ∧ pico_vfs_unregister 16
      (pico_vfs_register 16 st_root (cstr "/aaaaaaaaaaaaaaa")
         (sample_ops 0 7 0) 0 true).1 1
    = Fault (OutOfBounds 16).
Proof. split; reflexivity. Qed.

(** The theorem for the [/dev] backend, unregistered twice. *)
Lemma unregister_twice_witness :
  zlookup (s_vfs st_dev) 1 = Some (Some dev_entry)
  ∧ strlen (path_prefix dev_entry) < sample_base_path_max
  ∧ ∃ st1,
      pico_vfs_unregister sample_base_path_max st_dev 1 = Ok (st1, 0)
      ∧ events st1 = events st_dev ++ [EvDeregister (path_prefix dev_entry)]
      ∧ s_vfs st1 = <[Z.to_nat 1 := None]> (s_vfs st_dev)
      ∧ s_vfs_count st1 = s_vfs_count st_dev
      ∧ s_fd_table st1 = s_fd_table st_dev
      ∧ pico_vfs_unregister sample_base_path_max st1 1 = Ok (st1, -1).
Proof.
  split; [reflexivity |]. split; [reflexivity |].
  refine (proj1 (unregister_twice sample_base_path_max st_dev 1 dev_entry
                   eq_refl) _).
  reflexivity.
Defined.

(** The theorem for the live descriptor 0 of [/dev/x] and the [close]
    entry of its backend, and for descriptor 5, which no one opened. *)
Lemma descriptor_call_dispatch_witness :
  fd_live st_opened 0 dev_entry 7
  ∧ vfs_generic_reent_call op_close st_opened 0 = (st_opened, 0)
  ∧ vfs_generic_reent_call op_close st_opened 5
    = (set_errno EBADF st_opened, -1).
Proof.
  assert (Hlive : fd_live st_opened 0 dev_entry 7).
  { split; [unfold MAX_FDS; lia |]. eexists. split; [reflexivity |].
    split; [split; [vm_compute; discriminate | reflexivity] |].
    split; [reflexivity |]. split; [reflexivity | discriminate]. }
  split; [exact Hlive |]. split.
  - exact (proj1 (descriptor_call_dispatch op_close st_opened 0)
             dev_entry 7 Hlive).
  - apply (proj2 (descriptor_call_dispatch op_close st_opened 5)).
    intros v lfd (_ & row & Hrow & (Hlo & _) & _).
    injection Hrow as <-. apply Hlo. reflexivity.
Defined.

(** The theorem for [/dev/x] opened on the [/dev] backend, which hands out
    local descriptor 7. *)
Lemma open_then_descriptor_call_witness :
  let st' := (pico_vfs_open st_dev (cstr "/dev/x") 0 0).1 in
  let fd := (pico_vfs_open st_dev (cstr "/dev/x") 0 0).2 in
  pico_vfs_get_vfs_for_fd st' fd = Some dev_entry
  ∧ pico_vfs_local_fd st' (Some dev_entry) fd = 7
  ∧ ∀ name f, name (ops dev_entry) = Some f →
              (vfs_generic_reent_call name st' fd).2 = f (drvctx dev_entry) 7.
Proof.
  apply (open_then_descriptor_call st_dev (cstr "/dev/x") 0 0 dev_entry
           (fun _ _ _ _ => (0, 7)) 7 st_dev_ok eq_refl eq_refl eq_refl).
  - discriminate.
  - exists 0%nat. apply boot_rows_free; [reflexivity | vm_compute; lia].
Defined.

(** The theorem for [/dev/x] opened, closed and opened again. *)
Lemma descriptor_reused_after_close_witness :
  let st1 := (pico_vfs_open st_dev (cstr "/dev/x") 0 0).1 in
  let fd := (pico_vfs_open st_dev (cstr "/dev/x") 0 0).2 in
  let st2 := (pico_vfs_close st1 fd).1 in
  (pico_vfs_close st1 fd).2 = 0
  ∧ s_fd_table st2 !! Z.to_nat fd = Some FD_TABLE_ENTRY_UNUSED
  ∧ (pico_vfs_open st2 (cstr "/dev/x") 0 0).2 = fd.
Proof.
  apply (descriptor_reused_after_close st_dev (cstr "/dev/x") 0 0 dev_entry
           (fun _ _ _ _ => (0, 7)) (fun _ _ => 0) 7 st_dev_ok
           eq_refl eq_refl eq_refl).
  - discriminate.
  - reflexivity.
  - reflexivity.
  - exists 0%nat. apply boot_rows_free; [reflexivity | vm_compute; lia].
Defined.

(** The theorem for the descriptors 0 to 2 reserved in the state holding
    the root backend only. *)
Lemma register_fd_range_reserves_witness :
  ∃ st' (ix : nat),
    pico_vfs_register_fd_range sample_base_path_max st_root
      (sample_ops 0 7 0) 0 (Z.of_nat 0) (Z.of_nat 2) true
    = Ok (st', Z.of_nat ix)
    ∧ Z.of_nat ix < VFS_MAX_COUNT
    ∧ ¬ slot_taken st_root ix
    ∧ (∀ i : nat, (i < ix)%nat → slot_taken st_root i)
    ∧ rows_reserved (Z.of_nat ix) 0 3 (s_fd_table st_root) (s_fd_table st')
    ∧ ∀ fd : nat, (0 ≤ fd ≤ 2)%nat →
        pico_vfs_get_vfs_for_fd st' (Z.of_nat fd)
        = Some (new_entry [] LEN_PATH_PREFIX_IGNORED (sample_ops 0 7 0) 0 ix)
        ∧ pico_vfs_local_fd st' (pico_vfs_get_vfs_for_fd st' (Z.of_nat fd))
            (Z.of_nat fd) = Z.of_nat fd.
Proof.
  apply (register_fd_range_reserves sample_base_path_max st_root
           (sample_ops 0 7 0) 0 0 2 st_root_ok st_root_tail_free).
  - lia.
  - reflexivity.
  - intros k Hk. apply boot_rows_free; [reflexivity | vm_compute; lia].
  - exists 1%nat. split; [reflexivity |]. intros (e & He). discriminate He.
Defined.

(** The theorem for the descriptors 0 to 2 when descriptor 0 is open. *)
Lemma register_fd_range_collision_witness :
  ¬ row_free (s_fd_table st_opened) 0
  ∧ ∃ st' (ix : nat),
      pico_vfs_register_fd_range sample_base_path_max st_opened
        (sample_ops 0 7 0) 0 (Z.of_nat 0) (Z.of_nat 2) true = Ok (st', -1)
      ∧ rows_released 0 0 (s_fd_table st_opened) (s_fd_table st')
      ∧ Z.of_nat ix < VFS_MAX_COUNT
      ∧ ¬ slot_taken st_opened ix
      ∧ pico_vfs_get_vfs_entry_for_index st' (Z.of_nat ix)
        = Some (new_entry [] LEN_PATH_PREFIX_IGNORED (sample_ops 0 7 0) 0 ix)
      ∧ ∀ i : nat, i ≠ ix → s_vfs st' !! i = s_vfs st_opened !! i.
Proof.
  assert (Hocc : ¬ row_free (s_fd_table st_opened) 0).
  { intros (row & Hrow & Hv). injection Hrow as <-. discriminate Hv. }
  split; [exact Hocc |].
  apply (register_fd_range_collision sample_base_path_max st_opened
           (sample_ops 0 7 0) 0 0 2 0 st_opened_ok st_opened_tail_free).
  - reflexivity.
  - lia.
  - exact Hocc.
  - intros k Hk. lia.
  - exists 2%nat. split; [reflexivity |]. intros (e & He). discriminate He.
Defined.

(** The theorem for the registry holding the root backend, [/dev] and
    [/dev/uart]: the listing is [dev], [dev/uart]. *)
Lemma root_readdir_lists_backends_witness :
  root_dir_names (s_vfs st_dev_uart) = [cstr "dev"; cstr "dev/uart"]
  ∧ ∃ dir',
      root_readdir_all sample_base_path_max 3 st_dev_uart
        {| d_vfs_index := 0; d_off := 0 |}
      = Ok ((λ nm, {| d_type := DT_DIR; d_name := nm |})
              <$> root_dir_names (s_vfs st_dev_uart), dir')
      ∧ d_vfs_index dir' = d_vfs_index {| d_vfs_index := 0; d_off := 0 |}
      ∧ pico_vfs_root_readdir sample_base_path_max st_dev_uart dir'
        = Ok (dir', None).
Proof.
  split; [reflexivity |].
  apply (root_readdir_lists_backends sample_base_path_max st_dev_uart
           {| d_vfs_index := 0; d_off := 0 |} 3).
  - reflexivity.
  - apply no_nul_in_slots. reflexivity.
  - reflexivity.
  - vm_compute. lia.
  - apply short_in_slots. reflexivity.
Defined.

(** ** The shape of the registry is kept *)

Lemma fd_range_rollback_length : ∀ (n : nat) ix j tbl tbl',
  fd_range_rollback n ix j tbl = Ok tbl' → length tbl' = length tbl.
Proof.
  induction n as [| n IH]; intros ix j tbl tbl'; simpl.
  - by intros [= <-].
  - destruct (zlookup tbl j) as [row|]; [| done].
    intros H. apply IH in H. rewrite H.
    destruct (_ =? _); [apply length_insert | done].
Qed.

Lemma fd_range_loop_length : ∀ (n : nat) ix min_fd i tbl tbl' r,
  fd_range_loop n ix min_fd i tbl = Ok (tbl', r) → length tbl' = length tbl.
Proof.
  induction n as [| n IH]; intros ix min_fd i tbl tbl' r; simpl.
  - by intros [= <- _].
  - destruct (zlookup tbl i) as [row|]; [| done].
    destruct (negb _).
    + destruct (fd_range_rollback _ _ _ _) as [t|] eqn:Hrb; [| done].
      simpl. intros [= <- _]. by eapply fd_range_rollback_length.
    + intros H. apply IH in H. rewrite H. apply length_insert.
Qed.

(** Whether a state has the shape depends on the registry and on the
    length of the descriptor table only. *)
Lemma registry_shape_ext st st' :
  s_vfs st' = s_vfs st → s_vfs_count st' = s_vfs_count st →
  length (s_fd_table st') = length (s_fd_table st) →
  registry_ok st ∧ registry_tail_free st →
  registry_ok st' ∧ registry_tail_free st'.
Proof.
  intros Hs Hc Hl [(H1 & H2 & H3 & H4) Htail].
  unfold registry_ok, registry_tail_free. rewrite Hs, Hc, Hl. done.
Qed.

(** X23. The shape of the registry is an invariant of the API. After
    [pico_vfs_init] there are [VFS_MAX_COUNT] slots and [MAX_FDS]
    descriptor rows, the slot counter does not exceed the number of slots,
    every stored entry carries the number of its own slot, and every slot at
    or above the counter is empty; [pico_vfs_register],
    [pico_vfs_register_fd_range], [pico_vfs_unregister], [pico_vfs_open] and
    [pico_vfs_close] keep all of this. *)
Theorem registry_shape_invariant (M : Z) (st : vfs_state) :
  registry_ok st → registry_tail_free st →
  (∀ ok, registry_ok (pico_vfs_init M ok).1
         ∧ registry_tail_free (pico_vfs_init M ok).1)
  ∧ (∀ bp vops ctx ok,
       registry_ok (pico_vfs_register M st bp vops ctx ok).1
       ∧ registry_tail_free (pico_vfs_register M st bp vops ctx ok).1)
  ∧ (∀ vops ctx min_fd max_fd ok st' r,
       pico_vfs_register_fd_range M st vops ctx min_fd max_fd ok
       = Ok (st', r) →
       registry_ok st' ∧ registry_tail_free st')
  ∧ (∀ ix st' r,
       pico_vfs_unregister M st ix = Ok (st', r) →
       registry_ok st' ∧ registry_tail_free st')
  ∧ (∀ path flags mode,
       registry_ok (pico_vfs_open st path flags mode).1
       ∧ registry_tail_free (pico_vfs_open st path flags mode).1)
  ∧ (∀ fd,
       registry_ok (pico_vfs_close st fd).1
       ∧ registry_tail_free (pico_vfs_close st fd).1).
Proof.
  intros Hok Htail. split_and!.
  - intros ok. split; [apply pico_vfs_init_ok | apply pico_vfs_init_tail_free].
  - intros bp vops ctx ok.
    split; [by apply pico_vfs_register_ok
           | by apply pico_vfs_register_tail_free].
  - intros vops ctx min_fd max_fd ok st' r.
    unfold pico_vfs_register_fd_range.
    destruct (fd_range_rejected min_fd max_fd); [by intros [= <- _] |].
    pose proof (register_common_tail_free M st [] LEN_PATH_PREFIX_IGNORED
                  vops ctx ok (-1) Hok Htail) as Htail1.
    destruct (pico_vfs_register_common _ _ _ _ _ _ _ _)
      as [[st1 ret] ix] eqn:Hreg.
    pose proof (register_common_ok _ _ _ _ _ _ _ _ _ _ _ Hok Hreg) as Hok1.
    cbn [fst] in Htail1.
    destruct (ret =? 0); [| by intros [= <- _]].
    unfold pico_vfs_register_fd_range_for_vfs_index.
    destruct (fd_range_loop _ _ _ _ _) as [[tbl r2] |] eqn:Hloop; [| done].
    simpl. intros [= <- _].
    apply fd_range_loop_length in Hloop.
    by apply (registry_shape_ext st1).
  - intros ix st' r. unfold pico_vfs_unregister, zlookup.
    destruct (ix <? 0) eqn:Eix; [done |].
    destruct (s_vfs st !! Z.to_nat ix) as [[e|] |] eqn:Hl;
      [| by intros [= <- _] | done].
    destruct (stored_prefix_string M e) as [path|]; [| done].
    intros [= <- _].
    destruct Hok as (H1 & H2 & H3 & H4).
    unfold registry_ok, registry_tail_free, emit, set_registry.
    cbn [s_vfs s_vfs_count s_fd_table]. rewrite length_insert.
    split_and!; [done | done | | done |].
    + intros i e' Hi. apply list_lookup_insert_Some in Hi
        as [(_ & [=] & _) | (Hne & Hi)].
      by apply H3.
    + intros i Hi Hlen.
      destruct (decide (i = Z.to_nat ix)) as [-> | Hne].
      * by apply list_lookup_insert_eq.
      * rewrite list_lookup_insert_ne by done. by apply Htail.
  - intros path flags mode.
    destruct (pico_vfs_open_shape st path flags mode) as (Hs & Hc & Ht).
    apply (registry_shape_ext st); [done | done | | done].
    destruct Ht as [-> | (fd & vfs & lfd & _ & ->)];
      [done | apply length_insert].
  - intros fd.
    destruct (pico_vfs_close_shape st fd) as (Hs & Hc & Ht).
    apply (registry_shape_ext st); [done | done | | done].
    destruct Ht as [-> | (i & ->)]; [done | apply length_insert].
Qed.

(** The theorem for the state holding the root backend and [/dev]. *)
Lemma registry_shape_invariant_witness :
  registry_ok (pico_vfs_register sample_base_path_max st_dev
                 (cstr "/dev/uart") (sample_ops 0 8 0) 0 true).1
  ∧ registry_tail_free
      (pico_vfs_register sample_base_path_max st_dev (cstr "/dev/uart")
         (sample_ops 0 8 0) 0 true).1.
Proof.
  exact (proj1 (proj2 (registry_shape_invariant sample_base_path_max st_dev
                         st_dev_ok st_dev_tail_free))
           (cstr "/dev/uart") (sample_ops 0 8 0) 0 true).
Defined.

End VfsProps.

(** * Further properties of the block devices *)

Module BlockdevProps.
Import Errno Blockdev BlockdevFacts.

(** ** Reference counting *)

Lemma world_eta w :
  {| heap := heap w; malloc_plan := malloc_plan w; log := log w |} = w.
Proof. by destruct w. Qed.

Lemma update_at w p d f :
  heap w !! p = Some d →
  update p f w = set_heap (<[p := f d]> (heap w)) w.
Proof. intros H. unfold update. by rewrite H. Qed.

Lemma deref_at w p d : heap w !! p = Some d → deref w p = Ok d.
Proof. intros H. unfold deref. by rewrite H. Qed.

Lemma with_refcnt_id d : with_refcnt (refcnt d) d = d.
Proof. by destruct d. Qed.

Lemma with_refcnt_twice n m d :
  with_refcnt n (with_refcnt m d) = with_refcnt n d.
Proof. done. Qed.

(** X17. Taking a reference on a live object and dropping it again leaves
    the whole world as it was: no destructor runs and the object is handed
    back. *)
Theorem ref_then_unref_restores (fuel : nat) (w : world) (p : ptr)
    (d : pico_blockdev_t) :
  heap w !! p = Some d → 0 < refcnt d → refcnt d ≠ 255 →
  ∃ w1,
    pico_object_ref w p = Ok w1
    ∧ (refcnt <$> heap w1 !! p) = Some (refcnt d + 1)
    ∧ pico_blockdev_unref (S fuel) w1 p = Ok (w, Some p).
Proof.
  intros Hd Hpos Hmax.
  assert (Hp : (p < length (heap w))%nat) by (by eapply lookup_lt_Some).
  unfold pico_object_ref. rewrite (deref_at _ _ _ Hd). cbn [mbind result_bind].
  apply Z.eqb_neq in Hmax. rewrite Hmax.
  rewrite (update_at _ _ _ _ Hd).
  eexists. split; [done |].
  assert (Hd1 : heap (set_heap (<[p:=with_refcnt (refcnt d + 1) d]> (heap w)) w)
                !! p = Some (with_refcnt (refcnt d + 1) d)).
  { cbn [heap set_heap]. by apply list_lookup_insert_eq. }
  split; [by rewrite Hd1 |].
  cbn [pico_blockdev_unref]. rewrite (deref_at _ _ _ Hd1).
  cbn [mbind result_bind refcnt with_refcnt].
  destruct (refcnt d + 1 =? 0) eqn:E0; [apply Z.eqb_eq in E0; lia |].
  replace (refcnt d + 1 - 1) with (refcnt d) by lia.
  destruct (refcnt d =? 0) eqn:E1; [apply Z.eqb_eq in E1; lia |].
  rewrite (update_at _ _ _ _ Hd1), with_refcnt_twice, with_refcnt_id.
  unfold set_heap. cbn [heap malloc_plan log].
  rewrite list_insert_insert_eq, list_insert_id by done.
  by rewrite world_eta.
Qed.

(** ** Linking a child *)

Lemma next_malloc_heap w : heap (next_malloc w).2 = heap w.
Proof. unfold next_malloc. by destruct (malloc_plan w). Qed.

Lemma next_malloc_log w : log (next_malloc w).2 = log w.
Proof. unfold next_malloc. by destruct (malloc_plan w). Qed.

(** X18. Linking [child] below another device [dev], the link allocation
    succeeding: the child goes to the head of the children of [dev], its
    parent becomes [dev], both reference counts go up by one, no other
    object and no log entry changes; from then on the child cannot be
    linked again, below any device: the call returns [-EALREADY] and
    changes nothing. *)
Theorem add_child_links_once (w : world) (dev child : ptr)
    (d c : pico_blockdev_t) :
  dev ≠ child →
  heap w !! dev = Some d → heap w !! child = Some c →
  parent c = None → refcnt d ≠ 255 → refcnt c ≠ 255 →
  (next_malloc w).1 = true →
  ∃ w',
    pico_blockdev_add_child w dev child = Ok (w', 0)
    ∧ heap w' !! dev
      = Some (with_refcnt (refcnt d + 1)
                (with_children (child :: children d) d))
    ∧ heap w' !! child
      = Some (with_refcnt (refcnt c + 1) (with_parent (Some dev) c))
    ∧ (∀ q : ptr, q ≠ dev → q ≠ child → heap w' !! q = heap w !! q)
    ∧ length (heap w') = length (heap w)
    ∧ log w' = log w
    ∧ ∀ dev2 : ptr,
        pico_blockdev_add_child w' dev2 child = Ok (w', - EALREADY).
Proof.
  intros Hne Hd Hc Hpar Hrd Hrc Hm.
  assert (Hdl : (dev < length (heap w))%nat) by (by eapply lookup_lt_Some).
  assert (Hcl : (child < length (heap w))%nat) by (by eapply lookup_lt_Some).
  unfold pico_blockdev_add_child at 1.
  rewrite (deref_at _ _ _ Hc). cbn [mbind result_bind]. rewrite Hpar.
  destruct (next_malloc w) as [ok w1] eqn:Hnm. cbn [fst] in Hm. subst ok.
  cbn [negb].
  assert (Hh1 : heap w1 = heap w)
    by (by rewrite <- (next_malloc_heap w), Hnm).
  assert (Hl1 : log w1 = log w)
    by (by rewrite <- (next_malloc_log w), Hnm).
  assert (Hd1 : heap w1 !! dev = Some d) by (by rewrite Hh1).
  rewrite (deref_at _ _ _ Hd1). cbn [mbind result_bind].
  rewrite (update_at _ _ _ _ Hd1).
  set (d2 := with_children (child :: children d) d).
  set (w2 := set_heap _ w1).
  assert (Hc2 : heap w2 !! child = Some c).
  { unfold w2. cbn [heap set_heap]. rewrite list_lookup_insert_ne by done.
    by rewrite Hh1. }
  rewrite (update_at _ _ _ _ Hc2).
  set (c3 := with_parent (Some dev) c).
  set (w3 := set_heap _ w2).
  assert (Hc3 : heap w3 !! child = Some c3).
  { unfold w3. cbn [heap set_heap]. apply list_lookup_insert_eq.
    unfold w2. cbn [heap set_heap]. rewrite length_insert, Hh1. done. }
  unfold pico_object_ref. rewrite (deref_at _ _ _ Hc3).
  cbn [mbind result_bind].
  change (refcnt c3) with (refcnt c). apply Z.eqb_neq in Hrc. rewrite Hrc.
  rewrite (update_at _ _ _ _ Hc3).
  set (w4 := set_heap _ w3).
  assert (Hd4 : heap w4 !! dev = Some d2).
  { unfold w4, w3, w2. cbn [heap set_heap].
    rewrite !list_lookup_insert_ne by done.
    apply list_lookup_insert_eq. by rewrite Hh1. }
  cbn [mbind result_bind]. rewrite (deref_at _ _ _ Hd4).
  cbn [mbind result_bind].
  change (refcnt d2) with (refcnt d). apply Z.eqb_neq in Hrd. rewrite Hrd.
  rewrite (update_at _ _ _ _ Hd4).
  eexists. split; [done |].
  assert (Hlen : length (heap w4) = length (heap w)).
  { unfold w4, w3, w2. cbn [heap set_heap]. by rewrite !length_insert, Hh1. }
  assert (Hchild : heap (set_heap (<[dev:=with_refcnt (refcnt d + 1) d2]>
                                     (heap w4)) w4) !! child
                   = Some (with_refcnt (refcnt c + 1) c3)).
  { cbn [heap set_heap]. rewrite list_lookup_insert_ne by done.
    unfold w4. cbn [heap set_heap]. apply list_lookup_insert_eq.
    unfold w3, w2. cbn [heap set_heap]. rewrite !length_insert, Hh1. done. }
  split_and!.
  - cbn [heap set_heap]. apply list_lookup_insert_eq. by rewrite Hlen.
  - exact Hchild.
  - intros q Hq1 Hq2. unfold w4, w3, w2. cbn [heap set_heap].
    rewrite !list_lookup_insert_ne by done. by rewrite Hh1.
  - cbn [heap set_heap]. by rewrite length_insert.
  - done.
  - intros dev2. unfold pico_blockdev_add_child.
    rewrite (deref_at _ _ _ Hchild). done.
Qed.

(** ** Destroying a partition *)

(** X19. Dropping the last reference to a partition whose parent is a
    driver device: the partition's destructor runs once, the partition is
    freed, and the reference it held on the parent is dropped; where that
    was the parent's last reference, the parent's destructor (if it has
    one) runs after the partition's. Nothing else changes and NULL is
    returned. *)
Theorem unref_last_partition_reference (fuel : nat) (w : world) (p q : ptr)
    (d dq : pico_blockdev_t) rdo ioo (hd : bool) :
  p ≠ q →
  heap w !! p = Some d → ops d = Some part_ops → parent d = Some q →
  refcnt d = 1 →
  heap w !! q = Some dq → ops dq = Some (driver_ops rdo ioo hd) →
  0 < refcnt dq →
  ∃ w',
    pico_blockdev_unref (S (S fuel)) w p = Ok (w', None)
    ∧ heap w' !! p = Some (with_freed (with_refcnt 0 d))
    ∧ heap w' !! q = Some (with_refcnt (refcnt dq - 1) dq)
    ∧ (∀ r : ptr, r ≠ p → r ≠ q → heap w' !! r = heap w !! r)
    ∧ malloc_plan w' = malloc_plan w
    ∧ log w'
      = log w ++ BdDestroy p
                 :: (if (refcnt dq =? 1) && hd then [BdDestroy q] else []).
Proof.
  intros Hne Hd Hops Hpar Hr Hq Hopsq Hrq.
  assert (Hpl : (p < length (heap w))%nat) by (by eapply lookup_lt_Some).
  assert (Hql : (q < length (heap w))%nat) by (by eapply lookup_lt_Some).
  cbn [pico_blockdev_unref]. rewrite (deref_at _ _ _ Hd).
  cbn [mbind result_bind]. rewrite Hr, Hops, Hpar.
  cbn [Z.eqb Z.sub Z.add Z.opp Z.pos_sub Pos.eqb].
  rewrite (update_at _ _ _ _ Hd).
  set (w1 := emit _ _).
  assert (Hq1 : heap w1 !! q = Some dq).
  { unfold w1. cbn [heap emit set_heap].
    by rewrite list_lookup_insert_ne. }
  rewrite (deref_at _ _ _ Hq1). cbn [mbind result_bind].
  destruct (refcnt dq =? 0) eqn:E0; [apply Z.eqb_eq in E0; lia |].
  rewrite (update_at _ _ _ _ Hq1), Hopsq.
  set (w2 := set_heap _ w1).
  assert (Hp2 : ∀ wx, heap wx = heap w2 →
                 heap wx !! p = Some (with_refcnt 0 d)).
  { intros wx ->. unfold w2, w1. cbn [heap emit set_heap].
    rewrite list_lookup_insert_ne by done.
    by apply list_lookup_insert_eq. }
  assert (Hfin : ∀ wx, heap wx = heap w2 → malloc_plan wx = malloc_plan w →
            heap (update p with_freed wx) !! p
              = Some (with_freed (with_refcnt 0 d))
            ∧ heap (update p with_freed wx) !! q
              = Some (with_refcnt (refcnt dq - 1) dq)
            ∧ (∀ r : ptr, r ≠ p → r ≠ q →
                 heap (update p with_freed wx) !! r = heap w !! r)
            ∧ malloc_plan (update p with_freed wx) = malloc_plan w).
  { intros wx Hh Hm. rewrite (update_at _ _ _ _ (Hp2 wx Hh)).
    cbn [heap set_heap malloc_plan]. rewrite Hh.
    unfold w2, w1. cbn [heap emit set_heap]. split_and!.
    - apply list_lookup_insert_eq. by rewrite !length_insert.
    - rewrite list_lookup_insert_ne by done.
      apply list_lookup_insert_eq. by rewrite !length_insert.
    - intros r Hr1 Hr2. by rewrite !list_lookup_insert_ne.
    - done. }
  destruct (refcnt dq - 1 =? 0) eqn:E1.
  - apply Z.eqb_eq in E1.
    replace (refcnt dq =? 1) with true by (symmetry; apply Z.eqb_eq; lia).
    cbn [mbind result_bind andb].
    eexists. split; [reflexivity |].
    destruct hd.
    + destruct (Hfin (emit (BdDestroy q) w2) eq_refl eq_refl)
        as (H1 & H2 & H3 & H4).
      split_and!; [done | done | done | done |].
      rewrite (update_at _ _ _ _ (Hp2 (emit (BdDestroy q) w2) eq_refl)).
      unfold w2, w1. cbn [log emit set_heap]. by rewrite <- app_assoc.
    + destruct (Hfin w2 eq_refl eq_refl) as (H1 & H2 & H3 & H4).
      split_and!; [done | done | done | done |].
      cbv iota. rewrite (update_at _ _ _ _ (Hp2 _ eq_refl)). done.
  - apply Z.eqb_neq in E1.
    replace (refcnt dq =? 1) with false by (symmetry; apply Z.eqb_neq; lia).
    cbn [mbind result_bind andb].
    eexists. split; [reflexivity |].
    destruct (Hfin w2 eq_refl eq_refl) as (H1 & H2 & H3 & H4).
    split_and!; [done | done | done | done |].
    rewrite (update_at _ _ _ _ (Hp2 _ eq_refl)). done.
Qed.

(** ** Registering a disk without partitions *)

(** What [pico_blockdev_scan_partitions] logs on a sector that yields no
    partition. *)
Lemma scan_without_partitions (fuel : nat) register (w : world) (dev : ptr)
    (d : pico_blockdev_t) rdo ioo (hd : bool) (r : Z) (sect : list byte) :
  heap w !! dev = Some d → ops d = Some (driver_ops rdo ioo hd) →
  match rdo with Some rd => rd 0 1 | None => (- ENOSYS, []) end = (r, sect) →
  (r = 1 → u8 (byte_at sect 510) = 85 → u8 (byte_at sect 511) = 170 →
   ∀ i : nat, (i < 4)%nat → byte_at sect (446 + (i * 16 + 4)) = x00) →
  pico_blockdev_scan_partitions (S fuel) register w dev
  = Ok (if r =? 1
        then if (u8 (byte_at sect 510) =? 85) && (u8 (byte_at sect 511) =? 170)
             then emit BdDebug w else w
        else emit (BdError r) w).
Proof.
  intros Hd Hops Hrd Hempty. unfold pico_blockdev_scan_partitions.
  cbn [pico_blockdev_read_sector]. rewrite (deref_at _ _ _ Hd).
  cbn [mbind result_bind]. rewrite Hops.
  assert (Hread : match rdo with
                  | Some rd => Ok (rd 0 1)
                  | None => Ok (- ENOSYS, [])
                  end = Ok (r, sect)).
  { destruct rdo; by rewrite Hrd. }
  rewrite Hread. cbn [mbind result_bind].
  destruct (r =? 1) eqn:Er; [| done]. apply Z.eqb_eq in Er.
  destruct ((u8 (byte_at sect 510) =? 85) && (u8 (byte_at sect 511) =? 170))
    eqn:Esig; [| done].
  apply andb_true_iff in Esig as [E1 E2].
  apply Z.eqb_eq in E1. apply Z.eqb_eq in E2.
  specialize (Hempty Er E1 E2).
  cbn [for_each seq].
  do 4 (rewrite check_empty_entry
          by (rewrite !byte_at_drop; apply Hempty; lia);
        cbn [mbind result_bind]).
  done.
Qed.

(** X20. Registering a driver device whose first sector cannot be read as
    one sector, or lacks the 55 AA signature, or has four unused entries:
    the call returns 0, allocates nothing, adds no child, and drops the
    caller's reference; where that was the last one the destructor of the
    device (if it has one) runs. The log gets the read error or the
    table-found message, then the registration event, then the
    destruction. *)
Theorem register_disk_without_partitions (fuel : nat) (w : world) (dev : ptr)
    (d : pico_blockdev_t) rdo ioo (hd : bool) (r : Z) (sect : list byte) :
  heap w !! dev = Some d → parent d = None →
  ops d = Some (driver_ops rdo ioo hd) →
  0 < refcnt d →
  match rdo with Some rd => rd 0 1 | None => (- ENOSYS, []) end = (r, sect) →
  (r = 1 → u8 (byte_at sect 510) = 85 → u8 (byte_at sect 511) = 170 →
   ∀ i : nat, (i < 4)%nat → byte_at sect (446 + (i * 16 + 4)) = x00) →
  ∃ w',
    pico_blockdev_register (S (S fuel)) w dev = Ok (w', 0)
    ∧ heap w' = <[dev := with_refcnt (refcnt d - 1) d]> (heap w)
    ∧ malloc_plan w' = malloc_plan w
    ∧ log w'
      = log w
        ++ (if r =? 1
            then if (u8 (byte_at sect 510) =? 85)
                    && (u8 (byte_at sect 511) =? 170)
                 then [BdDebug] else []
            else [BdError r])
        ++ BdRegister dev
           :: (if (refcnt d =? 1) && hd then [BdDestroy dev] else []).
Proof.
  intros Hd Hpar Hops Hr Hrd Hempty.
  rewrite pico_blockdev_register_S. rewrite (deref_at _ _ _ Hd).
  cbn [mbind result_bind]. rewrite Hpar.
  rewrite (scan_without_partitions fuel _ w dev d rdo ioo hd r sect)
    by done.
  cbn [mbind result_bind].
  set (w1 := if r =? 1 then _ else _).
  assert (Hh1 : heap w1 = heap w).
  { unfold w1. destruct (r =? 1); [destruct (_ && _) |]; done. }
  assert (Hm1 : malloc_plan w1 = malloc_plan w).
  { unfold w1. destruct (r =? 1); [destruct (_ && _) |]; done. }
  assert (Hl1 : log w1
                = log w ++ (if r =? 1
                            then if (u8 (byte_at sect 510) =? 85)
                                    && (u8 (byte_at sect 511) =? 170)
                                 then [BdDebug] else []
                            else [BdError r])).
  { unfold w1. destruct (r =? 1); [destruct (_ && _) |]; cbn [log emit];
      by rewrite ?app_nil_r. }
  assert (Hd1 : heap (emit (BdRegister dev) w1) !! dev = Some d)
    by (cbn [heap emit]; by rewrite Hh1).
  cbn [pico_blockdev_unref]. rewrite (deref_at _ _ _ Hd1).
  cbn [mbind result_bind].
  destruct (refcnt d =? 0) eqn:E0; [apply Z.eqb_eq in E0; lia |].
  rewrite (update_at _ _ _ _ Hd1), Hops.
  destruct (refcnt d - 1 =? 0) eqn:E1.
  - apply Z.eqb_eq in E1.
    replace (refcnt d =? 1) with true by (symmetry; apply Z.eqb_eq; lia).
    cbn [mbind result_bind andb].
    eexists. split; [reflexivity |].
    destruct hd; cbn [heap malloc_plan log emit set_heap];
      rewrite Hh1, Hm1, Hl1, <- ?app_assoc; done.
  - apply Z.eqb_neq in E1.
    replace (refcnt d =? 1) with false by (symmetry; apply Z.eqb_neq; lia).
    cbn [mbind result_bind andb].
    eexists. split; [reflexivity |].
    cbn [heap malloc_plan log emit set_heap].
    rewrite Hh1, Hm1, Hl1, <- ?app_assoc; done.
Qed.

(** ** Partition I/O *)

(** X21. The four bytes are decoded as a little-endian number: the shifts
    and ors add up to [b0 + 256 b1 + 65536 b2 + 16777216 b3], which always
    fits 32 bits. *)
Theorem extractle32_little_endian (bs : list byte) :
  pico_blockdev_extractle32 bs = le32_value bs
  ∧ 0 ≤ pico_blockdev_extractle32 bs < 2 ^ 32.
Proof.
  rewrite pico_blockdev_extractle32_value. split; [done |].
  unfold le32_value.
  pose proof (u8_range (byte_at bs 0)). pose proof (u8_range (byte_at bs 1)).
  pose proof (u8_range (byte_at bs 2)). pose proof (u8_range (byte_at bs 3)).
  lia.
Qed.

(** X22. A partition passes reads and ioctls on to its parent driver. A
    read of sector [start] becomes a read of the parent at [start] plus the
    partition's first sector, wrapped to 32 bits and not compared with the
    partition's size; [BLKGETSIZE] is answered from the partition itself;
    any other command goes to the parent's [ioctl], and where the parent
    has none the result is -1, while the same call on the parent itself
    gives [-ENOSYS]. *)
Theorem partition_forwards_to_parent (fuel : nat) (w : world) (p q : ptr)
    (d dq : pico_blockdev_t) rdo ioo (hd : bool) :
  heap w !! p = Some d → ops d = Some part_ops → parent d = Some q →
  heap w !! q = Some dq → ops dq = Some (driver_ops rdo ioo hd) →
  (∀ start count,
     pico_blockdev_read_sector (S (S fuel)) w p start count
     = pico_blockdev_read_sector (S fuel) w q
         ((start + start_sector d) mod 2 ^ 32) count
     ∧ pico_blockdev_read_sector (S fuel) w q start count
       = Ok (match rdo with
             | Some rd => rd start count
             | None => (- ENOSYS, [])
             end))
  ∧ pico_blockdev_ioctl (S (S fuel)) w p PICO_IOCTL_BLKGETSIZE
    = Ok (0, Some (num_sectors d))
  ∧ ∀ cmd, cmd ≠ PICO_IOCTL_BLKGETSIZE →
      pico_blockdev_ioctl (S (S fuel)) w p cmd
      = Ok (match ioo with Some io => io cmd | None => (-1, None) end)
      ∧ pico_blockdev_ioctl (S fuel) w q cmd
        = Ok (match ioo with Some io => io cmd | None => (- ENOSYS, None) end).
Proof.
  intros Hd Hops Hpar Hq Hopsq. split_and!.
  - intros start count. split.
    + change (pico_blockdev_read_sector (S (S fuel)) w p start count)
        with (d0 ← deref w p;
              match ops d0 with
              | None => Fault NullDeref
              | Some (driver_ops None _ _) => Ok (- ENOSYS, [])
              | Some (driver_ops (Some rd) _ _) => Ok (rd start count)
              | Some part_ops =>
                match parent d0 with
                | None => Fault NullDeref
                | Some q0 =>
                  pico_blockdev_read_sector (S fuel) w q0
                    ((start + start_sector d0) mod 2 ^ 32) count
                end
              end).
      rewrite (deref_at _ _ _ Hd). cbn [mbind result_bind].
      by rewrite Hops, Hpar.
    + cbn [pico_blockdev_read_sector]. rewrite (deref_at _ _ _ Hq).
      cbn [mbind result_bind]. rewrite Hopsq. by destruct rdo.
  - unfold pico_blockdev_ioctl. cbn [call_ioctl].
    rewrite (deref_at _ _ _ Hd). cbn [mbind result_bind]. by rewrite Hops.
  - intros cmd Hcmd. unfold pico_blockdev_ioctl. cbn [call_ioctl].
    rewrite (deref_at _ _ _ Hd), (deref_at _ _ _ Hq).
    cbn [mbind result_bind]. rewrite Hops, Hpar, Hopsq.
    apply Z.eqb_neq in Hcmd. rewrite Hcmd, (deref_at _ _ _ Hq).
    cbn [mbind result_bind]. rewrite Hopsq. by destruct ioo.
Qed.

(** ** The properties on the scenario disks *)

(** The theorem for a driver disk just initialised. *)
Lemma ref_then_unref_restores_witness :
  ∃ w1,
    pico_object_ref (fresh_disk (disk_ops s4_sector) []) disk = Ok w1
    ∧ (refcnt <$> heap w1 !! disk)
      = Some (refcnt (disk_rec (disk_ops s4_sector)) + 1)
    ∧ pico_blockdev_unref 1 w1 disk
      = Ok (fresh_disk (disk_ops s4_sector) [], Some disk).
Proof.
  apply (ref_then_unref_restores 0 (fresh_disk (disk_ops s4_sector) []) disk
           (disk_rec (disk_ops s4_sector)) eq_refl).
  - reflexivity.
  - discriminate.
Defined.

(** The theorem for the disk of scenario S4 and a fresh partition
    object. *)
Lemma add_child_links_once_witness :
  ∃ w',
    pico_blockdev_add_child unlinked_pair disk part1 = Ok (w', 0)
    ∧ heap w' !! disk
      = Some (with_refcnt (refcnt (disk_rec (disk_ops s4_sector)) + 1)
                (with_children
                   (part1 :: children (disk_rec (disk_ops s4_sector)))
                   (disk_rec (disk_ops s4_sector))))
    ∧ heap w' !! part1
      = Some (with_refcnt (refcnt (part_rec 2048 1024) + 1)
                (with_parent (Some disk) (part_rec 2048 1024)))
    ∧ (∀ q : ptr, q ≠ disk → q ≠ part1 →
                  heap w' !! q = heap unlinked_pair !! q)
    ∧ length (heap w') = length (heap unlinked_pair)
    ∧ log w' = log unlinked_pair
    ∧ ∀ dev2 : ptr,
        pico_blockdev_add_child w' dev2 part1 = Ok (w', - EALREADY).
Proof.
  apply (add_child_links_once unlinked_pair disk part1
           (disk_rec (disk_ops s4_sector)) (part_rec 2048 1024)).
  - discriminate.
  - reflexivity.
  - reflexivity.
  - reflexivity.
  - discriminate.
  - discriminate.
  - reflexivity.
Defined.

(** The theorem for the partition of the registered disk of scenario S4:
    dropping the partition's last reference destroys the partition and
    then the disk. *)
Lemma unref_last_partition_reference_witness :
  ∃ w',
    pico_blockdev_unref 2 registered_s4 part1 = Ok (w', None)
    ∧ (freed <$> heap w' !! part1) = Some true
    ∧ (refcnt <$> heap w' !! disk) = Some 0
    ∧ log w' = log registered_s4 ++ [BdDestroy part1; BdDestroy disk].
Proof.
  destruct (unref_last_partition_reference 0 registered_s4 part1 disk
              {| refcnt := 1; ops := Some part_ops; parent := Some disk;
                 children := []; start_sector := 2048; num_sectors := 1024;
                 freed := false |}
              (with_children [part1] (disk_rec (disk_ops s4_sector)))
              (Some (fun _ _ => (1, s4_sector))) None true)
    as (w' & Hrun & Hp & Hq & _ & _ & Hlog).
  - discriminate.
  - reflexivity.
  - reflexivity.
  - reflexivity.
  - reflexivity.
  - reflexivity.
  - reflexivity.
  - reflexivity.
  - exists w'. split; [exact Hrun |]. split; [by rewrite Hp |].
    split; [by rewrite Hq |]. exact Hlog.
Defined.

(** The theorem for a driver disk whose first sector is blank. *)
Lemma register_disk_without_partitions_witness :
  ∃ w',
    pico_blockdev_register 2 (fresh_disk (disk_ops blank_sector) []) disk
    = Ok (w', 0)
    ∧ heap w'
      = <[disk := with_refcnt (refcnt (disk_rec (disk_ops blank_sector)) - 1)
                    (disk_rec (disk_ops blank_sector))]>
          (heap (fresh_disk (disk_ops blank_sector) []))
    ∧ malloc_plan w' = malloc_plan (fresh_disk (disk_ops blank_sector) [])
    ∧ log w' = [BdRegister disk; BdDestroy disk].
Proof.
  destruct (register_disk_without_partitions 0
              (fresh_disk (disk_ops blank_sector) []) disk
              (disk_rec (disk_ops blank_sector))
              (Some (fun _ _ => (1, blank_sector))) None true 1 blank_sector)
    as (w' & Hrun & Hheap & Hplan & Hlog).
  - reflexivity.
  - reflexivity.
  - reflexivity.
  - reflexivity.
  - reflexivity.
  - intros _ H510. discriminate H510.
  - exists w'. split; [exact Hrun |]. split; [exact Hheap |].
    split; [exact Hplan |]. exact Hlog.
Defined.

(** The theorem for the partition of the registered disk of scenario S4,
    which starts at sector 2048: sector 5 of the partition is sector 2053
    of the disk, and an unknown command gives -1 on the partition and
    [-ENOSYS] on the disk. *)
Lemma partition_forwards_to_parent_witness :
  pico_blockdev_read_sector 2 registered_s4 part1 5 1
  = pico_blockdev_read_sector 1 registered_s4 disk 2053 1
  ∧ pico_blockdev_ioctl 2 registered_s4 part1 PICO_IOCTL_BLKGETSIZE
    = Ok (0, Some 1024)
  ∧ pico_blockdev_ioctl 2 registered_s4 part1 7 = Ok (-1, None)
  ∧ pico_blockdev_ioctl 1 registered_s4 disk 7 = Ok (- ENOSYS, None).
Proof.
  destruct (partition_forwards_to_parent 0 registered_s4 part1 disk
              {| refcnt := 1; ops := Some part_ops; parent := Some disk;
                 children := []; start_sector := 2048; num_sectors := 1024;
                 freed := false |}
              (with_children [part1] (disk_rec (disk_ops s4_sector)))
              (Some (fun _ _ => (1, s4_sector))) None true
              eq_refl eq_refl eq_refl eq_refl eq_refl)
    as (Hread & Hsize & Hcmd).
  split; [exact (proj1 (Hread 5 1)) |]. split; [exact Hsize |].
  apply (Hcmd 7). discriminate.
Defined.

(** ** Reference counts stay in range *)

Lemma update_in_range p f w :
  refcnt_in_range w →
  (∀ d, heap w !! p = Some d → 0 ≤ refcnt (f d) ≤ 255) →
  refcnt_in_range (update p f w).
Proof.
  intros Hw Hf. unfold update.
  destruct (heap w !! p) as [d|] eqn:Hd; [| done].
  unfold refcnt_in_range. cbn [heap set_heap].
  apply Forall_insert; [done | by apply Hf].
Qed.

Lemma emit_in_range ev w : refcnt_in_range w → refcnt_in_range (emit ev w).
Proof. done. Qed.

Lemma lookup_in_range w p d :
  refcnt_in_range w → heap w !! p = Some d → 0 ≤ refcnt d ≤ 255.
Proof.
  intros Hw Hd. unfold refcnt_in_range in Hw. rewrite Forall_forall in Hw.
  apply Hw. by eapply list_elem_of_lookup_2.
Qed.

Lemma deref_Ok w p d : deref w p = Ok d → heap w !! p = Some d.
Proof. unfold deref. destruct (heap w !! p); [by intros [= ->] | done]. Qed.

Lemma pico_object_ref_in_range w p w' :
  refcnt_in_range w → pico_object_ref w p = Ok w' → refcnt_in_range w'.
Proof.
  intros Hw. unfold pico_object_ref.
  destruct (deref w p) as [d|] eqn:Hd; [| done]. apply deref_Ok in Hd.
  cbn [mbind result_bind].
  destruct (refcnt d =? 255) eqn:E; [done |]. apply Z.eqb_neq in E.
  intros [= <-]. apply update_in_range; [done |].
  intros d' Hd'. pose proof (lookup_in_range _ _ _ Hw Hd').
  assert (d' = d) as -> by congruence. cbn. lia.
Qed.

Lemma pico_blockdev_unref_in_range : ∀ (fuel : nat) w p w' r,
  refcnt_in_range w → pico_blockdev_unref fuel w p = Ok (w', r) →
  refcnt_in_range w'.
Proof.
  induction fuel as [| fuel IH]; intros w p w' r Hw; [done |].
  cbn [pico_blockdev_unref].
  destruct (deref w p) as [d|] eqn:Hd; [| done]. apply deref_Ok in Hd.
  cbn [mbind result_bind].
  destruct (refcnt d =? 0) eqn:E0; [done |]. apply Z.eqb_neq in E0.
  pose proof (lookup_in_range _ _ _ Hw Hd) as Hr.
  assert (Hw1 : refcnt_in_range (update p (with_refcnt (refcnt d - 1)) w)).
  { apply update_in_range; [done |]. intros d' _. cbn. lia. }
  destruct (refcnt d - 1 =? 0); [| by intros [= <- _]].
  assert (Hfreed : ∀ wx, refcnt_in_range wx →
                         refcnt_in_range (update p with_freed wx)).
  { intros wx Hwx. apply update_in_range; [done |].
    intros d' Hd'. exact (lookup_in_range _ _ _ Hwx Hd'). }
  destruct (ops d) as [[| rd io hd] |].
  - destruct (parent d) as [q|].
    + destruct (pico_blockdev_unref fuel _ q) as [[w2 r2] |] eqn:Hrec;
        [| done].
      cbn [mbind result_bind]. intros [= <- _]. apply Hfreed.
      eapply IH; [| exact Hrec]. by apply emit_in_range.
    + cbn [mbind result_bind]. intros [= <- _]. apply Hfreed.
      by apply emit_in_range.
  - cbn [mbind result_bind]. intros [= <- _]. by destruct hd.
  - cbn [mbind result_bind]. by intros [= <- _].
Qed.

Lemma next_malloc_in_range w :
  refcnt_in_range w → refcnt_in_range (next_malloc w).2.
Proof. unfold next_malloc. by destruct (malloc_plan w). Qed.

Lemma pico_blockdev_add_child_in_range w dev child w' r :
  refcnt_in_range w → pico_blockdev_add_child w dev child = Ok (w', r) →
  refcnt_in_range w'.
Proof.
  intros Hw. unfold pico_blockdev_add_child.
  destruct (deref w child) as [c|]; [| done]. cbn [mbind result_bind].
  destruct (parent c); [by intros [= <- _] |].
  pose proof (next_malloc_in_range w Hw) as Hw1.
  destruct (next_malloc w) as [ok w1]. cbn [snd] in Hw1.
  destruct ok; cbn [negb]; [| by intros [= <- _]].
  destruct (deref w1 dev) as [d|]; [| done]. cbn [mbind result_bind].
  set (w2 := update dev _ w1).
  assert (Hw2 : refcnt_in_range w2).
  { apply update_in_range; [done |]. intros d' Hd'.
    exact (lookup_in_range _ _ _ Hw1 Hd'). }
  set (w3 := update child _ w2).
  assert (Hw3 : refcnt_in_range w3).
  { apply update_in_range; [done |]. intros d' Hd'.
    exact (lookup_in_range _ _ _ Hw2 Hd'). }
  destruct (pico_object_ref w3 child) as [w4|] eqn:H4; [| done].
  cbn [mbind result_bind].
  destruct (pico_object_ref w4 dev) as [w5|] eqn:H5; [| done].
  cbn [mbind result_bind]. intros [= <- _].
  eapply pico_object_ref_in_range; [| exact H5].
  by eapply pico_object_ref_in_range.
Qed.

Lemma pico_blockdev_init_in_range w p vt :
  refcnt_in_range w → refcnt_in_range (pico_blockdev_init w p vt).
Proof.
  intros Hw. unfold pico_blockdev_init. apply update_in_range; [done |].
  intros d _. cbn. lia.
Qed.

Lemma malloc_dev_in_range w :
  refcnt_in_range w → refcnt_in_range (malloc_dev w).2.
Proof.
  intros Hw. unfold malloc_dev.
  pose proof (next_malloc_in_range w Hw) as Hw1.
  destruct (next_malloc w) as [ok w1]. cbn [snd] in Hw1.
  destruct ok; [| done]. unfold refcnt_in_range. cbn [snd heap set_heap].
  apply Forall_app. split; [done |]. apply Forall_singleton. cbn. lia.
Qed.

Lemma check_msdos_partition_in_range register w dev source index w' :
  (∀ wx n wy r, refcnt_in_range wx → register wx n = Ok (wy, r) →
                refcnt_in_range wy) →
  refcnt_in_range w →
  pico_blockdev_check_msdos_partition register w dev source index = Ok w' →
  refcnt_in_range w'.
Proof.
  intros Hreg Hw. unfold pico_blockdev_check_msdos_partition.
  destruct (negb _); [| by intros [= <-]].
  pose proof (malloc_dev_in_range w Hw) as Hw1.
  destruct (malloc_dev w) as [[n|] w1]; [| done]. cbn [snd] in Hw1.
  set (w3 := update n _ _).
  assert (Hw3 : refcnt_in_range w3).
  { apply update_in_range; [by apply pico_blockdev_init_in_range |].
    intros d' Hd'.
    exact (lookup_in_range _ _ _ (pico_blockdev_init_in_range _ _ _ Hw1) Hd'). }
  destruct (pico_blockdev_add_child w3 dev n) as [[w4 r] |] eqn:Hadd;
    [| done].
  apply pico_blockdev_add_child_in_range in Hadd; [| done].
  cbn [mbind result_bind].
  destruct (r =? 0); [| by intros [= <-]].
  destruct (register _ n) as [[w5 r5] |] eqn:Hr; [| done].
  cbn [mbind result_bind]. intros [= <-].
  eapply Hreg; [| exact Hr]. by apply emit_in_range.
Qed.

Lemma for_each_in_range body : ∀ idxs w w',
  (∀ wx i wy, refcnt_in_range wx → body wx i = Ok wy → refcnt_in_range wy) →
  refcnt_in_range w → for_each body idxs w = Ok w' → refcnt_in_range w'.
Proof.
  induction idxs as [| i rest IH]; intros w w' Hbody Hw; simpl.
  - by intros [= <-].
  - destruct (body w i) as [w1|] eqn:Hb; [| done]. cbn [mbind result_bind].
    apply IH; [done |]. by eapply Hbody.
Qed.

Lemma scan_partitions_in_range fuel register w dev w' :
  (∀ wx n wy r, refcnt_in_range wx → register wx n = Ok (wy, r) →
                refcnt_in_range wy) →
  refcnt_in_range w →
  pico_blockdev_scan_partitions fuel register w dev = Ok w' →
  refcnt_in_range w'.
Proof.
  intros Hreg Hw. unfold pico_blockdev_scan_partitions.
  destruct (pico_blockdev_read_sector fuel w dev 0 1) as [[r sect] |];
    [| done].
  cbn [mbind result_bind].
  destruct (r =? 1); [| by intros [= <-]].
  destruct (_ && _); [| by intros [= <-]].
  apply for_each_in_range; [| by apply emit_in_range].
  intros wx i wy Hwx. by apply check_msdos_partition_in_range.
Qed.

Lemma pico_blockdev_register_in_range : ∀ (fuel : nat) w dev w' r,
  refcnt_in_range w → pico_blockdev_register fuel w dev = Ok (w', r) →
  refcnt_in_range w'.
Proof.
  induction fuel as [| fuel IH]; intros w dev w' r Hw; [done |].
  rewrite pico_blockdev_register_S.
  destruct (deref w dev) as [d|]; [| done]. cbn [mbind result_bind].
  assert (Hscan : ∀ w1,
            match parent d with
            | None =>
              pico_blockdev_scan_partitions fuel (pico_blockdev_register fuel)
                w dev
            | Some _ => Ok w
            end = Ok w1 → refcnt_in_range w1).
  { intros w1. destruct (parent d); [by intros [= <-] |].
    apply scan_partitions_in_range; [| done].
    intros wx n wy r'. apply IH. }
  destruct (match parent d with None => _ | Some _ => _ end) as [w1|];
    [| done].
  cbn [mbind result_bind]. specialize (Hscan w1 eq_refl).
  destruct (pico_blockdev_unref fuel _ dev) as [[w2 r2] |] eqn:Hun; [| done].
  cbn [mbind result_bind]. intros [= <- _].
  eapply pico_blockdev_unref_in_range; [| exact Hun].
  by apply emit_in_range.
Qed.

Lemma pico_blockdev_unregister_in_range : ∀ (fuel : nat) w dev w',
  refcnt_in_range w → pico_blockdev_unregister fuel w dev = Ok w' →
  refcnt_in_range w'.
Proof.
  induction fuel as [| fuel IH]; intros w dev w' Hw; [done |].
  cbn [pico_blockdev_unregister].
  destruct dev as [p|]; [| by intros [= <-]].
  destruct (deref w p) as [d|]; [| done]. cbn [mbind result_bind].
  destruct (children d) as [| link_dev link_next]; [by intros [= <-] |].
  destruct (pico_blockdev_unregister fuel w (Some link_dev)) as [w1|] eqn:H1;
    [| done].
  apply IH in H1; [| done]. cbn [mbind result_bind].
  destruct (pico_blockdev_unref fuel w1 p) as [[w2 dev'] |] eqn:H2; [| done].
  apply pico_blockdev_unref_in_range in H2; [| done].
  cbn [mbind result_bind]. apply IH.
  destruct dev' as [q|]; [| done].
  apply update_in_range; [done |]. intros d' Hd'.
  exact (lookup_in_range _ _ _ H2 Hd').
Qed.

(** X24. No reference count leaves the range of the [uint8_t] that holds
    it: when every count of the heap is between 0 and 255, it is so again
    after [pico_object_ref], [pico_blockdev_unref] (with the destructors it
    runs), [pico_blockdev_init], [pico_blockdev_add_child],
    [pico_blockdev_register] (with the partition scan) and
    [pico_blockdev_unregister], whenever these return; the assertions of
    [pico_object_ref] and [pico_object_unref] stop the two calls that would
    wrap. *)
Theorem refcnt_never_wraps (w : world) :
  refcnt_in_range w →
  (∀ p w', pico_object_ref w p = Ok w' → refcnt_in_range w')
  ∧ (∀ fuel p w' r,
       pico_blockdev_unref fuel w p = Ok (w', r) → refcnt_in_range w')
  ∧ (∀ p vt, refcnt_in_range (pico_blockdev_init w p vt))
  ∧ (∀ dev child w' r,
       pico_blockdev_add_child w dev child = Ok (w', r) →
       refcnt_in_range w')
  ∧ (∀ fuel dev w' r,
       pico_blockdev_register fuel w dev = Ok (w', r) → refcnt_in_range w')
  ∧ (∀ fuel dev w',
       pico_blockdev_unregister fuel w dev = Ok w' → refcnt_in_range w')
  ∧ (∀ p d, heap w !! p = Some d →
            (refcnt d = 255 → pico_object_ref w p = Fault AssertFail)
            ∧ (refcnt d = 0 →
               ∀ fuel, pico_blockdev_unref (S fuel) w p = Fault AssertFail)).
Proof.
  intros Hw. split_and!.
  - intros p w'. by apply pico_object_ref_in_range.
  - intros fuel p w' r. by apply pico_blockdev_unref_in_range.
  - intros p vt. by apply pico_blockdev_init_in_range.
  - intros dev child w' r. by apply pico_blockdev_add_child_in_range.
  - intros fuel dev w' r. by apply pico_blockdev_register_in_range.
  - intros fuel dev w'. by apply pico_blockdev_unregister_in_range.
  - intros p d Hd. split.
    + intros Hr. unfold pico_object_ref. rewrite (deref_at _ _ _ Hd).
      cbn [mbind result_bind]. by rewrite Hr.
    + intros Hr fuel. cbn [pico_blockdev_unref]. rewrite (deref_at _ _ _ Hd).
      cbn [mbind result_bind]. by rewrite Hr.
Qed.

(** The theorem for the registered disk of scenario S4, torn down
    again. *)
Lemma refcnt_never_wraps_witness :
  refcnt_in_range registered_s4
  ∧ ∀ w', pico_blockdev_unregister 8 registered_s4 (Some disk) = Ok w' →
          refcnt_in_range w'.
Proof.
  assert (H : refcnt_in_range registered_s4).
  { unfold refcnt_in_range. apply Forall_cons. split; [cbn; lia |].
    apply Forall_cons. split; [cbn; lia |]. apply Forall_nil_2. }
  split; [exact H |].
  exact (proj1 (proj2 (proj2 (proj2 (proj2 (proj2
           (refcnt_never_wraps registered_s4 H)))))) 8%nat (Some disk)).
Defined.

End BlockdevProps.
